(** * SLA support tree planner (libslic3r/SLA/SLASupportTree.cpp)

    A shallow embedding of the support-tree planning code and the
    properties of its specification.

    Numbers.  The C++ code computes on [double].  Coordinates, radii and
    distances are idealised real numbers ([R]), and the value [+inf] that
    [ray_mesh_intersect] returns for a ray that never hits is a separate
    constructor ([NoHit]); their rounding is not modelled.  Where the
    outcome depends on rounding, the arithmetic is that of binary64: the
    step angle and the counter of the loops of [sphere] and [cylinder],
    which decide how many vertices a mesh gets, are primitive floats
    (module [Double]); and [cluster_centroid], whose result depends on the
    order in which its sums are rounded, is defined over the operations on
    [double] that it uses ([DoubleArith]), of which the idealised reals and
    binary64 are instances.  Container sizes and indices ([size_t],
    [unsigned], [int]) are [nat]; every index the code computes stays far
    below the wrap-around of those types.

    Layout: part I holds the definitions, in the order of the source file;
    part II holds the lemmas and theorems. *)

From Stdlib Require Import String Reals Lra Lia RNsatz Bool Arith ZArith List.
From Stdlib Require Floats Uint63.
Import ListNotations.
Open Scope R_scope.

(* ================================================================== *)
(** * Part I: definitions                                              *)
(* ================================================================== *)

(** ** Doubles in binary64 *)

(** A [double] whose rounding matters is a primitive float: IEEE 754
    binary64, every operation rounded to nearest, ties to even, as the
    code computes it. *)
Module Double.
Import PrimFloat FloatOps SpecFloat.
Local Open Scope float_scope.

Definition t : Set := float.

Definition zero : float := 0.
Definition one : float := 1.

(** [PI] of libslic3r: the double nearest to the number pi. *)
Definition PI : float := 0x1.921fb54442d18p+1.

(** The conversion of an integer to [double]; it is exact below [2^53],
    and no integer the code converts comes near that. *)
Definition of_Z (z : Z) : float :=
  if (z <? 0)%Z then - of_uint63 (Uint63.of_Z (- z))
  else of_uint63 (Uint63.of_Z z).

(** [double(n)] for a [size_t] or an [int] [n]. *)
Definition of_size (n : nat) : float := of_Z (Z.of_nat n).

(** [std::floor]. *)
Definition floor (x : float) : float :=
  match Prim2SF x with
  | S754_finite s m e =>
      if (0 <=? e)%Z then x
      else of_Z (Z.shiftl (if s then Z.neg m else Z.pos m) e)
  | _ => x
  end.

(** [size_t(x)]: the integer part of a double [x > -1].  The conversion of
    any other double (a negative number from -1 on, an infinity, a NaN) is
    undefined in the source; here it gives 0. *)
Definition to_size_t (x : float) : nat :=
  match Prim2SF x with
  | S754_finite false m e => Z.to_nat (Z.shiftl (Z.pos m) e)
  | _ => 0%nat
  end.

(** The real number that a finite double stands for. *)
Definition to_R (x : float) : R :=
  match Prim2SF x with
  | S754_finite s m e =>
      let m := IZR (if s then Z.neg m else Z.pos m) in
      if (0 <=? e)%Z then (m * IZR (2 ^ e))%R else (m / IZR (2 ^ (- e)))%R
  | _ => 0%R
  end.

(** [2*PI / n] for an integer [n]. *)
Definition circle_over (n : nat) : float := 2 * PI / of_size n.

(** [2*PI / floor(2*PI / fa)]. *)
Definition step_angle (fa : float) : float := 2 * PI / floor (2 * PI / fa).

(** [size_t(2*p / angle)]. *)
Definition portion_step (p angle : float) : nat := to_size_t (2 * p / angle).

(** The values [i] of [for (double i = 0; i < 2*PI; i += angle)], at most
    [fuel] of them: when the result has fewer than [fuel] elements, the
    loop has ended by its condition. *)
Fixpoint ring_loop (fuel : nat) (i angle : float) : list float :=
  match fuel with
  | O => []
  | S fuel' =>
      if ltb i (2 * PI) then i :: ring_loop fuel' (i + angle) angle else []
  end.

(** [floor(2*PI / fa)], the number of steps that the step angle [fa] is
    adjusted to. *)
Definition floor_steps (fa : float) : nat := to_size_t (floor (2 * PI / fa)).

(** The rounds that the loop is given for the step angle [fa]: two more
    than [floor(2*PI / fa)], the number of rounds in exact arithmetic.  The
    counter accumulates the rounding of every addition and can stay below
    [2*PI] for one round more. *)
Definition ring_fuel (fa : float) : nat := S (S (floor_steps fa)).

(** The ring angles of [sphere] and [cylinder] for the step angle [fa]. *)
Definition ring (fa : float) : list float :=
  ring_loop (ring_fuel fa) 0 (step_angle fa).
End Double.

(** ** Vectors *)

Record Vec3d := mkVec3d { vx : R; vy : R; vz : R }.
Record Vec2d := mkVec2d { ux : R; uy : R }.

Definition vadd (a b : Vec3d) : Vec3d :=
  mkVec3d (vx a + vx b) (vy a + vy b) (vz a + vz b).
Definition vsub (a b : Vec3d) : Vec3d :=
  mkVec3d (vx a - vx b) (vy a - vy b) (vz a - vz b).
Definition vscale (k : R) (a : Vec3d) : Vec3d :=
  mkVec3d (k * vx a) (k * vy a) (k * vz a).
Definition vdot (a b : Vec3d) : R :=
  vx a * vx b + vy a * vy b + vz a * vz b.
Definition vcross (a b : Vec3d) : Vec3d :=
  mkVec3d (vy a * vz b - vz a * vy b)
          (vz a * vx b - vx a * vz b)
          (vx a * vy b - vy a * vx b).

(** [distance(p)] is [sqrt(p^T p)], [distance(pp1, pp2)] the same of
    [pp2 - pp1]. *)
Definition norm3 (p : Vec3d) : R := sqrt (vdot p p).
Definition distance3 (pp1 pp2 : Vec3d) : R := norm3 (vsub pp2 pp1).
Definition norm2 (p : Vec2d) : R := sqrt (ux p * ux p + uy p * uy p).
Definition distance2 (pp1 pp2 : Vec2d) : R :=
  norm2 (mkVec2d (ux pp2 - ux pp1) (uy pp2 - uy pp1)).

(** Eigen's [normalized()]: the vector divided by its norm. *)
Definition normalized (p : Vec3d) : Vec3d := vscale (/ norm3 p) p.

Definition to_vec2 (v3 : Vec3d) : Vec2d := mkVec2d (vx v3) (vy v3).

(** Setters for [v(X) = ...], [v(Y) = ...], [v(Z) = ...]. *)
Definition set_z (v : Vec3d) (z : R) : Vec3d := mkVec3d (vx v) (vy v) z.

(** Comparisons of doubles as booleans. *)
Definition Rltb (a b : R) : bool := if Rlt_dec a b then true else false.
Definition Rleb (a b : R) : bool := if Rle_dec a b then true else false.

(** The result of a ray cast: a finite distance or [+inf]. *)
Inductive Dist := Hit (t : R) | NoHit.

Definition isinf (d : Dist) : bool :=
  match d with NoHit => true | Hit _ => false end.
(** [t > x] for a cast result [t] and a finite [x]. *)
Definition dist_gtb (d : Dist) (x : R) : bool :=
  match d with NoHit => true | Hit t => Rltb x t end.
(** [t >= x] for a cast result [t] and a finite [x]. *)
Definition dist_geb (d : Dist) (x : R) : bool :=
  match d with NoHit => true | Hit t => Rleb x t end.

(** ** The planner's program counter and the controller commands *)

Inductive Steps :=
| BEGIN | FILTER | PINHEADS | CLASSIFY | ROUTING_GROUND | ROUTING_NONGROUND
| HEADLESS | DONE | HALT | ABORT.

(** The value of each enumerator; [NUM_STEPS] is 10. *)
Definition step_index (s : Steps) : nat :=
  match s with
  | BEGIN => 0 | FILTER => 1 | PINHEADS => 2 | CLASSIFY => 3
  | ROUTING_GROUND => 4 | ROUTING_NONGROUND => 5 | HEADLESS => 6
  | DONE => 7 | HALT => 8 | ABORT => 9
  end%nat.

Definition Steps_eqb (a b : Steps) : bool :=
  Nat.eqb (step_index a) (step_index b).

Inductive Cmd := START_RESUME | PAUSE | STOP | SYNCH.

(** The table [stepstate] of [progress]. *)
Definition stepstate (s : Steps) : nat :=
  match s with
  | BEGIN => 0 | FILTER => 10 | PINHEADS => 30 | CLASSIFY => 50
  | ROUTING_GROUND => 60 | ROUTING_NONGROUND => 70 | HEADLESS => 80
  | DONE => 100 | HALT => 0 | ABORT => 0
  end%nat.

(** The table [stepstr] of [progress].  The initialiser list of the source
    lacks three commas, so adjacent literals are concatenated: the array
    gets seven strings and its last three entries are empty. *)
Definition stepstr (s : Steps) : string :=
  match s with
  | BEGIN => "Filtering"
  | FILTER => "Generate pinheadsClassification"
  | PINHEADS => "Routing to ground"
  | CLASSIFY => "Routing supports to model surface"
  | ROUTING_GROUND => "Processing small holesDone"
  | ROUTING_NONGROUND => "Halt"
  | HEADLESS => "Abort"
  | DONE => ""
  | HALT => ""
  | ABORT => ""
  end%string.

(** The two variables [pc] and [pc_prev] that [progress] captures. *)
Record Control := mkControl { pc : Steps; pc_prev : Steps }.

Definition control_init : Control := mkControl BEGIN BEGIN.

(** One call of [statuscb]. *)
Definition Status : Type := (nat * string)%type.

Definition status_of (s : Steps) : Status := (stepstate s, stepstr s).

(** The inner [switch(pc)] of the [START_RESUME] case. *)
Definition advance (c : Control) : Steps :=
  match pc c with
  | BEGIN => FILTER
  | FILTER => PINHEADS
  | PINHEADS => CLASSIFY
  | CLASSIFY => ROUTING_GROUND
  | ROUTING_GROUND => ROUTING_NONGROUND
  | ROUTING_NONGROUND => HEADLESS
  | HEADLESS => DONE
  | HALT => pc_prev c
  | DONE => DONE
  | ABORT => ABORT
  end.

(** The lambda [progress], given the command that [ctl.nextcmd] returned:
    the new control variables and the status callback it made, if any. *)
Definition progress (cmd : Cmd) (c : Control) : Control * option Status :=
  match cmd with
  | START_RESUME =>
      let pc' := advance c in
      (mkControl pc' (pc_prev c), Some (status_of pc'))
  | PAUSE => (mkControl HALT (pc c), Some (status_of HALT))
  | STOP => (mkControl ABORT (pc_prev c), Some (status_of ABORT))
  | SYNCH => (mkControl BEGIN (pc_prev c), None)
  end.

(** The condition of the driving loop: [pc < DONE || pc == HALT]. *)
Definition loop_cond (s : Steps) : bool :=
  Nat.ltb (step_index s) (step_index DONE) || Steps_eqb s HALT.

(** ** Meshes *)

(** An index of a mesh vertex ([coord_t]). *)
Definition Vec3crd : Type := (Z * Z * Z)%type.

(** [Contour3D]: an indexed triangle list. *)
Record Contour3D := mkContour3D {
  points : list Vec3d;
  indices : list Vec3crd
}.

Definition empty_contour : Contour3D := mkContour3D [] [].

Definition map_points (f : Vec3d -> Vec3d) (c : Contour3D) : Contour3D :=
  mkContour3D (map f (points c)) (indices c).

(** [EigenMesh3D]: vertex rows [V] and triangle rows [F]. *)
Record EigenMesh3D := mkEigenMesh3D {
  V : list Vec3d;
  F : list (nat * nat * nat)
}.

Definition Portion : Type := (Double.t * Double.t)%type.
Definition make_portion (a b : Double.t) : Portion := (a, b).

(** A point set is a matrix with one point per row. *)
Definition PointSet : Type := list Vec3d.

(** An element of the spatial index: a point and its id. *)
Definition SpatElement : Type := (Vec3d * nat)%type.
Definition ClusterEl : Type := list nat.
Definition ClusteredPoints : Type := list ClusterEl.

(** What the planner calls and the properties of the planner leave open:
    the tessellation of spheres ([sphere], modelled below as [Mesh.sphere])
    and of the pinhead (the body of the [Head] constructor built on
    [sphere]), on whose vertices no property of the planner depends; the mesh
    interrogator ([ray_mesh_intersect], [normals]) and [cluster], which are
    only declared here; the axis Eigen's [FromTwoVectors] takes from a
    singular value decomposition when its two arguments are opposite; and
    the content of a matrix row that was never assigned. *)
Class Externals := {
  sphere : R -> Portion -> Double.t -> Contour3D;
  pinhead : R -> R -> R -> nat -> Contour3D;
  ray_mesh_intersect : Vec3d -> Vec3d -> EigenMesh3D -> Dist;
  normals : PointSet -> EigenMesh3D -> PointSet;
  cluster : PointSet -> (SpatElement -> SpatElement -> bool) -> nat ->
            ClusteredPoints;
  svd_axis : Vec3d -> Vec3d -> Vec3d;
  unassigned_row : Vec3d
}.

(** [Eigen::Rotation2Dd(a) * Eigen::Vector2d(0, r)]. *)
Definition rot2d_0r (a r : R) : Vec2d := mkVec2d (- (r * sin a)) (r * cos a).

(** The body of the loop of [cylinder]: [n] counts the vertices already
    stored; two vertices and four facets are added. *)
Definition cylinder_step (r h : R) (i : R) (c : Contour3D) : Contour3D :=
  let p := rot2d_0r i r in
  let pts := points c ++ [mkVec3d (ux p) (uy p) 0; mkVec3d (ux p) (uy p) h] in
  let id := (Z.of_nat (length pts) - 1)%Z in
  mkContour3D pts
    (indices c ++ [ (0, id - 1, id - 3); (id, 1, id - 2);
                    (id, id - 2, id - 3); (id, id - 3, id - 1) ]%Z).

(** [cylinder(r, h, fa)].  The step angle and the loop counter [i] are
    doubles in binary64; the loop runs on [fuel].  With [fa = 2*PI/45], the
    only value the planner passes, the loop ends by its condition after 45
    rounds (lemma [ring_45]). *)
Definition cylinder_fuel (fuel : nat) (r h : R) (fa : Double.t) : Contour3D :=
  let c0 := mkContour3D [mkVec3d 0 0 0; mkVec3d 0 0 h] [] in
  let angle := Double.step_angle fa in
  let c1 := mkContour3D
              (points c0 ++ [mkVec3d (sin 0 * r) (cos 0 * r) 0;
                             mkVec3d (sin 0 * r) (cos 0 * r) h])
              (indices c0) in
  let ring := map Double.to_R (Double.ring_loop fuel Double.zero angle) in
  let c2 := fold_left (fun c i => cylinder_step r h i c) ring c1 in
  (* [id] is 1 when the loop body never ran *)
  let id := match ring with
            | [] => 1%Z
            | _ => (Z.of_nat (length (points c2)) - 1)%Z
            end in
  mkContour3D (points c2)
    (indices c2 ++ [ (2, 0, id - 1); (1, 3, id); (id, 3, 2);
                     (id, 2, id - 1) ]%Z).

Definition cylinder (r h : R) (fa : Double.t) : Contour3D :=
  cylinder_fuel (Double.ring_fuel fa) r h fa.

(** ** Quaternions (Eigen) *)

Record Quaternion := mkQuaternion { qw : R; qvec : Vec3d }.

(** Eigen's [dummy_precision] for [double]. *)
Definition dummy_precision : R := / 1000000000000.

(** Eigen's [Quaternion::FromTwoVectors(a, b)]: the rotation that sends
    the direction of [a] to the direction of [b]. *)
Definition FromTwoVectors `{Externals} (a b : Vec3d) : Quaternion :=
  let v0 := normalized a in
  let v1 := normalized b in
  let c := vdot v1 v0 in
  if Rlt_dec c (-1 + dummy_precision) then
    let c := Rmax c (-1) in
    let axis := svd_axis v0 v1 in
    let w2 := (1 + c) * / 2 in
    mkQuaternion (sqrt w2) (vscale (sqrt (1 - w2)) axis)
  else
    let axis := vcross v0 v1 in
    let s := sqrt ((1 + c) * 2) in
    let invs := 1 / s in
    mkQuaternion (s * / 2) (vscale invs axis).

(** Eigen's [quaternion * vector]. *)
Definition qrot (q : Quaternion) (v : Vec3d) : Vec3d :=
  let uv := vcross (qvec q) v in
  let uv := vadd uv uv in
  vadd (vadd v (vscale (qw q) uv)) (vcross (qvec q) uv).

(** ** The primitives of the tree *)

(** The two triangles per side quad that [Head::add_tail], the [Pillar]
    constructor and [Pillar::add_base] store for a band between an upper
    ring at index [0] and a lower ring at index [offs].  Every caller has
    [steps >= 1] (45 unless the caller says otherwise); for [steps = 0] the
    source computes [steps - 1] in [size_t], which this does not model. *)
Definition band_indices (steps : nat) : list Vec3crd :=
  let offs := Z.of_nat steps in
  flat_map (fun i : nat =>
              let i := Z.of_nat i in
              [ (i, i + offs, offs + i + 1); (i, offs + i + 1, i + 1) ]%Z)
           (seq 0 (steps - 1))
  ++ (let last := (Z.of_nat steps - 1)%Z in
      [ (0, last, offs); (last, offs + last, offs) ]%Z).

(** The ring of [steps] points of radius [r] around [(cx, cy)] at height
    [z]. *)
Definition ring_points (steps : nat) (cx cy r z : R) : list Vec3d :=
  let a := 2 * PI / INR steps in
  map (fun i : nat =>
         let phi := INR i * a in
         mkVec3d (cx + r * cos phi) (cy + r * sin phi) z)
      (seq 0 steps).

Module Tail.
Record t := mk { mesh : Contour3D; steps : nat; length : R }.
End Tail.

Module Head.
Record t := mk {
  mesh : Contour3D;
  steps : nat;
  dir : Vec3d;
  tr : Vec3d;
  r_back_mm : R;
  r_pin_mm : R;
  width_mm : R;
  tail : Tail.t
}.

(** The constructor; [direction], [offset] and [circlesteps] default to
    [(0,0,-1)], [(0,0,0)] and 45. *)
Definition make `{Externals} (r_big_mm r_small_mm length_mm : R)
    (direction offset : Vec3d) (circlesteps : nat) : t :=
  mk (pinhead r_big_mm r_small_mm length_mm circlesteps)
     circlesteps direction offset r_big_mm r_small_mm length_mm
     (Tail.mk empty_contour 45 (0.8 * length_mm)).

Definition transform `{Externals} (h : t) : t :=
  let quatern := FromTwoVectors (mkVec3d 0 0 (-1)) (dir h) in
  mk (map_points (fun p => vadd (qrot quatern p) (tr h)) (mesh h))
     (steps h) (dir h) (tr h) (r_back_mm h) (r_pin_mm h) (width_mm h)
     (tail h).

Definition fullwidth (h : t) : R :=
  2 * r_pin_mm h + width_mm h + 2 * r_back_mm h.

Definition junction_point (h : t) : Vec3d :=
  vadd (tr h) (vscale (2 * r_pin_mm h + width_mm h + r_back_mm h) (dir h)).

Definition request_pillar_radius (h : t) (radius : R) : R :=
  if Rltb 0 radius && Rltb radius (r_back_mm h) then radius
  else r_back_mm h * 0.65.

(** [add_tail(length, radius)]; both arguments default to [-1]. *)
Definition add_tail (h : t) (length radius : R) : t :=
  let tlen := if Rltb 0 length then length else Tail.length (tail h) in
  let hh := r_back_mm h + 2 * r_pin_mm h + width_mm h in
  let c := vadd (tr h) (vscale hh (dir h)) in
  let r := r_back_mm h * 0.9 in
  let r_low := request_pillar_radius h radius in
  let z := vz c in
  let cntr := Tail.mesh (tail h) in
  let pts := points cntr
             ++ ring_points (steps h) (vx c) (vy c) r z
             ++ ring_points (steps h) (vx c) (vy c) r_low (z - tlen) in
  mk (mesh h) (steps h) (dir h) (tr h) (r_back_mm h) (r_pin_mm h)
     (width_mm h)
     (Tail.mk (mkContour3D pts (indices cntr ++ band_indices (steps h)))
              (Tail.steps (tail h)) tlen).
End Head.

Module Pillar.
Record t := mk {
  mesh : Contour3D;
  base : Contour3D;
  r : R;
  steps : nat;
  endpoint : Vec3d;
  (** the head the pillar refers to, as its index in the tree *)
  headref : nat
}.

(** The constructor, from the head stored at index [hidx]; [radius]
    defaults to 1.  The lower ring of the tail is what follows the first
    [steps] points of the tail mesh. *)
Definition make (hidx : nat) (head : Head.t) (endp : Vec3d) (radius : R)
    : t :=
  let steps := Head.steps head in
  let low := skipn steps (points (Tail.mesh (Head.tail head))) in
  mk (mkContour3D
        (low ++ map (fun s => mkVec3d (vx s) (vy s) (vz endp)) low)
        (band_indices steps))
     empty_contour
     (Head.request_pillar_radius head radius)
     steps endp hidx.

(** [add_base(height, radius)]; the defaults are 3 and 2. *)
Definition add_base (p : t) (height radius : R) : t :=
  if Rleb height 0 then p
  else
    let radius := if Rltb radius (r p) then r p else radius in
    let z := vz (endpoint p) + height in
    let ep := set_z (endpoint p) (vz (endpoint p) + height) in
    let pts := points (base p)
               ++ ring_points (steps p) (vx (endpoint p)) (vy (endpoint p))
                              (r p) z
               ++ ring_points (steps p) (vx (endpoint p)) (vy (endpoint p))
                              radius (z - height)
               ++ [endpoint p; ep] in
    let hcenter := (Z.of_nat (List.length pts) - 1)%Z in
    let lcenter := (Z.of_nat (List.length pts) - 2)%Z in
    let offs := Z.of_nat (steps p) in
    let last := (Z.of_nat (steps p) - 1)%Z in
    let idx :=
      flat_map (fun i : nat =>
                  let i := Z.of_nat i in
                  [ (i, i + offs, offs + i + 1); (i, offs + i + 1, i + 1);
                    (i, i + 1, hcenter);
                    (lcenter, offs + i + 1, offs + i) ]%Z)
               (seq 0 (steps p - 1))
      ++ [ (0, last, offs); (last, offs + last, offs);
           (hcenter, last, 0); (offs, offs + last, lcenter) ]%Z in
    mk (mesh p) (mkContour3D pts (indices (base p) ++ idx))
       (r p) (steps p) (endpoint p) (headref p).

Definition has_base (p : t) : bool :=
  match points (base p) with [] => false | _ => true end.

(** [cs.base = m]. *)
Definition set_base (p : t) (m : Contour3D) : t :=
  mk (mesh p) m (r p) (steps p) (endpoint p) (headref p).
End Pillar.

Module Junction.
Record t := mk { mesh : Contour3D; r : R; steps : nat; pos : Vec3d }.

(** The constructor; [stepnum] defaults to 45. *)
Definition make `{Externals} (tr : Vec3d) (r_mm : R) (stepnum : nat) : t :=
  mk (map_points (fun p => vadd p tr)
        (sphere r_mm (make_portion Double.zero Double.PI)
                (Double.circle_over stepnum)))
     r_mm stepnum tr.
End Junction.

Module Bridge.
Record t := mk { mesh : Contour3D; r : R }.

(** [Bridge(const Junction&, const Junction&, double r_mm = 0.8)]. *)
Definition of_junctions `{Externals} (j1 j2 : Junction.t) (r_mm : R) : t :=
  let dir := normalized (vsub (Junction.pos j2) (Junction.pos j1)) in
  let d := distance3 (Junction.pos j2) (Junction.pos j1) in
  let quater := FromTwoVectors (mkVec3d 0 0 1) dir in
  mk (map_points (fun p => vadd (qrot quater p) (Junction.pos j1))
        (cylinder r_mm d (Double.circle_over 45)))
     r_mm.

(** [Bridge(const Head&, const Junction&, double r_mm = 0.8)]: the body
    is commented out in the source. *)
Definition of_head_junction (h : Head.t) (j2 : Junction.t) (r_mm : R) : t :=
  mk empty_contour r_mm.

(** [Bridge(const Junction&, const Pillar&)]: the body is empty, [r]
    keeps its member initialiser. *)
Definition of_junction_pillar (j : Junction.t) (cl : Pillar.t) : t :=
  mk empty_contour 0.8.
End Bridge.

(** Assignment to the element [n] of a vector or to the row [n] of a
    matrix.  The source never assigns outside the container. *)
Fixpoint set_nth {A} (n : nat) (x : A) (l : list A) : list A :=
  match l, n with
  | [], _ => []
  | _ :: l', O => x :: l'
  | y :: l', S n' => y :: set_nth n' x l'
  end.

(** [SLASupportTree::Impl]: the four containers; each [add_] appends. *)
Module Impl.
Record t := mk {
  m_heads : list Head.t;
  m_pillars : list Pillar.t;
  m_junctions : list Junction.t;
  m_bridges : list Bridge.t
}.

Definition empty : t := mk [] [] [] [].

Definition add_head (x : Head.t) (s : t) : t :=
  mk (m_heads s ++ [x]) (m_pillars s) (m_junctions s) (m_bridges s).
Definition add_pillar (x : Pillar.t) (s : t) : t :=
  mk (m_heads s) (m_pillars s ++ [x]) (m_junctions s) (m_bridges s).
Definition add_junction (x : Junction.t) (s : t) : t :=
  mk (m_heads s) (m_pillars s) (m_junctions s ++ [x]) (m_bridges s).
Definition add_bridge (x : Bridge.t) (s : t) : t :=
  mk (m_heads s) (m_pillars s) (m_junctions s) (m_bridges s ++ [x]).

(** [head(idx)] as an assignment target: the head at [idx] replaced. *)
Definition set_head (idx : nat) (h : Head.t) (s : t) : t :=
  mk (set_nth idx h (m_heads s)) (m_pillars s) (m_junctions s)
     (m_bridges s).
End Impl.

(** ** The host model *)

(** Modelled from the spec: the host's object model (Model.hpp) is not part
    of this file.  A model provides objects; an object has volumes (its
    raw triangle mesh is their union), instances and support points in
    local coordinates; an instance has a world transform, which
    [transform_vector] applies to a point and [transform_mesh] to every
    vertex of a mesh. *)
Definition stl_facet : Type := (Vec3d * Vec3d * Vec3d)%type.
Definition TriangleMesh : Type := list stl_facet.

Record ModelInstance := mkModelInstance {
  transform_vector : Vec3d -> Vec3d
}.

Definition transform_mesh (inst : ModelInstance) (m : TriangleMesh)
    : TriangleMesh :=
  map (fun f : stl_facet =>
         let '(a, b, c) := f in
         (transform_vector inst a, transform_vector inst b,
          transform_vector inst c)) m.

Record ModelObject := mkModelObject {
  volumes : list TriangleMesh;
  instances : list ModelInstance;
  sla_support_points : list Vec3d
}.

Definition raw_mesh (o : ModelObject) : TriangleMesh := concat (volumes o).

Record Model := mkModel { objects : list ModelObject }.

(** [to_eigenmesh(const Model&)]: every instance's transformed mesh, one
    after the other, three fresh vertex rows per facet. *)
Definition combined_mesh (model : Model) : TriangleMesh :=
  flat_map (fun o =>
              flat_map (fun inst => transform_mesh inst (raw_mesh o))
                       (instances o))
           (objects model).

Definition to_eigenmesh (model : Model) : EigenMesh3D :=
  let stl := combined_mesh model in
  mkEigenMesh3D
    (flat_map (fun f : stl_facet => let '(a, b, c) := f in [a; b; c]) stl)
    (map (fun i => (3 * i + 0, 3 * i + 1, 3 * i + 2)%nat)
         (seq 0 (length stl))).

Definition model_coord (object : ModelInstance) (mesh_coord : Vec3d) : Vec3d :=
  transform_vector object mesh_coord.

(** A matrix whose rows may not have been assigned yet. *)
Definition RawPointSet : Type := list (option Vec3d).

(** The innermost loop of [support_points]: [i] starts at 0 for the
    instance and counts the object's support points. *)
Definition write_instance (inst : ModelInstance) (pts : list Vec3d)
    (ret : RawPointSet) : RawPointSet :=
  snd (fold_left
         (fun (st : nat * RawPointSet) msource =>
            let '(i, ret) := st in
            (S i, set_nth i (Some (model_coord inst msource)) ret))
         pts (0%nat, ret)).

Definition support_points_sum (model : Model) : nat :=
  fold_left (fun sum o =>
               (sum + length (instances o) * length (sla_support_points o))%nat)
            (objects model) 0%nat.

Definition support_points (model : Model) : RawPointSet :=
  fold_left
    (fun ret o =>
       fold_left (fun ret inst => write_instance inst (sla_support_points o) ret)
                 (instances o) ret)
    (objects model)
    (repeat None (support_points_sum model)).

(** The rows as [generate] reads them. *)
Definition read_rows `{Externals} (m : RawPointSet) : PointSet :=
  map (fun r => match r with Some p => p | None => unassigned_row end) m.

(** ** Configuration *)

Record SupportConfig := mkSupportConfig {
  head_front_radius_mm : R;
  head_back_radius_mm : R;
  head_width_mm : R;
  pillar_radius_mm : R;
  base_radius_mm : R;
  base_height_mm : R;
  tilt : R;
  junction_distance : R
}.

Definition D_SP : R := 0.1.

(** [std::atan2(y, x)] on the reals. *)
Definition atan2 (y x : R) : R :=
  if Rlt_dec 0 x then atan (y / x)
  else if Rlt_dec x 0 then
         (if Rle_dec 0 y then atan (y / x) + PI else atan (y / x) - PI)
       else if Rlt_dec 0 y then PI / 2
            else if Rlt_dec y 0 then - (PI / 2) else 0.

(** ** The stages of [generate] *)

(** The variables of [generate] that the stage workers share. *)
Record Data := mkData {
  filtered_points : PointSet;
  filtered_normals : PointSet;
  head_positions : PointSet;
  headless_positions : PointSet;
  head_heights : list Dist;
  ground_heads : list nat;
  noground_heads : list nat;
  ground_connectors : ClusteredPoints;
  result : Impl.t
}.

Definition zero3 : Vec3d := mkVec3d 0 0 0.

(** The direction of the cast of [classifyfn]. *)
Definition down : Vec3d := mkVec3d 0 0 (-1).

(** What one round of the loop of [filterfn] does with the point [hp] and
    its face normal [n]. *)
Inductive FilterVerdict :=
| Discarded
| ToHead (hp nn : Vec3d)
| ToHeadless (hp : Vec3d).

(** The normal with its polar angle saturated to [3*PI/4]. *)
Definition corrected_normal (n : Vec3d) : Vec3d :=
  let polar := Rmax (acos (vz n / 1)) (3 * PI / 4) in
  let azimuth := atan2 (vy n) (vx n) in
  mkVec3d (cos azimuth * sin polar) (sin azimuth * sin polar) (cos polar).

Definition filter_point `{Externals} (cfg : SupportConfig)
    (mesh : EigenMesh3D) (hp n : Vec3d) : FilterVerdict :=
  let z := vz n in
  let r := 1 in
  let polar := acos (z / r) in
  if Rleb (PI / 2) polar then
    let nn := corrected_normal n in
    let w := head_width_mm cfg + head_back_radius_mm cfg
             + 2 * head_front_radius_mm cfg in
    let t := ray_mesh_intersect (vadd hp (vscale 0.1 nn)) nn mesh in
    if dist_gtb t (2 * w) || isinf t then ToHead hp nn else ToHeadless hp
  else Discarded.

(** The three matrices the loop fills: [head_pos], [filt_norm],
    [headless_pos].  Row [pcount] (resp. [hlcount]) is assigned and the
    counter incremented; the matrices are cut to the counters after the
    loop, so each is the list of the rows assigned, in order. *)
Definition filter_store (acc : PointSet * PointSet * PointSet)
    (v : FilterVerdict) : PointSet * PointSet * PointSet :=
  let '(head_pos, filt_norm, headless_pos) := acc in
  match v with
  | Discarded => acc
  | ToHead hp nn => (head_pos ++ [hp], filt_norm ++ [nn], headless_pos)
  | ToHeadless hp => (head_pos, filt_norm, headless_pos ++ [hp])
  end.

(** The points kept by the first step of [filterfn]: the front point of
    each cluster of aliases. *)
Definition filter_aliases `{Externals} (points : PointSet) : PointSet :=
  let aliases :=
    cluster points
      (fun p se => Rltb (distance3 (fst p) (fst se)) D_SP) 2 in
  map (fun a : ClusterEl => nth (hd 0%nat a) points unassigned_row) aliases.

(** The loop of [filterfn] over the kept points [filt_pts] and their
    normals [nmls]. *)
Definition filter_loop `{Externals} (cfg : SupportConfig)
    (mesh : EigenMesh3D) (filt_pts nmls : PointSet)
    : PointSet * PointSet * PointSet :=
  fold_left
    (fun acc i =>
       filter_store acc
         (filter_point cfg mesh (nth i filt_pts unassigned_row)
                       (nth i nmls unassigned_row)))
    (seq 0 (length filt_pts)) ([], [], []).

Definition filterfn `{Externals} (cfg : SupportConfig) (points : PointSet)
    (mesh : EigenMesh3D) (d : Data) : Data :=
  let filt_pts := filter_aliases points in
  let nmls := normals filt_pts mesh in
  let '(head_pos, filt_norm, headless_pos) :=
    filter_loop cfg mesh filt_pts nmls in
  mkData filt_pts filt_norm head_pos headless_pos
         (head_heights d) (ground_heads d) (noground_heads d)
         (ground_connectors d) (result d).

Definition with_result (d : Data) (res : Impl.t) : Data :=
  mkData (filtered_points d) (filtered_normals d) (head_positions d)
         (headless_positions d) (head_heights d) (ground_heads d)
         (noground_heads d) (ground_connectors d) res.

(** [pinheadfn]: one head per row of [head_pos], with the normal of the
    same row as its direction. *)
Definition pinheadfn `{Externals} (cfg : SupportConfig) (d : Data) : Data :=
  with_result d
    (fold_left
       (fun res i =>
          Impl.add_head
            (Head.make (head_back_radius_mm cfg) (head_front_radius_mm cfg)
                       (head_width_mm cfg)
                       (nth i (filtered_normals d) unassigned_row)
                       (nth i (head_positions d) unassigned_row)
                       45)
            res)
       (seq 0 (length (head_positions d))) (result d)).

(** The first loop of [classifyfn]: the downward cast from each head. *)
Definition classify_cast `{Externals} (mesh : EigenMesh3D)
    (heads : list Head.t)
    (acc : list Dist * list nat * list nat) (i : nat)
    : list Dist * list nat * list nat :=
  let '(gndheight, gndidx, nogndidx) := acc in
  match nth_error heads i with
  | None => acc (* the source reads outside the vector *)
  | Some head =>
      let dir := down in
      let startpoint := Head.junction_point head in
      let t := ray_mesh_intersect startpoint dir mesh in
      (gndheight ++ [t],
       if isinf t then gndidx ++ [i] else gndidx,
       if isinf t then nogndidx else nogndidx ++ [i])
  end.

(** The body of the last loop of [classifyfn], for a head whose cast hit
    the mesh at the finite distance [gh]: the head as the loop leaves it
    and the pillar it adds. *)
Definition classify_nonground `{Externals} (cfg : SupportConfig)
    (idx : nat) (head0 : Head.t) (gh : R) : Head.t * Pillar.t :=
  let head := Head.add_tail (Head.transform head0) (-1) (-1) in
  let headend := Head.junction_point head in
  let base_head :=
    Head.transform
      (Head.make (head_back_radius_mm cfg) (head_front_radius_mm cfg)
                 (head_width_mm cfg) (mkVec3d 0 0 1)
                 (mkVec3d (vx headend) (vy headend)
                          (vz headend - gh - Head.r_pin_mm head))
                 45) in
  let hl := Head.fullwidth head - Head.r_back_mm head in
  let cs := Pillar.make idx head
              (mkVec3d (vx headend) (vy headend) (vz headend - gh + hl))
              (pillar_radius_mm cfg) in
  (head, Pillar.set_base cs (Head.mesh base_head)).

Definition classify_step `{Externals} (cfg : SupportConfig)
    (gndheight : list Dist) (res : Impl.t) (idx : nat) : Impl.t :=
  match nth_error (Impl.m_heads res) idx, nth_error gndheight idx with
  | Some head0, Some (Hit gh) =>
      let '(head, cs) := classify_nonground cfg idx head0 gh in
      Impl.add_pillar cs (Impl.set_head idx head res)
  | _, _ => res (* not reached: every index of [nogndidx] has a finite cast *)
  end.

Definition classifyfn `{Externals} (cfg : SupportConfig) (mesh : EigenMesh3D)
    (d : Data) : Data :=
  let head_pos := head_positions d in
  let '(gndheight, gndidx, nogndidx) :=
    fold_left (classify_cast mesh (Impl.m_heads (result d)))
              (seq 0 (length head_pos))
              (head_heights d, ground_heads d, noground_heads d) in
  let gnd := map (fun i => nth i head_pos unassigned_row) gndidx in
  let d_base := 4 * base_radius_mm cfg in
  let ground_clusters :=
    cluster gnd
      (fun p s => Rltb (distance2 (to_vec2 (fst p)) (to_vec2 (fst s))) d_base)
      4 in
  mkData (filtered_points d) (filtered_normals d) head_pos
         (headless_positions d) gndheight gndidx nogndidx ground_clusters
         (fold_left (classify_step cfg gndheight) nogndidx (result d)).

(** ** Cluster centroid *)

(** [std::next_permutation] on a list, in recursive form: the suffix is
    advanced when it can be; when it is already the last permutation of
    its elements, the head is exchanged with the rightmost element of the
    suffix greater than it and the suffix is reversed.  [None] stands for
    the result [false] (the range was the last permutation). *)
Section NextPermutation.
Context {A : Type} (ltb : A -> A -> bool).

Fixpoint replace_last_gt (x : A) (l : list A) : option (A * list A) :=
  match l with
  | [] => None
  | y :: l' =>
      match replace_last_gt x l' with
      | Some (z, l'') => Some (z, y :: l'')
      | None => if ltb x y then Some (y, x :: l') else None
      end
  end.

Fixpoint next_permutation (l : list A) : option (list A) :=
  match l with
  | [] => None
  | x :: rest =>
      match next_permutation rest with
      | Some rest' => Some (x :: rest')
      | None =>
          match replace_last_gt x rest with
          | Some (y, rest') => Some (y :: rev rest')
          | None => None
          end
      end
  end.
End NextPermutation.

(** [operator<] of [bool]. *)
Definition bool_ltb (a b : bool) : bool := negb a && b.

(** The indices [i] with [sel[i]] set, in increasing order. *)
Fixpoint set_bits (i : nat) (sel : list bool) : list nat :=
  match sel with
  | [] => []
  | b :: sel' => if b then i :: set_bits (S i) sel' else set_bits (S i) sel'
  end.

(** The operations on [double] that [cluster_centroid] uses: [0.0],
    [a + b], [a / n] for a [size_t] [n], and [a < b]. *)
Class DoubleArith (D : Type) := {
  d_zero : D;
  d_add : D -> D -> D;
  d_div_size : D -> nat -> D;
  d_ltb : D -> D -> bool
}.

(** Doubles idealised as reals: no operation rounds. *)
#[export] Instance ideal_arith : DoubleArith R := {|
  d_zero := 0;
  d_add := Rplus;
  d_div_size := fun a n => a / INR n;
  d_ltb := Rltb
|}.

(** Doubles as the code has them. *)
#[export] Instance binary64_arith : DoubleArith Double.t := {|
  d_zero := Double.zero;
  d_add := PrimFloat.add;
  d_div_size := fun a n => PrimFloat.div a (Double.of_size n);
  d_ltb := PrimFloat.ltb
|}.

Section ClusterCentroid.
Context {D : Type} {arith : DoubleArith D} {P : Type}.

(** [avgs[i] += d]. *)
Definition add_at (i : nat) (d : D) (avgs : list D) : list D :=
  set_nth i (d_add (nth i avgs d_zero) d) avgs.

(** [std::min_element]: the index of the first smallest element of a
    list that starts at index [i]; [best] and [bi] are the smallest
    element seen so far and its index. *)
Fixpoint min_element_from (i : nat) (best : D) (bi : nat) (l : list D)
    : nat :=
  match l with
  | [] => bi
  | x :: l' =>
      if d_ltb x best then min_element_from (S i) x i l'
      else min_element_from (S i) best bi l'
  end.

Definition min_element (l : list D) : nat :=
  match l with
  | [] => 0%nat
  | x :: l' => min_element_from 1 x 0 l'
  end.

Variable clust : ClusterEl.
Variable pointfn : nat -> P.
Variable df : P -> P -> D.

(** One round of the [do] loop: the distance of the two selected points
    is added to both their sums, first to that of [idx[0]]. *)
Definition centroid_round (sel : list bool) (avgs : list D) : list D :=
  let idx := set_bits 0 sel in
  let idx0 := nth 0 idx 0%nat in
  let idx1 := nth 1 idx 0%nat in
  let d := df (pointfn (nth idx0 clust 0%nat))
              (pointfn (nth idx1 clust 0%nat)) in
  add_at idx1 d (add_at idx0 d avgs).

(** The [do ... while(std::next_permutation(...))] loop. *)
Fixpoint centroid_loop (fuel : nat) (sel : list bool) (avgs : list D)
    : option (list D) :=
  match fuel with
  | O => None
  | S fuel' =>
      let avgs' := centroid_round sel avgs in
      match next_permutation bool_ltb sel with
      | Some sel' => centroid_loop fuel' sel' avgs'
      | None => Some avgs'
      end
  end.

(** [cluster_centroid(clust, pointfn, df)]; [None] if the loop did not
    end within [size * size] rounds, which is shown never to happen. *)
Definition cluster_centroid : option Z :=
  match length clust with
  | 0%nat => Some (-1)%Z
  | 1%nat => Some 0%Z
  | 2%nat => Some 0%Z
  | n =>
      let sel := repeat false (n - 2) ++ [true; true] in
      let avgs := repeat d_zero n in
      match centroid_loop (n * n) sel avgs with
      | None => None
      | Some avgs =>
          let avgs := map (fun a => d_div_size a n) avgs in
          Some (Z.of_nat (min_element avgs))
      end
  end.
End ClusterCentroid.

(** ** Convex hull *)

Definition ERR : R := / 1000000.

(** The lambda [orientation] of [pts_convex_hull]. *)
Definition orientation (p q r : Vec2d) : nat :=
  let val := (uy q - uy p) * (ux r - ux q) - (ux q - ux p) * (uy r - uy q) in
  if Rltb (Rabs val) ERR then 0%nat
  else if Rltb ERR val then 1%nat else 2%nat.

Section ConvexHull.
Variable pts : list Vec2d.

Definition pt (i : nat) : Vec2d := nth i pts (mkVec2d 0 0).

(** The search for the leftmost point. *)
Definition leftmost : nat :=
  fold_left
    (fun l i =>
       if Rltb (Rabs (ux (pt i) - ux (pt l))) ERR then
         (if Rltb (uy (pt i)) (uy (pt l)) then i else l)
       else if Rltb (ux (pt i)) (ux (pt l)) then i else l)
    (seq 1 (length pts - 1)) 0%nat.

(** The inner [for] loop: the most counterclockwise point seen from
    [p]. *)
Definition wrap_next (p : nat) : nat :=
  let n := length pts in
  fold_left
    (fun q i => if Nat.eqb (orientation (pt p) (pt i) (pt q)) 2 then i else q)
    (seq 0 n) ((p + 1) mod n)%nat.

(** The [do ... while (p != l)] loop; [None] when [fuel] rounds do not
    bring [p] back to [l]. *)
Fixpoint wrap_loop (fuel : nat) (l p : nat) (hull : list nat)
    : option (list nat) :=
  match fuel with
  | O => None
  | S fuel' =>
      let hull := hull ++ [p] in
      let q := wrap_next p in
      if Nat.eqb q l then Some hull else wrap_loop fuel' l q hull
  end.
End ConvexHull.

(** [pts_convex_hull(inpts, pfn)]. *)
Definition pts_convex_hull (fuel : nat) (inpts : ClusterEl)
    (pfn : nat -> Vec2d) : option ClusterEl :=
  let n := length inpts in
  if Nat.ltb n 3 then Some inpts
  else
    let points := map pfn inpts in
    let l := leftmost points in
    wrap_loop points fuel l l [].

(** ** Spatial index *)

(** Modelled from the spec: the spatial index (SLASpatIndex.hpp) is not
    part of this file.  It supports [insert(point, id)] and
    [query(predicate)], which returns the elements that satisfy the
    predicate; the order of the result is unspecified, and this model
    returns them in the order of insertion. *)
Module SpatIndex.
Definition t : Type := list SpatElement.
Definition empty : t := [].
Definition insert (p : Vec3d) (id : nat) (idx : t) : t := idx ++ [(p, id)].
Definition query (pred : SpatElement -> bool) (idx : t) : list SpatElement :=
  filter pred idx.
End SpatIndex.

(** [std::max_element(first, last, comp)]: the first largest element. *)
Fixpoint max_element_from {A} (comp : A -> A -> bool) (largest : A)
    (l : list A) : A :=
  match l with
  | [] => largest
  | x :: l' =>
      if comp largest x then max_element_from comp x l'
      else max_element_from comp largest l'
  end.

(** [std::sort] on indices. *)
Fixpoint insert_sorted (x : nat) (l : list nat) : list nat :=
  match l with
  | [] => [x]
  | y :: l' => if Nat.leb x y then x :: l else y :: insert_sorted x l'
  end.
Definition sort (l : list nat) : list nat := fold_right insert_sorted [] l.

(** [std::set_difference] of two sorted ranges. *)
Fixpoint set_difference (l1 : list nat) : list nat -> list nat :=
  fix inner (l2 : list nat) : list nat :=
    match l1, l2 with
    | [], _ => []
    | _, [] => l1
    | x :: l1', y :: l2' =>
        if Nat.ltb x y then x :: set_difference l1' l2
        else if Nat.ltb y x then inner l2'
        else set_difference l1' l2'
    end.

(** ** Routing of the grounded heads *)

(** What the routing does to the junctions, the bridges and the junction
    index, in the order it does it.  The log is not a variable of the
    source: it records the arguments of [add_junction] (with the index the
    junction gets in the tree), of [add_bridge], and of each query of the
    junction index with its result. *)
Inductive Event :=
| EvJunction (id : nat) (pos : Vec3d)
| EvBridge (from to : Vec3d) (r : R)
| EvQuery (pp : Vec3d) (d : R) (juncs : list SpatElement).

Record RState := mkRState { rs_tree : Impl.t; rs_log : list Event }.

(** How a stage ended: it ran to its end, it used up the rounds it was
    given (a loop of the source that does not end), or it read a vector
    outside its bounds. *)
Inductive Outcome := Completed | OutOfFuel | OutOfBounds.

Definition rs_add_junction `{Externals} (pos : Vec3d) (r_mm : R)
    (s : RState) : RState :=
  mkRState (Impl.add_junction (Junction.make pos r_mm 45) (rs_tree s))
           (rs_log s ++ [EvJunction (length (Impl.m_junctions (rs_tree s))) pos]).

(** [add_bridge(j1, j2, r)] for the junctions added at [p1] and [p2]
    with radius [hbr]. *)
Definition rs_add_bridge `{Externals} (p1 p2 : Vec3d) (hbr r_mm : R)
    (s : RState) : RState :=
  mkRState (Impl.add_bridge
              (Bridge.of_junctions (Junction.make p1 hbr 45)
                                   (Junction.make p2 hbr 45) r_mm)
              (rs_tree s))
           (rs_log s ++ [EvBridge p1 p2 r_mm]).

Definition rs_add_pillar (p : Pillar.t) (s : RState) : RState :=
  mkRState (Impl.add_pillar p (rs_tree s)) (rs_log s).

Definition rs_set_head (idx : nat) (h : Head.t) (s : RState) : RState :=
  mkRState (Impl.set_head idx h (rs_tree s)) (rs_log s).

Section RoutingGround.
Context `{Externals}.
Variable cfg : SupportConfig.
Variable head_pos : PointSet.
Variable gndidx : list nat.
Variable emesh : EigenMesh3D.

(** The lambda [gnd_head_pt]. *)
Definition gnd_head_pt (idx : nat) : Vec3d :=
  nth (nth idx gndidx 0%nat) head_pos unassigned_row.

Definition dist_xy (p1 p2 : Vec3d) : R :=
  distance2 (mkVec2d (vx p1) (vy p1)) (mkVec2d (vx p2) (vy p2)).

(** The body of the loop over the side heads of a cluster: [hidx] is the
    index of the side head in the tree, [jh] the junction point of the
    head of the main pillar. *)
Definition route_sidehead (jh : Vec3d) (s : RState) (hidx : nat)
    : RState * Outcome :=
  let hbr := head_back_radius_mm cfg in
  match nth_error (Impl.m_heads (rs_tree s)) hidx with
  | None => (s, OutOfBounds)
  | Some sidehead0 =>
      let sidehead := Head.add_tail (Head.transform sidehead0) (-1) (-1) in
      let s := rs_set_head hidx sidehead s in
      let r_pillar :=
        Head.request_pillar_radius sidehead (pillar_radius_mm cfg) in
      let jstep := Head.fullwidth sidehead in
      let jp := Head.junction_point sidehead in
      let jp := set_z jp (vz jp - jstep) in
      let d := dist_xy jp jh in
      let jn := mkVec3d (vx jh) (vy jh) (vz jp + d * sin (- tilt cfg)) in
      if Rltb 0 (vz jn) then
        let s := rs_add_junction jp hbr s in
        let s := rs_add_pillar
                   (Pillar.make hidx sidehead jp (pillar_radius_mm cfg)) s in
        let s := rs_add_junction jn hbr s in
        (rs_add_bridge jp jn hbr r_pillar s, Completed)
      else
        let jp := set_z jp 0 in
        let sidecs := Pillar.make hidx sidehead jp (pillar_radius_mm cfg) in
        let sidecs := Pillar.add_base sidecs (base_height_mm cfg)
                                      (base_radius_mm cfg) in
        (rs_add_pillar sidecs s, Completed)
  end.

(** A loop body run over a list, stopped by the first round that does
    not complete. *)
Fixpoint for_each {S A} (body : S -> A -> S * Outcome) (l : list A) (s : S)
    : S * Outcome :=
  match l with
  | [] => (s, Completed)
  | x :: l' =>
      match body s x with
      | (s', Completed) => for_each body l' s'
      | stopped => stopped
      end
  end.

(** [cl.erase(cl.begin() + cidx)]. *)
Fixpoint erase (cidx : nat) (cl : list nat) : list nat :=
  match cl, cidx with
  | [], _ => []
  | _ :: cl', O => cl'
  | x :: cl', S c => x :: erase c cl'
  end.

(** The body of the loop over the clusters; the state carries
    [cl_centroids]. *)
Definition route_cluster (st : RState * ClusterEl) (cl : ClusterEl)
    : (RState * ClusterEl) * Outcome :=
  let '(s, cl_centroids) := st in
  match cluster_centroid cl gnd_head_pt dist_xy with
  | None => (st, OutOfFuel)
  | Some c =>
      let cidx := Z.to_nat c in
      match (if Z.ltb c 0 then None else nth_error cl cidx) with
      | None => (st, OutOfBounds)
      | Some cen =>
          let cl_centroids := cl_centroids ++ [cen] in
          let index_to_heads := nth cen gndidx 0%nat in
          match nth_error (Impl.m_heads (rs_tree s)) index_to_heads with
          | None => ((s, cl_centroids), OutOfBounds)
          | Some head0 =>
              let head := Head.transform (Head.add_tail head0 (-1) (-1)) in
              let s := rs_set_head index_to_heads head s in
              let startpoint := Head.junction_point head in
              let endpoint := set_z startpoint 0 in
              let cs := Pillar.make index_to_heads head endpoint
                                    (pillar_radius_mm cfg) in
              let cs := Pillar.add_base cs (base_height_mm cfg)
                                        (base_radius_mm cfg) in
              let s := rs_add_pillar cs s in
              let cl := erase cidx cl in
              let '(s, o) :=
                for_each (route_sidehead (Head.junction_point head))
                         (map (fun c => nth c gndidx 0%nat) cl) s in
              ((s, cl_centroids), o)
          end
      end
  end.
End RoutingGround.

Section RingWeaving.
Context `{Externals}.
Variable cfg : SupportConfig.
Variable head_pos : PointSet.
Variable gndidx : list nat.
Variable emesh : EigenMesh3D.

(** The first loop after the clusters: every junction of the tree goes
    into the index, at height 0, under its position in the tree. *)
Definition fill_index (junctions : list Junction.t) : SpatIndex.t :=
  fold_left
    (fun idx (ej : nat * Junction.t) =>
       let p := Junction.pos (snd ej) in
       SpatIndex.insert (mkVec3d (vx p) (vy p) 0) (fst ej) idx)
    (combine (seq 0 (length junctions)) junctions)
    SpatIndex.empty.

(** The [while] loop that weaves the bridges between [pillar] and
    [nextpillar]. *)
Fixpoint weave_loop (fuel : nat) (pillar nextpillar : Pillar.t)
    (pillar_dist nstartz : R) (sj ej : Vec3d) (chkd : Dist) (s : RState)
    : RState * Outcome :=
  match fuel with
  | O => (s, OutOfFuel)
  | S fuel' =>
      if Rltb (vz (Pillar.endpoint nextpillar)) (vz ej)
         && Rltb (vz (Pillar.endpoint pillar)) (vz sj)
      then
        let hbr := head_back_radius_mm cfg in
        let s :=
          if dist_geb chkd pillar_dist && Rltb (vz ej) nstartz then
            let s := rs_add_junction sj hbr s in
            let s := rs_add_junction ej hbr s in
            rs_add_bridge sj ej hbr (Pillar.r pillar) s
          else s in
        let '(sj, ej) := (ej, sj) in
        let ej := set_z ej (vz sj + pillar_dist * sin (- tilt cfg)) in
        let chkd := ray_mesh_intersect sj (normalized (vsub ej sj)) emesh in
        weave_loop fuel' pillar nextpillar pillar_dist nstartz sj ej chkd s
      else (s, Completed)
  end.

(** The body of the loop over the edges [(it, next)] of a ring. *)
Definition weave_edge (fuel : nat) (junction_index : SpatIndex.t)
    (s : RState) (edge : nat * nat) : RState * Outcome :=
  let '(it, next) := edge in
  let tree := rs_tree s in
  match nth_error (Impl.m_pillars tree) it,
        nth_error (Impl.m_pillars tree) next with
  | Some pillar, Some nextpillar =>
      let d := 2 * Pillar.r pillar in
      let p := Pillar.endpoint pillar in
      let pp := mkVec3d (vx p) (vy p) 0 in
      let juncs :=
        SpatIndex.query (fun se => Rltb (distance3 pp (fst se)) d)
                        junction_index in
      let s := mkRState tree (rs_log s ++ [EvQuery pp d juncs]) in
      let sj_opt :=
        match juncs with
        | [] =>
            option_map Head.junction_point
              (nth_error (Impl.m_heads tree) (Pillar.headref pillar))
        | se :: rest =>
            let juncit :=
              max_element_from
                (fun se1 se2 : SpatElement =>
                   Rltb (vz (fst se1)) (vz (fst se2))) se rest in
            option_map Junction.pos
              (nth_error (Impl.m_junctions tree) (snd juncit))
        end in
      match sj_opt,
            nth_error (Impl.m_heads tree) (Pillar.headref nextpillar) with
      | Some sj, Some nexthead =>
          let ej := Pillar.endpoint nextpillar in
          let pillar_dist := dist_xy sj ej in
          let ej := set_z ej (vz sj + pillar_dist * sin (- tilt cfg)) in
          let chkd :=
            ray_mesh_intersect sj (normalized (vsub ej sj)) emesh in
          let nstartz := vz (Head.junction_point nexthead) in
          weave_loop fuel pillar nextpillar pillar_dist nstartz sj ej chkd s
      | _, _ => (s, OutOfBounds)
      end
  | _, _ => (s, OutOfBounds)
  end.

(** The loop [while(!rem.empty())] over the rings. *)
Fixpoint weave_rings (fuel fuel_rings : nat) (junction_index : SpatIndex.t)
    (rem : ClusterEl) (s : RState) : RState * Outcome :=
  match rem with
  | [] => (s, Completed)
  | _ =>
      match fuel_rings with
      | O => (s, OutOfFuel)
      | S fuel_rings' =>
          let rem := sort rem in
          match pts_convex_hull fuel rem
                  (fun i => to_vec2 (gnd_head_pt head_pos gndidx i)) with
          | None => (s, OutOfFuel)
          | Some ring =>
              match for_each (weave_edge fuel junction_index)
                             (combine ring (tl ring)) s with
              | (s, Completed) =>
                  let sring := sort ring in
                  weave_rings fuel fuel_rings' junction_index
                              (set_difference rem sring) s
              | stopped => stopped
              end
          end
      end
  end.

(** [routing_ground_fn]; every loop that may not end gets [fuel]
    rounds. *)
Definition routing_ground_fn (fuel : nat) (gnd_clusters : ClusteredPoints)
    (res : Impl.t) : RState * Outcome :=
  match for_each (route_cluster cfg head_pos gndidx) gnd_clusters
                 (mkRState res [], []) with
  | ((s, cl_centroids), Completed) =>
      let junction_index := fill_index (Impl.m_junctions (rs_tree s)) in
      weave_rings fuel fuel junction_index cl_centroids s
  | ((s, _), stopped) => (s, stopped)
  end.
End RingWeaving.

(** ** The driving loop *)

Definition data_init (res : Impl.t) : Data :=
  mkData [] [] [] [] [] [] [] [] res.

(** The table [program]: the worker of each step.  Only the routing of the
    grounded heads has loops that may not end. *)
Definition program `{Externals} (fuel : nat) (cfg : SupportConfig)
    (points : PointSet) (mesh : EigenMesh3D) (step : Steps) (d : Data)
    : Data * list Event * Outcome :=
  match step with
  | FILTER => (filterfn cfg points mesh d, [], Completed)
  | PINHEADS => (pinheadfn cfg d, [], Completed)
  | CLASSIFY => (classifyfn cfg mesh d, [], Completed)
  | ROUTING_GROUND =>
      let '(s, o) :=
        routing_ground_fn cfg (head_positions d) (ground_heads d) mesh fuel
                          (ground_connectors d) (result d) in
      (with_result d (rs_tree s), rs_log s, o)
  | _ => (d, [], Completed)
  end.

(** How a call of [generate] ends: it returns ([aborted] is the value
    returned), it waits in [nextcmd] for a command that the controller
    never sends, or a stage does not end. *)
Inductive Generated :=
| Returned (aborted : bool) (d : Data) (sts : list Status) (log : list Event)
| Waiting (c : Control) (d : Data) (sts : list Status) (log : list Event)
| Stuck (o : Outcome) (d : Data) (sts : list Status) (log : list Event).

(** [while(pc < DONE || pc == HALT) { progress(); program[pc](); }]
    followed by [return pc == ABORT]; [cmds] are the commands that
    [ctl.nextcmd] returns, in order. *)
Fixpoint generate_loop `{Externals} (fuel : nat) (cfg : SupportConfig)
    (points : PointSet) (mesh : EigenMesh3D) (cmds : list Cmd)
    (c : Control) (d : Data) (sts : list Status) (log : list Event)
    : Generated :=
  if loop_cond (pc c) then
    match cmds with
    | [] => Waiting c d sts log
    | cmd :: rest =>
        let '(c', st) := progress cmd c in
        let sts' := match st with Some x => sts ++ [x] | None => sts end in
        match program fuel cfg points mesh (pc c') d with
        | (d', evs, Completed) =>
            generate_loop fuel cfg points mesh rest c' d' sts' (log ++ evs)
        | (d', evs, o) => Stuck o d' sts' (log ++ evs)
        end
    end
  else Returned (Steps_eqb (pc c) ABORT) d sts log.

(** [SLASupportTree::generate(model, cfg, ctl)] on the tree [m_impl]. *)
Definition generate `{Externals} (fuel : nat) (m_impl : Impl.t)
    (model : Model) (cfg : SupportConfig) (ctl : list Cmd) : Generated :=
  let points := read_rows (support_points model) in
  let mesh := to_eigenmesh model in
  generate_loop fuel cfg points mesh ctl control_init (data_init m_impl)
                [] [].

(** ** Publishing the tree *)

(** Modelled from the spec: [mesh(const Contour3D&)] (SLABoilerPlate.hpp)
    turns an indexed triangle list into a triangle mesh. *)
Definition mesh_of (c : Contour3D) : TriangleMesh :=
  map (fun f : Vec3crd =>
         let '(i, j, k) := f in
         (nth (Z.to_nat i) (points c) zero3,
          nth (Z.to_nat j) (points c) zero3,
          nth (Z.to_nat k) (points c) zero3))
      (indices c).

(** The volumes that the four loops of [add_sla_supports] add, in order. *)
Definition tree_volumes (stree : Impl.t) : list TriangleMesh :=
  flat_map (fun head => [mesh_of (Head.mesh head);
                         mesh_of (Tail.mesh (Head.tail head))])
           (Impl.m_heads stree)
  ++ flat_map (fun stick => [mesh_of (Pillar.mesh stick);
                             mesh_of (Pillar.base stick)])
              (Impl.m_pillars stree)
  ++ map (fun j => mesh_of (Junction.mesh j)) (Impl.m_junctions stree)
  ++ map (fun bs => mesh_of (Bridge.mesh bs)) (Impl.m_bridges stree).

Definition identity_instance : ModelInstance := mkModelInstance (fun v => v).

(** [add_sla_supports(model, cfg, ctl)]: the model it leaves, when
    [generate] returns. *)
Definition add_sla_supports `{Externals} (fuel : nat) (model : Model)
    (cfg : SupportConfig) (ctl : list Cmd) : option Model :=
  match generate fuel Impl.empty model cfg ctl with
  | Returned _ d _ _ =>
      let o := mkModelObject (tree_volumes (result d)) [identity_instance] [] in
      Some (mkModel (objects model ++ [o]))
  | _ => None
  end.

(** ** Scenes *)

(** The scenes on which the properties below are evaluated. *)

(** The scenes need no particular tessellation: every sphere and every
    pinhead is one triangle. *)
Definition token_contour : Contour3D :=
  mkContour3D [mkVec3d 0 0 0; mkVec3d 1 0 0; mkVec3d 0 1 0] [(0, 1, 2)%Z].

(** An overhang: every face looks straight down, no ray ever hits the
    mesh, and no two support points are close enough to be aliases or to
    share a pillar. *)
Definition overhang : Externals := {|
  sphere := fun _ _ _ => token_contour;
  pinhead := fun _ _ _ _ => token_contour;
  ray_mesh_intersect := fun _ _ _ => NoHit;
  normals := fun pts _ => map (fun _ => mkVec3d 0 0 (-1)) pts;
  cluster := fun pts _ _ => map (fun i => [i]) (seq 0 (length pts));
  svd_axis := fun _ _ => mkVec3d 1 0 0;
  unassigned_row := zero3
|}.

(** The configuration of scenario S2 of the specification, with a pin
    radius of a quarter. *)
Definition standard_cfg : SupportConfig :=
  mkSupportConfig (/ 4) (/ 2) 1 (3 / 10) 1 1 (PI / 4) 1.

Definition shifted_instance : ModelInstance :=
  mkModelInstance (fun v => vadd v (mkVec3d 1 0 0)).

(** One object with one support point, placed twice. *)
Definition two_instances_model : Model :=
  mkModel [mkModelObject [] [identity_instance; shifted_instance] [zero3]].

(** One downward facing triangle at height 10 with a support point under
    it. *)
Definition one_point_model : Model :=
  mkModel
    [mkModelObject
       [[(mkVec3d (-1) (-1) 10, mkVec3d 0 1 10, mkVec3d 1 (-1) 10)]]
       [identity_instance] [mkVec3d 0 0 10]].

(** A shelf: the part has a floor at height 4 below its overhang, so a ray
    cast straight down from height [z] hits after [z - 4]. *)
Definition shelf : Externals := {|
  sphere := fun _ _ _ => token_contour;
  pinhead := fun _ _ _ _ => token_contour;
  ray_mesh_intersect := fun s _ _ => Hit (vz s - 4);
  normals := fun pts _ => map (fun _ => mkVec3d 0 0 (-1)) pts;
  cluster := fun pts _ _ => map (fun i => [i]) (seq 0 (length pts));
  svd_axis := fun _ _ => mkVec3d 1 0 0;
  unassigned_row := zero3
|}.

(** The state after [PINHEADS] for one support point at [(0, 0, 10)] on a
    face that looks straight down. *)
Definition one_head_data `{Externals} : Data :=
  mkData [mkVec3d 0 0 10] [mkVec3d 0 0 (-1)] [mkVec3d 0 0 10] []
         [] [] [] []
         (Impl.add_head
            (Head.make (/ 2) (/ 4) 1 (mkVec3d 0 0 (-1)) (mkVec3d 0 0 10) 45)
            Impl.empty).

(** The cast of the first loop of [classifyfn] for the head [h]. *)
Definition head_cast `{Externals} (mesh : EigenMesh3D) (h : Head.t) : Dist :=
  ray_mesh_intersect (Head.junction_point h) down mesh.

(** A fin: the support point [(0, 0, 0)] sits on a wall that faces [+x];
    a thin fin sticks out of the wall just below it.  A ray that starts
    above the fin and runs down and outward is stopped by the fin after a
    twentieth; a ray that starts below it runs free. *)
Definition fin : Externals := {|
  sphere := fun _ _ _ => token_contour;
  pinhead := fun _ _ _ _ => token_contour;
  ray_mesh_intersect :=
    fun s _ _ => if Rlt_dec (vz s) (- / 25) then NoHit else Hit (/ 20);
  normals := fun pts _ => map (fun _ => mkVec3d 1 0 0) pts;
  cluster := fun pts _ _ => map (fun i => [i]) (seq 0 (length pts));
  svd_axis := fun _ _ => mkVec3d 1 0 0;
  unassigned_row := zero3
|}.

(** The rows that a verdict of the filter adds to [head_pos], [filt_norm]
    and [headless_pos]. *)
Definition verdict_head (v : FilterVerdict) : list Vec3d :=
  match v with ToHead hp _ => [hp] | _ => [] end.
Definition verdict_normal (v : FilterVerdict) : list Vec3d :=
  match v with ToHead _ nn => [nn] | _ => [] end.
Definition verdict_headless (v : FilterVerdict) : list Vec3d :=
  match v with ToHeadless hp => [hp] | _ => [] end.

(** The verdicts of the filter on the kept points, in order. *)
Definition filter_verdicts `{Externals} (cfg : SupportConfig)
    (mesh : EigenMesh3D) (filt_pts nmls : PointSet) : list FilterVerdict :=
  map (fun i => filter_point cfg mesh (nth i filt_pts unassigned_row)
                             (nth i nmls unassigned_row))
      (seq 0 (length filt_pts)).

(** The width [w] that the filter requires twice in front of a point. *)
Definition head_room (cfg : SupportConfig) : R :=
  head_width_mm cfg + head_back_radius_mm cfg + 2 * head_front_radius_mm cfg.

(** The axis of the local frame of [cylinder]. *)
Definition ez : Vec3d := mkVec3d 0 0 1.

(** A vertex on the side of a cylinder of radius [r] and height [h] around
    the z axis: at distance [r] from the axis, on the bottom or on the
    top. *)
Definition on_cylinder_rim (r h : R) (p : Vec3d) : Prop :=
  vx p * vx p + vy p * vy p = r * r /\ (vz p = 0 \/ vz p = h).

(** ** Sums of distances *)

(** The sum of [f i] over [i < n]. *)
Fixpoint sum_below (n : nat) (f : nat -> R) : R :=
  match n with
  | O => 0
  | S n' => sum_below n' f + f n'
  end.

(** The exact sum of the distances from the member [k] of a cluster to all
    its other members. *)
Definition dist_sum {P} (clust : ClusterEl) (pointfn : nat -> P)
    (df : P -> P -> R) (k : nat) : R :=
  sum_below (length clust)
    (fun j => if Nat.eqb j k then 0
              else df (pointfn (nth k clust 0%nat))
                      (pointfn (nth j clust 0%nat))).

(** The bitmask with [a] clear bits, a set bit, [b] clear bits, a set bit
    and [c] clear bits: it selects the members [a] and [a + b + 1]. *)
Definition mask (a b c : nat) : list bool :=
  repeat false a ++ true :: repeat false b ++ true :: repeat false c.

(** The pairs that the loop of [cluster_centroid] selects while the first
    set bit stays at [a], from [(a, a + b + 1)] down to [(a, a + 1)]. *)
Fixpoint pair_row (a b : nat) : list (nat * nat) :=
  match b with
  | O => [(a, a + 1)%nat]
  | S b' => (a, a + b + 1)%nat :: pair_row a b'
  end.

(** The pairs it selects afterwards, in a cluster of [n] members: the rows
    of the first set bit at [a - 1], ..., [0]. *)
Fixpoint pair_rows (n a : nat) : list (nat * nat) :=
  match a with
  | O => []
  | S a' => pair_row a' (n - 2 - a') ++ pair_rows n a'
  end.

Section AccumulatedSums.
Context {D : Type} {arith : DoubleArith D} {P : Type}.

(** What a round that selects the pair [(i, j)] does to the sums. *)
Definition add_pair (d : nat -> nat -> D) (avgs : list D) (pr : nat * nat)
    : list D :=
  add_at (snd pr) (d (fst pr) (snd pr))
         (add_at (fst pr) (d (fst pr) (snd pr)) avgs).

(** What the pair [pr] adds to the sum of the member [k], in order. *)
Definition contribs (d : nat -> nat -> D) (k : nat) (pr : nat * nat)
    : list D :=
  (if Nat.eqb k (fst pr) then [d (fst pr) (snd pr)] else [])
  ++ (if Nat.eqb k (snd pr) then [d (fst pr) (snd pr)] else []).

Variable clust : ClusterEl.
Variable pointfn : nat -> P.
Variable df : P -> P -> D.

(** The distance that [cluster_centroid] computes for the members [i] and
    [j] of the cluster, in this order of the arguments of [df]. *)
Definition member_dist (i j : nat) : D :=
  df (pointfn (nth i clust 0%nat)) (pointfn (nth j clust 0%nat)).

(** The distance that the loop adds to the sum of the member [k] for its
    pair with the member [j]: [df] gets the member of the lower index
    first. *)
Definition pair_dist (k j : nat) : D :=
  if Nat.ltb j k then member_dist j k else member_dist k j.

(** The other members of a cluster of [n] members, in the order in which
    the loop pairs the member [k] with them: [n - 1] down to [k + 1], then
    [k - 1] down to [0]. *)
Definition visit_order (n k : nat) : list nat :=
  rev (seq (S k) (n - 1 - k)) ++ rev (seq 0 k).

(** The sum that the loop accumulates for the member [k]:
    [((0 + d1) + d2) + ...] over the distances in the order of the
    visits. *)
Definition acc_sum (k : nat) : D :=
  fold_left d_add (map (pair_dist k) (visit_order (length clust) k)) d_zero.

(** The average of the member [k] that [std::min_element] compares. *)
Definition acc_avg (k : nat) : D := d_div_size (acc_sum k) (length clust).
End AccumulatedSums.

(** [ltb] orders the elements of [l]: on them it is a strict weak order
    (irreflexive, transitive, and what is below one of two elements that
    are in order is below the upper or above the lower).  The comparison of
    doubles orders every list that holds no NaN. *)
Definition strict_weak_on {D} (ltb : D -> D -> bool) (l : list D) : Prop :=
  forall x y z, In x l -> In y l -> In z l ->
    ltb x x = false
    /\ (ltb x y = true -> ltb y z = true -> ltb x z = true)
    /\ (ltb x y = true -> ltb x z = true \/ ltb z y = true).

(** Four heads on a line in binary64, at [x = 4.2], [2.813],
    [1.3930000000000002] and [0], and the distance in the plane that
    [routing_ground_fn] hands to [cluster_centroid]:
    [sqrt(dx * dx + dy * dy)]. *)
Module TieScene.
Import PrimFloat.
Local Open Scope float_scope.

Definition xs : list float :=
  [0x1.0cccccccccccdp+2; 0x1.6810624dd2f1bp+1; 0x1.649ba5e353f7ep+0; 0].

Definition pointfn (i : nat) : float * float * float :=
  (nth i xs 0, 0, 10).

Definition dist_xy (p1 p2 : float * float * float) : float :=
  let '(x1, y1, _) := p1 in
  let '(x2, y2, _) := p2 in
  sqrt ((x2 - x1) * (x2 - x1) + (y2 - y1) * (y2 - y1)).
End TieScene.

(** The number of volumes that publishing a tree adds. *)
Definition volume_count (stree : Impl.t) : nat :=
  (2 * length (Impl.m_heads stree) + 2 * length (Impl.m_pillars stree)
   + length (Impl.m_junctions stree) + length (Impl.m_bridges stree))%nat.

(** A spike: two support points two millimetres apart under a flat
    overhang at height 10, and between them a spike that hangs down from
    the overhang.  Vertical rays and rays that lean towards [+x] run free;
    a ray that leans towards [-x], like the one from the junction under the
    second point to the pillar of the first, meets the spike after half a
    millimetre.  The two points are no aliases of each other but share a
    pillar. *)
Definition spike : Externals := {|
  sphere := fun _ _ _ => token_contour;
  pinhead := fun _ _ _ _ => token_contour;
  ray_mesh_intersect :=
    fun _ dir _ => if Rlt_dec (vx dir) 0 then Hit (/ 2) else NoHit;
  normals := fun pts _ => map (fun _ => down) pts;
  cluster :=
    fun pts _ max_points =>
      if Nat.eqb max_points 2 then map (fun i => [i]) (seq 0 (length pts))
      else [seq 0 (length pts)];
  svd_axis := fun _ _ => mkVec3d 1 0 0;
  unassigned_row := zero3
|}.

(** The standard configuration with a tilt of 30 degrees. *)
Definition tilt30_cfg : SupportConfig :=
  mkSupportConfig (/ 4) (/ 2) 1 (3 / 10) 1 1 (PI / 6) 1.

Definition overhang_facet : stl_facet :=
  (mkVec3d (-100) (-100) 10, mkVec3d 0 100 10, mkVec3d 100 (-100) 10).

(** Two support points two millimetres apart under the overhang. *)
Definition two_point_model : Model :=
  mkModel
    [mkModelObject [[overhang_facet]] [identity_instance]
                   [mkVec3d 0 0 10; mkVec3d 2 0 10]].

(** Three support points in a row, ten millimetres apart. *)
Definition three_point_model : Model :=
  mkModel
    [mkModelObject [[overhang_facet]] [identity_instance]
                   [mkVec3d 0 0 10; mkVec3d 10 0 10; mkVec3d 20 0 10]].

(** The commands of an undisturbed run. *)
Definition run_through : list Cmd := repeat START_RESUME 7.

(** The anchor of a side head on its own pillar and the point where its
    bridge lands on the main pillar, whose head has the junction point
    [jh]. *)
Definition side_anchor (sidehead : Head.t) : Vec3d :=
  set_z (Head.junction_point sidehead)
        (vz (Head.junction_point sidehead) - Head.fullwidth sidehead).
Definition side_landing (cfg : SupportConfig) (sidehead : Head.t)
    (jh : Vec3d) : Vec3d :=
  let jp := side_anchor sidehead in
  mkVec3d (vx jh) (vy jh) (vz jp + dist_xy jp jh * sin (- tilt cfg)).

(** ** Properties of the log of the routing *)

(** The test under which the index is queried for the junctions of a
    pillar at [pp], of radius [d / 2]. *)
Definition near_pillar (pp : Vec3d) (d : R) (se : SpatElement) : bool :=
  Rltb (distance3 pp (fst se)) d.

(** An event of the weaving that is consistent with an index [idx] that
    never changes and with the clearance test of the weaving: a query
    returns the elements of [idx] near the pillar, a junction gets an id
    that no element of [idx] has, and the ray along a bridge does not meet
    the mesh before the plane distance of its ends. *)
Definition weave_event_ok `{Externals} (emesh : EigenMesh3D)
    (idx : SpatIndex.t) (n0 : nat) (ev : Event) : Prop :=
  match ev with
  | EvQuery pp d juncs => juncs = SpatIndex.query (near_pillar pp d) idx
  | EvJunction id _ => (n0 <= id)%nat
  | EvBridge a b _ =>
      dist_geb (ray_mesh_intersect a (normalized (vsub b a)) emesh)
               (dist_xy a b) = true
  end.

(** The reading of the claim on the index: whenever the index is queried
    for a pillar, every junction created before, whose place in the index
    is near the pillar, is among the results. *)
Definition queries_see_created_junctions (log : list Event) : Prop :=
  forall pre post pp d juncs,
    log = pre ++ EvQuery pp d juncs :: post ->
    forall id pos,
      In (EvJunction id pos) pre ->
      near_pillar pp d (mkVec3d (vx pos) (vy pos) 0, id) = true ->
      In id (map snd juncs).

Definition is_query (ev : Event) : bool :=
  match ev with EvQuery _ _ _ => true | _ => false end.

(** The head that [PINHEADS] makes in the scene [overhang] for a support
    point at [(x, 0, 10)], as the routing leaves it, and its pillar to the
    ground. *)
Definition row_head (x : R) : Head.t :=
  Head.make (H := overhang) (/ 2) (/ 4) 1 down (mkVec3d x 0 10) 45.
Definition row_head_routed (x : R) : Head.t :=
  Head.transform (H := overhang) (Head.add_tail (row_head x) (-1) (-1)).
Definition row_pillar (i : nat) (x : R) : Pillar.t :=
  Pillar.add_base
    (Pillar.make i (row_head_routed x)
       (set_z (Head.junction_point (row_head_routed x)) 0) (3 / 10))
    1 1.

(** The log of the routing of three pillars in a row. *)
Definition row_log : list Event :=
  [EvQuery (mkVec3d 0 0 0) (3 / 5) [];
   EvJunction 0 (mkVec3d 0 0 8);
   EvJunction 1 (mkVec3d 10 0 3);
   EvBridge (mkVec3d 0 0 8) (mkVec3d 10 0 3) (3 / 10);
   EvQuery (mkVec3d 10 0 0) (3 / 5) [];
   EvJunction 2 (mkVec3d 10 0 8);
   EvJunction 3 (mkVec3d 20 0 3);
   EvBridge (mkVec3d 10 0 8) (mkVec3d 20 0 3) (3 / 10)].

(** Six heads in a row, ten millimetres apart, in three clusters of two
    heads 30 millimetres apart, each with the far head first; and the tree
    after the loop over the clusters, with the pillars in the order of the
    clusters. *)
Definition six_row_xs : list R := [0; 10; 20; 30; 40; 50].
Definition six_row_pos : PointSet := map (fun x => mkVec3d x 0 10) six_row_xs.
Definition six_row_tree : Impl.t :=
  Impl.mk (map row_head six_row_xs) [] [] [].
Definition six_row_clusters : ClusteredPoints :=
  [[3; 0]; [4; 1]; [5; 2]]%nat.
Definition six_row_routed : RState :=
  mkRState
    (Impl.mk (map row_head_routed six_row_xs)
       [row_pillar 3 30; row_pillar 0 0; row_pillar 4 40; row_pillar 1 10;
        row_pillar 5 50; row_pillar 2 20]
       [] [])
    [].

(** ** Well-formed meshes *)

(** A facet whose three indices are vertices of a mesh of [n] points. *)
Definition facet_in_range (n : nat) (f : Vec3crd) : Prop :=
  let '(i, j, k) := f in
  (0 <= i < Z.of_nat n)%Z /\ (0 <= j < Z.of_nat n)%Z
  /\ (0 <= k < Z.of_nat n)%Z.

(** An indexed triangle list all of whose facets refer to its own
    points. *)
Definition indices_in_range (c : Contour3D) : Prop :=
  Forall (facet_in_range (length (points c))) (indices c).

(** A point of the horizontal circle of radius [r] around [(cx, cy)] at
    height [z]. *)
Definition on_ring (cx cy r z : R) (p : Vec3d) : Prop :=
  (vx p - cx) * (vx p - cx) + (vy p - cy) * (vy p - cy) = r * r
  /\ vz p = z.

(** ** Meshes for the interrogator *)

(** [to_eigenmesh(const Contour3D&)]: [V] gets one row per point and [F]
    one row per facet, and a single loop over the rows of [V] assigns both
    [V.row(i)] and [F.row(i)].  A row that is never assigned is [None]; the
    result is [None] when the loop reads [cntr.indices[i]] past the end of
    the facet list (where it also writes past the last row of [F]). *)
Definition to_eigenmesh_contour (cntr : Contour3D)
    : option (list (option Vec3d) * list (option Vec3crd)) :=
  fold_left
    (fun acc i =>
       match acc with
       | None => None
       | Some (Vm, Fm) =>
           match nth_error (points cntr) i, nth_error (indices cntr) i with
           | Some p, Some f => Some (set_nth i (Some p) Vm, set_nth i (Some f) Fm)
           | _, _ => None
           end
       end)
    (seq 0 (length (points cntr)))
    (Some (repeat None (length (points cntr)),
           repeat None (length (indices cntr)))).

(** ** The rows of [support_points] *)

(** The passes of the two outer loops of [support_points], in order: one
    per instance of every object, with the support points of the object. *)
Definition point_passes (model : Model)
    : list (ModelInstance * list Vec3d) :=
  flat_map (fun o => map (fun inst => (inst, sla_support_points o))
                         (instances o))
           (objects model).

(** The last pass that has a point number [k]. *)
Fixpoint last_pass (k : nat) (passes : list (ModelInstance * list Vec3d))
    : option (ModelInstance * list Vec3d) :=
  match passes with
  | [] => None
  | w :: rest =>
      match last_pass k rest with
      | Some x => Some x
      | None => if Nat.ltb k (length (snd w)) then Some w else None
      end
  end.

(** ** Degenerate hulls *)

(** Points that all lie on one line [a * x + b * y = c]. *)
Definition collinear (pts : list Vec2d) : Prop :=
  exists a b c : R,
    (a <> 0 \/ b <> 0)
    /\ Forall (fun v => a * ux v + b * uy v = c) pts.

(** The positions [l], [l + 1], ... of a list of [n] elements, taken
    around the list once. *)
Definition cycle_from (l n : nat) : list nat :=
  map (fun k => ((l + k) mod n)%nat) (seq 0 n).

(** ** The tessellation of a sphere *)

(** The largest [size_t]: what [send - 1] is when [send] is 0. *)
Definition SIZE_MAX : nat := Z.to_nat (2 ^ 64 - 1).

(** The mesh under construction and the running vertex index [id]. *)
Record SphereAcc := mkSphereAcc { sph_mesh : Contour3D; sph_id : Z }.

(** The vertex of the ring of radius [r] at height [z] under the angle
    [a]: [Eigen::Rotation2Dd(a) * Eigen::Vector2d(0, r)] with [z]. *)
Definition sphere_vertex (r z a : R) : Vec3d :=
  let b := rot2d_0r a r in mkVec3d (ux b) (uy b) z.

(** A loop over the ring that stores one vertex per round, then the
    facets [facets id i] of the round, and increments [id]. *)
Definition ring_fold (vertex : R -> Vec3d)
    (facets : Z -> nat -> list Vec3crd) (ring : list R) (acc : SphereAcc)
    : SphereAcc :=
  fold_left
    (fun acc (ia : nat * R) =>
       let '(i, a) := ia in
       mkSphereAcc
         (mkContour3D (points (sph_mesh acc) ++ [vertex a])
                      (indices (sph_mesh acc) ++ facets (sph_id acc) i))
         (sph_id acc + 1)%Z)
    (combine (seq 0 (length ring)) ring) acc.

Module Mesh.
(** [sphere(rho, portion, fa)]; [abs] is the absolute value of a double.
    The step angle, the ring of angles and the step numbers [sbegin] and
    [send] computed from them are doubles in binary64; the loop over the
    ring angles runs on fuel as in [cylinder]. *)
Definition sphere (rho : R) (portion : Portion) (fa : Double.t) : Contour3D :=
  if Rleb rho (/ 1000000) && Rleb (- / 1000000) rho then empty_contour
  else
    let angle := Double.step_angle fa in
    let ring := map Double.to_R (Double.ring fa) in
    let sbegin := Double.portion_step (fst portion) angle in
    let send := Double.portion_step (snd portion) angle in
    let steps := length ring in
    let increment := 1 / INR steps in
    (* special case: first ring connects to 0,0,0 *)
    let c0 :=
      if Nat.eqb sbegin 0 then
        mkContour3D
          [mkVec3d 0 0 (- rho + increment * INR sbegin * 2 * rho)] []
      else empty_contour in
    let acc0 := mkSphereAcc c0 (Z.of_nat (length (points c0))) in
    let z1 := - rho + increment * rho * 2 * (INR sbegin + 1) in
    let r1 := sqrt (Rabs (rho * rho - z1 * z1)) in
    let acc1 :=
      ring_fold (sphere_vertex r1 z1)
        (fun id i =>
           if Nat.eqb sbegin 0 then
             [ if Nat.eqb i 0 then (Z.of_nat steps, 0, 1)
               else (id - 1, 0, id) ]%Z
           else [])
        ring acc0 in
    (* general case: each step is joined to the ring below it *)
    let upper := if Nat.eqb send 0 then SIZE_MAX else (send - 1)%nat in
    let acc2 :=
      fold_left
        (fun acc s =>
           let z := - rho + increment * INR s * 2 * rho in
           let r := sqrt (Rabs (rho * rho - z * z)) in
           ring_fold (sphere_vertex r z)
             (fun id i =>
                let id_ringsize := (id - Z.of_nat steps)%Z in
                if Nat.eqb i 0 then
                  [ (id - 1, id, id + (Z.of_nat steps - 1));
                    (id - 1, id_ringsize, id) ]%Z
                else
                  [ (id_ringsize - 1, id_ringsize, id);
                    (id - 1, id_ringsize - 1, id) ]%Z)
             ring acc)
        (seq (sbegin + 2) (upper - (sbegin + 2))) acc1 in
    (* special case: last ring connects to 0,0,rho*2.0 *)
    if Nat.leb (Double.portion_step Double.PI angle) send then
      let id := sph_id acc2 in
      let id_ringsize := (id - Z.of_nat steps)%Z in
      mkContour3D
        (points (sph_mesh acc2)
         ++ [mkVec3d 0 0 (- rho + increment * INR send * 2 * rho)])
        (indices (sph_mesh acc2)
         ++ map (fun i : nat =>
                   if Nat.eqb i 0 then (id - 1, id_ringsize, id)%Z
                   else
                     let ci := (id_ringsize + Z.of_nat i)%Z in
                     (ci - 1, ci, id)%Z)
                (seq 0 steps))
    else sph_mesh acc2.
End Mesh.

(** The numbers that [sphere] computes in binary64 from the step angle
    [fa] and the portion: the size of the ring, the first and the last step
    of the portion, and [size_t(2*PI / angle)], the last step from which on
    the top pole is added. *)
Definition sphere_steps (fa : Double.t) : nat := length (Double.ring fa).
Definition sphere_sbegin (portion : Portion) (fa : Double.t) : nat :=
  Double.portion_step (fst portion) (Double.step_angle fa).
Definition sphere_send (portion : Portion) (fa : Double.t) : nat :=
  Double.portion_step (snd portion) (Double.step_angle fa).
Definition sphere_top (fa : Double.t) : nat :=
  Double.portion_step Double.PI (Double.step_angle fa).

(** The sphere of a junction of [stepnum] steps gets the step numbers of
    exact arithmetic: the loop over the ring ends after [stepnum] rounds,
    and the portion [(0, PI)] runs from the step 0 to the step [stepnum],
    which is the top. *)
Definition regular_steps (stepnum : nat) : bool :=
  let fa := Double.circle_over stepnum in
  let portion := make_portion Double.zero Double.PI in
  Nat.eqb (sphere_steps fa) stepnum
  && Nat.ltb stepnum (Double.ring_fuel fa)
  && Nat.eqb (sphere_sbegin portion fa) 0
  && Nat.eqb (sphere_send portion fa) stepnum
  && Nat.eqb (sphere_top fa) stepnum.

(** The scene [overhang] with the spheres tessellated as the source does
    it. *)
Definition overhang_spheres : Externals := {|
  sphere := Mesh.sphere;
  pinhead := fun _ _ _ _ => token_contour;
  ray_mesh_intersect := fun _ _ _ => NoHit;
  normals := fun pts _ => map (fun _ => mkVec3d 0 0 (-1)) pts;
  cluster := fun pts _ _ => map (fun i => [i]) (seq 0 (length pts));
  svd_axis := fun _ _ => mkVec3d 1 0 0;
  unassigned_row := zero3
|}.

(* ================================================================== *)
(** * Part II: properties                                              *)
(* ================================================================== *)

(** ** The control step *)

Lemma Steps_eqb_eq (a b : Steps) : Steps_eqb a b = true <-> a = b.
Proof.
  unfold Steps_eqb; rewrite Nat.eqb_eq; split; [ | now intros -> ].
  destruct a, b; simpl; intros E; try reflexivity; discriminate E.
Qed.

Lemma loop_cond_spec (s : Steps) :
  loop_cond s = true <-> (step_index s < step_index DONE)%nat \/ s = HALT.
Proof.
  unfold loop_cond; rewrite orb_true_iff, Nat.ltb_lt, Steps_eqb_eq.
  reflexivity.
Qed.

(** C2, as the claim states its reporting clause: every transition would
    report the percentage of the state it enters.  A [SYNCH] received in
    [FILTER] moves to [BEGIN] and makes no status callback at all. *)
Lemma progress_synch_no_report :
  progress SYNCH (mkControl FILTER BEGIN) = (mkControl BEGIN BEGIN, None)
  /\ ~ (forall cmd c, exists label,
           snd (progress cmd c)
           = Some (stepstate (pc (fst (progress cmd c))), label)).
Proof.
  split; [ reflexivity | ].
  intros Hall.
  destruct (Hall SYNCH (mkControl FILTER BEGIN)) as [label Hl].
  discriminate Hl.
Qed.

Section ControlStep.
Context `{Externals}.
Variables (fuel : nat) (cfg : SupportConfig) (points : PointSet)
          (mesh : EigenMesh3D).

(** C2, amended: [START_RESUME] advances one step along [BEGIN], ...,
    [DONE] and from [HALT] returns to the state saved by the last
    [PAUSE]; [PAUSE] saves the state and moves to [HALT]; [STOP] moves to
    [ABORT] and [SYNCH] to [BEGIN] from every state; a transition made
    under [START_RESUME], [PAUSE] or [STOP] reports the percentage of
    the state it enters, which is 0, 10, 30, 50, 60, 70, 80, 100 for
    [BEGIN] through [DONE] and 0 for [HALT] and [ABORT], while [SYNCH]
    reports nothing; and the driving loop runs another round exactly
    while the state is below [DONE] or equals [HALT], and returns
    otherwise. *)
Theorem control_step :
  (forall prev,
      map (fun s => pc (fst (progress START_RESUME (mkControl s prev))))
          [BEGIN; FILTER; PINHEADS; CLASSIFY; ROUTING_GROUND;
           ROUTING_NONGROUND; HEADLESS]
      = [FILTER; PINHEADS; CLASSIFY; ROUTING_GROUND; ROUTING_NONGROUND;
         HEADLESS; DONE])
  /\ (forall prev,
         fst (progress START_RESUME (mkControl HALT prev))
         = mkControl prev prev)
  /\ (forall c, fst (progress PAUSE c) = mkControl HALT (pc c))
  /\ (forall c, pc (fst (progress STOP c)) = ABORT)
  /\ (forall c, pc (fst (progress SYNCH c)) = BEGIN)
  /\ (forall cmd c,
         cmd <> SYNCH ->
         snd (progress cmd c)
         = Some (stepstate (pc (fst (progress cmd c))),
                 stepstr (pc (fst (progress cmd c)))))
  /\ (forall c, snd (progress SYNCH c) = None)
  /\ map stepstate [BEGIN; FILTER; PINHEADS; CLASSIFY; ROUTING_GROUND;
                    ROUTING_NONGROUND; HEADLESS; DONE; HALT; ABORT]
     = [0; 10; 30; 50; 60; 70; 80; 100; 0; 0]%nat
  /\ (forall s,
         loop_cond s = true
         <-> (step_index s < step_index DONE)%nat \/ s = HALT)
  /\ (forall cmds c d sts log,
         loop_cond (pc c) = false ->
         generate_loop fuel cfg points mesh cmds c d sts log
         = Returned (Steps_eqb (pc c) ABORT) d sts log)
  /\ (forall cmd rest c d sts log,
         loop_cond (pc c) = true ->
         exists c' d' sts' log',
           fst (progress cmd c) = c'
           /\ (generate_loop fuel cfg points mesh (cmd :: rest) c d sts log
               = generate_loop fuel cfg points mesh rest c' d' sts' log'
               \/ exists o,
                    o <> Completed
                    /\ generate_loop fuel cfg points mesh (cmd :: rest)
                                     c d sts log
                       = Stuck o d' sts' log')).
Proof.
  split; [ reflexivity | ].
  split; [ reflexivity | ].
  split; [ reflexivity | ].
  split; [ reflexivity | ].
  split; [ reflexivity | ].
  split; [ intros [] c Hc; try reflexivity; contradiction | ].
  split; [ reflexivity | ].
  split; [ reflexivity | ].
  split; [ apply loop_cond_spec | ].
  split.
  - intros cmds c d sts log Hc.
    destruct cmds; simpl; rewrite Hc; reflexivity.
  - intros cmd rest c d sts log Hc. simpl. rewrite Hc.
    destruct (progress cmd c) as [c' st] eqn:Hp.
    destruct (program fuel cfg points mesh (pc c') d) as [[d' evs] o]
      eqn:Hprog.
    exists c', d', (match st with Some x => sts ++ [x] | None => sts end),
      (log ++ evs).
    split; [ reflexivity | ].
    destruct o; [ left; reflexivity | right | right ].
    + exists OutOfFuel; split; [ discriminate | reflexivity ].
    + exists OutOfBounds; split; [ discriminate | reflexivity ].
Qed.
End ControlStep.

(** ** Support points *)

(** C1 at a model with one object, one support point and two instances:
    [support_points] sizes the result for two rows, but restarts its row
    counter for every instance, so the second instance overwrites row 0,
    row 1 is never assigned, and the point of the first instance is not
    in the result. *)
Theorem support_points_overwrites_rows :
  support_points two_instances_model
  = [Some (model_coord shifted_instance zero3); None]
  /\ ~ In (Some (model_coord identity_instance zero3))
          (support_points two_instances_model).
Proof.
  split; [ reflexivity | ].
  cbn. intros [E | [E | []]]; [ | discriminate E ].
  injection E as E1 _ _. lra.
Qed.

(** ** Heads *)

(** C10: [transform] changes nothing but the mesh of the head and
    [add_tail] nothing but its tail, so [tr], [dir], [r_back_mm],
    [r_pin_mm], [width_mm] and [steps], and with them [junction_point] and
    [fullwidth], are the same before and after both calls. *)
Theorem head_transform_add_tail_frame `{Externals}
    (h : Head.t) (length radius : R) :
  let ht := Head.transform h in
  let ha := Head.add_tail h length radius in
  (Head.tr ht, Head.dir ht, Head.r_back_mm ht, Head.r_pin_mm ht,
   Head.width_mm ht, Head.steps ht, Head.tail ht)
  = (Head.tr h, Head.dir h, Head.r_back_mm h, Head.r_pin_mm h,
     Head.width_mm h, Head.steps h, Head.tail h)
  /\ (Head.tr ha, Head.dir ha, Head.r_back_mm ha, Head.r_pin_mm ha,
      Head.width_mm ha, Head.steps ha, Head.mesh ha)
     = (Head.tr h, Head.dir h, Head.r_back_mm h, Head.r_pin_mm h,
        Head.width_mm h, Head.steps h, Head.mesh h)
  /\ Head.junction_point ht = Head.junction_point h
  /\ Head.fullwidth ht = Head.fullwidth h
  /\ Head.junction_point ha = Head.junction_point h
  /\ Head.fullwidth ha = Head.fullwidth h
  /\ Head.junction_point (Head.add_tail ht length radius)
     = Head.junction_point h
  /\ Head.fullwidth (Head.add_tail ht length radius) = Head.fullwidth h.
Proof. repeat split. Qed.

Lemma control_step_witness :
  snd (progress PAUSE control_init) = Some (stepstate HALT, stepstr HALT)
  /\ generate_loop (H := overhang) 0 standard_cfg [] (mkEigenMesh3D [] [])
       [START_RESUME] (mkControl ABORT FILTER) (data_init Impl.empty) [] []
     = Returned true (data_init Impl.empty) [] [].
Proof.
  destruct (control_step (H := overhang) 0 standard_cfg []
              (mkEigenMesh3D [] []))
    as (_ & _ & _ & _ & _ & Hrep & _ & _ & _ & Hret & _).
  split.
  - apply (Hrep PAUSE control_init). discriminate.
  - apply (Hret [START_RESUME] (mkControl ABORT FILTER)). reflexivity.
Defined.

(** ** Lists *)

Lemma nth_error_set_nth {A} (l : list A) (n m : nat) (x : A) :
  nth_error (set_nth n x l) m
  = if Nat.eqb m n then (if Nat.ltb n (length l) then Some x else None)
    else nth_error l m.
Proof.
  revert n m; induction l as [|y l IH]; intros [|n] [|m]; cbn;
    try reflexivity; try (now destruct (Nat.eqb m n)).
  rewrite IH. reflexivity.
Qed.

Lemma length_set_nth {A} (l : list A) (n : nat) (x : A) :
  length (set_nth n x l) = length l.
Proof.
  revert n; induction l as [|y l IH]; intros [|n]; cbn; auto.
Qed.

Lemma firstn_S_nth_error {A} (l : list A) (n : nat) (x : A) :
  nth_error l n = Some x -> firstn (S n) l = firstn n l ++ [x].
Proof.
  revert l; induction n as [|n IH]; intros [|y l] Hx; try discriminate.
  - cbn in *. injection Hx as ->. reflexivity.
  - cbn in *. f_equal. now apply IH.
Qed.

(** ** Classification *)

Section ClassifyStage.
Context `{Externals}.
Variables (cfg : SupportConfig) (mesh : EigenMesh3D).

(** The pillar of a head whose cast hit the mesh after [gh]. *)
Lemma classify_nonground_spec (idx : nat) (head : Head.t) (gh : R) :
  let jp := Head.junction_point head in
  let hl := 2 * Head.r_pin_mm head + Head.width_mm head
            + Head.r_back_mm head in
  let res := classify_nonground cfg idx head gh in
  fst res = Head.add_tail (Head.transform head) (-1) (-1)
  /\ Pillar.headref (snd res) = idx
  /\ Pillar.endpoint (snd res) = mkVec3d (vx jp) (vy jp) (vz jp - (gh - hl))
  /\ Pillar.base (snd res)
     = Head.mesh
         (Head.transform
            (Head.make (head_back_radius_mm cfg) (head_front_radius_mm cfg)
               (head_width_mm cfg) (mkVec3d 0 0 1)
               (mkVec3d (vx jp) (vy jp) (vz jp - (gh + Head.r_pin_mm head)))
               45)).
Proof.
  cbn -[Head.transform Head.make Head.add_tail Head.junction_point].
  repeat split.
  - f_equal. unfold Head.fullwidth; cbn. lra.
  - do 3 f_equal. cbn. f_equal; lra.
Qed.

Lemma classify_cast_fold (heads : list Head.t) (n : nat) :
  (n <= length heads)%nat ->
  fold_left (classify_cast mesh heads) (seq 0 n) ([], [], [])
  = (map (head_cast mesh) (firstn n heads),
     filter (fun j => match nth_error heads j with
                      | Some h => isinf (head_cast mesh h)
                      | None => false
                      end) (seq 0 n),
     filter (fun j => match nth_error heads j with
                      | Some h => negb (isinf (head_cast mesh h))
                      | None => false
                      end) (seq 0 n)).
Proof.
  induction n as [|n IH]; intros Hn; [ reflexivity | ].
  rewrite seq_S, fold_left_app, IH by lia. cbn [fold_left Nat.add].
  destruct (nth_error heads n) as [h|] eqn:Hh.
  2:{ apply nth_error_None in Hh. lia. }
  unfold classify_cast. rewrite Hh.
  rewrite !filter_app. cbn [filter]. rewrite Hh.
  fold (head_cast mesh h).
  rewrite (firstn_S_nth_error _ _ _ Hh), map_app. cbn [map].
  destruct (isinf (head_cast mesh h)); cbn; rewrite ?app_nil_r; reflexivity.
Qed.

Lemma classify_steps_fold (gh : list Dist) (l : list nat) :
  forall res : Impl.t,
    NoDup l ->
    let res' := fold_left (classify_step cfg gh) l res in
    (forall idx h g,
        In idx l ->
        nth_error (Impl.m_heads res) idx = Some h ->
        nth_error gh idx = Some (Hit g) ->
        nth_error (Impl.m_heads res') idx
        = Some (fst (classify_nonground cfg idx h g))
        /\ In (snd (classify_nonground cfg idx h g)) (Impl.m_pillars res'))
    /\ (forall idx,
           ~ In idx l ->
           nth_error (Impl.m_heads res') idx
           = nth_error (Impl.m_heads res) idx)
    /\ (forall p, In p (Impl.m_pillars res) -> In p (Impl.m_pillars res')).
Proof.
  induction l as [|a l IH]; intros res Hnd; cbn [fold_left].
  - split; [ intros idx h g [] | split; auto ].
  - inversion Hnd as [|? ? Ha Hl]; subst.
    destruct (IH (classify_step cfg gh res a) Hl) as (IH1 & IH2 & IH3).
    assert (Hother : forall idx, idx <> a ->
               nth_error (Impl.m_heads (classify_step cfg gh res a)) idx
               = nth_error (Impl.m_heads res) idx).
    { intros idx Hne. unfold classify_step.
      destruct (nth_error (Impl.m_heads res) a) as [h0|]; [ | reflexivity ].
      destruct (nth_error gh a) as [[g0|]|]; try reflexivity.
      destruct (classify_nonground cfg a h0 g0) as [hd cs]. cbn.
      rewrite nth_error_set_nth.
      apply Nat.eqb_neq in Hne. now rewrite Hne. }
    assert (Hpil : forall p, In p (Impl.m_pillars res) ->
               In p (Impl.m_pillars (classify_step cfg gh res a))).
    { intros p Hp. unfold classify_step.
      destruct (nth_error (Impl.m_heads res) a) as [h0|]; [ | exact Hp ].
      destruct (nth_error gh a) as [[g0|]|]; try exact Hp.
      destruct (classify_nonground cfg a h0 g0) as [hd cs]. cbn.
      apply in_or_app. now left. }
    split; [ | split ].
    + intros idx h g [<- | Hin] Hh Hg.
      * assert (Hstep : classify_step cfg gh res a
                        = Impl.add_pillar (snd (classify_nonground cfg a h g))
                            (Impl.set_head a
                               (fst (classify_nonground cfg a h g)) res)).
        { unfold classify_step. rewrite Hh, Hg.
          now destruct (classify_nonground cfg a h g). }
        split.
        -- rewrite (IH2 a Ha), Hstep. cbn.
           rewrite nth_error_set_nth, Nat.eqb_refl.
           assert (a < length (Impl.m_heads res))%nat
             by (apply nth_error_Some; congruence).
           apply Nat.ltb_lt in H0. now rewrite H0.
        -- apply IH3. rewrite Hstep. cbn. apply in_or_app. right. now left.
      * apply IH1; auto. rewrite Hother; auto. intros ->. contradiction.
    + intros idx Hni. rewrite IH2 by (intros Hin; apply Hni; now right).
      apply Hother. intros ->. apply Hni. now left.
    + intros p Hp. apply IH3, Hpil, Hp.
Qed.

(** C5, amended: in its first run on the heads that [PINHEADS] stored,
    [CLASSIFY] leaves every head whose downward cast hits the mesh after
    the finite distance [t] transformed and with a tail, and adds a
    pillar that refers to it and ends [t - (2 r_pin + width + r_back)]
    below the junction point of the head (that is [t] minus the full
    width of the head less its back radius, not [t - r_pin]); the base of
    the pillar is the mesh of a second, upward pointing head whose tip
    lies [t + r_pin] below the junction point. *)
Theorem classify_nonground_pillar (d : Data) (i : nat) (head : Head.t)
    (t : R) :
  head_heights d = [] -> ground_heads d = [] -> noground_heads d = [] ->
  (length (head_positions d) <= length (Impl.m_heads (result d)))%nat ->
  (i < length (head_positions d))%nat ->
  nth_error (Impl.m_heads (result d)) i = Some head ->
  head_cast mesh head = Hit t ->
  let d' := classifyfn cfg mesh d in
  let jp := Head.junction_point head in
  let hl := 2 * Head.r_pin_mm head + Head.width_mm head
            + Head.r_back_mm head in
  nth_error (Impl.m_heads (result d')) i
  = Some (Head.add_tail (Head.transform head) (-1) (-1))
  /\ exists cs,
       In cs (Impl.m_pillars (result d'))
       /\ Pillar.headref cs = i
       /\ Pillar.endpoint cs
          = mkVec3d (vx jp) (vy jp) (vz jp - (t - hl))
       /\ Pillar.base cs
          = Head.mesh
              (Head.transform
                 (Head.make (head_back_radius_mm cfg)
                    (head_front_radius_mm cfg) (head_width_mm cfg)
                    (mkVec3d 0 0 1)
                    (mkVec3d (vx jp) (vy jp)
                             (vz jp - (t + Head.r_pin_mm head)))
                    45)).
Proof.
  intros Hh Hg Hn Hlen Hi Hhead Hcast d' jp hl.
  subst d'. unfold classifyfn. rewrite Hh, Hg, Hn.
  rewrite (classify_cast_fold _ _ Hlen). cbn [result].
  set (heads := Impl.m_heads (result d)) in *.
  set (n := length (head_positions d)) in *.
  set (nog := filter _ (seq 0 n)).
  set (gh := map (head_cast mesh) (firstn n heads)).
  assert (Hnd : NoDup nog) by apply NoDup_filter, seq_NoDup.
  assert (Hin : In i nog).
  { apply filter_In. split; [ apply in_seq; lia | ].
    now rewrite Hhead, Hcast. }
  assert (Hgh : nth_error gh i = Some (Hit t)).
  { unfold gh. rewrite nth_error_map, nth_error_firstn.
    apply Nat.ltb_lt in Hi. rewrite Hi, Hhead. cbn. now rewrite Hcast. }
  destruct (classify_steps_fold gh nog (result d) Hnd) as (Hstep & _ & _).
  destruct (Hstep i head t Hin Hhead Hgh) as (Hhd & Hpil).
  destruct (classify_nonground_spec i head t) as (E1 & E2 & E3 & E4).
  split.
  - rewrite Hhd. now rewrite E1.
  - exists (snd (classify_nonground cfg i head t)).
    repeat split; assumption.
Qed.
End ClassifyStage.

(** The head of the scene [shelf]. *)
Lemma classify_nonground_pillar_witness :
  let head := Head.make (H := shelf) (/ 2) (/ 4) 1 down (mkVec3d 0 0 10) 45 in
  exists cs,
    In cs (Impl.m_pillars
             (result (classifyfn (H := shelf) standard_cfg
                        (mkEigenMesh3D [] []) (one_head_data (H := shelf)))))
    /\ Pillar.endpoint cs = mkVec3d 0 0 6.
Proof.
  intros head.
  destruct (classify_nonground_pillar (H := shelf) standard_cfg
              (mkEigenMesh3D [] []) (one_head_data (H := shelf)) 0 head 4)
    as (_ & cs & Hin & _ & Hend & _); try reflexivity.
  - cbn. lia.
  - unfold head_cast, head. cbn. f_equal. lra.
  - exists cs. split; [ exact Hin | ].
    rewrite Hend. unfold head. cbn. f_equal; lra.
Defined.

(** C5, as the claim states it: the pillar would end [t - r_pin] below the
    junction point.  In the scene [shelf] the junction point of the head is
    at height 8 and its cast hits after [t = 4]; the one pillar that
    [CLASSIFY] adds ends at height 6, not at [8 - (4 - 1/4)]. *)
Lemma classify_pillar_not_r_pin_below :
  let head := Head.make (H := shelf) (/ 2) (/ 4) 1 down (mkVec3d 0 0 10) 45 in
  let d' := classifyfn (H := shelf) standard_cfg (mkEigenMesh3D [] [])
              (one_head_data (H := shelf)) in
  head_cast (H := shelf) (mkEigenMesh3D [] []) head = Hit 4
  /\ vz (Head.junction_point head) = 8
  /\ map (fun cs => vz (Pillar.endpoint cs)) (Impl.m_pillars (result d'))
     = [8 - 4 + (2 * / 4 + 1 + 2 * / 2 - / 2)]
  /\ ~ (forall cs,
           In cs (Impl.m_pillars (result d')) ->
           vz (Pillar.endpoint cs)
           = vz (Head.junction_point head) - (4 - Head.r_pin_mm head)).
Proof.
  cbn zeta.
  assert (Hc : head_cast (H := shelf) (mkEigenMesh3D [] [])
                 (Head.make (H := shelf) (/ 2) (/ 4) 1 down (mkVec3d 0 0 10) 45)
               = Hit 4).
  { unfold head_cast. cbn. f_equal. lra. }
  split; [ exact Hc | ].
  split; [ cbn; lra | ].
  assert (Hp : map (fun cs => vz (Pillar.endpoint cs))
                 (Impl.m_pillars
                    (result (classifyfn (H := shelf) standard_cfg
                               (mkEigenMesh3D [] [])
                               (one_head_data (H := shelf)))))
               = [8 - 4 + (2 * / 4 + 1 + 2 * / 2 - / 2)]).
  { cbn. unfold Head.fullwidth. cbn. f_equal. lra. }
  split; [ exact Hp | ].
  intros Hall.
  destruct (Impl.m_pillars _) as [|cs [|]]; try discriminate Hp.
  injection Hp as Hz.
  specialize (Hall cs (or_introl eq_refl)).
  rewrite Hz in Hall. cbn in Hall. lra.
Qed.

(** ** Comparisons *)

Lemma Rltb_true (a b : R) : a < b -> Rltb a b = true.
Proof. unfold Rltb; destruct (Rlt_dec a b); [ reflexivity | contradiction ]. Qed.

Lemma Rltb_false (a b : R) : b <= a -> Rltb a b = false.
Proof. unfold Rltb; destruct (Rlt_dec a b); [ lra | reflexivity ]. Qed.

Lemma Rleb_true (a b : R) : a <= b -> Rleb a b = true.
Proof. unfold Rleb; destruct (Rle_dec a b); [ reflexivity | contradiction ]. Qed.

Lemma Rleb_false (a b : R) : b < a -> Rleb a b = false.
Proof. unfold Rleb; destruct (Rle_dec a b); [ lra | reflexivity ]. Qed.

Lemma Rltb_lt (a b : R) : Rltb a b = true <-> a < b.
Proof.
  unfold Rltb; destruct (Rlt_dec a b); split; auto; discriminate.
Qed.

Lemma Rleb_le (a b : R) : Rleb a b = true <-> a <= b.
Proof.
  unfold Rleb; destruct (Rle_dec a b); split; auto; discriminate.
Qed.

(** ** Filtering *)

Section Filter.
Context `{Externals}.
Variables (cfg : SupportConfig) (mesh : EigenMesh3D).

Lemma filter_loop_verdicts (filt_pts nmls : PointSet) :
  filter_loop cfg mesh filt_pts nmls
  = (flat_map verdict_head (filter_verdicts cfg mesh filt_pts nmls),
     flat_map verdict_normal (filter_verdicts cfg mesh filt_pts nmls),
     flat_map verdict_headless (filter_verdicts cfg mesh filt_pts nmls)).
Proof.
  unfold filter_loop, filter_verdicts.
  generalize (length filt_pts) as n.
  induction n as [|n IH]; [ reflexivity | ].
  rewrite seq_S, fold_left_app, IH, map_app, !flat_map_app.
  cbn [fold_left map flat_map Nat.add]. rewrite !app_nil_r.
  destruct (filter_point cfg mesh _ _); cbn; rewrite ?app_nil_r; reflexivity.
Qed.

(** The saturated polar angle is at least [3*PI/4] and at least the polar
    angle of the face normal. *)
Lemma corrected_normal_polar (n : Vec3d) :
  let polar := Rmax (acos (vz n / 1)) (3 * PI / 4) in
  3 * PI / 4 <= polar
  /\ acos (vz n / 1) <= polar
  /\ corrected_normal n
     = mkVec3d (cos (atan2 (vy n) (vx n)) * sin polar)
               (sin (atan2 (vy n) (vx n)) * sin polar)
               (cos polar).
Proof.
  cbn zeta. split; [ apply Rmax_r | split; [ apply Rmax_l | reflexivity ] ].
Qed.

Lemma filter_point_discarded (hp n : Vec3d) :
  acos (vz n / 1) < PI / 2 -> filter_point cfg mesh hp n = Discarded.
Proof.
  intros Hp. unfold filter_point. now rewrite (Rleb_false _ _ Hp).
Qed.

Lemma filter_point_kept (hp n : Vec3d) :
  PI / 2 <= acos (vz n / 1) ->
  let nn := corrected_normal n in
  let t := ray_mesh_intersect (vadd hp (vscale 0.1 nn)) nn mesh in
  ((t = NoHit \/ exists x, t = Hit x /\ x > 2 * head_room cfg) ->
   filter_point cfg mesh hp n = ToHead hp nn)
  /\ ((exists x, t = Hit x /\ x <= 2 * head_room cfg) ->
      filter_point cfg mesh hp n = ToHeadless hp).
Proof.
  intros Hp nn t. unfold filter_point.
  rewrite (Rleb_true _ _ Hp). fold nn. fold (head_room cfg). fold t.
  split.
  - intros [-> | (x & -> & Hx)]; [ reflexivity | ].
    cbn. now rewrite (Rltb_true _ _ Hx).
  - intros (x & -> & Hx). cbn. now rewrite (Rltb_false _ _ Hx).
Qed.

Lemma filterfn_verdicts (points : PointSet) (d : Data) :
  let filt_pts := filter_aliases points in
  let verdicts := filter_verdicts cfg mesh filt_pts (normals filt_pts mesh) in
  filterfn cfg points mesh d
  = mkData filt_pts (flat_map verdict_normal verdicts)
           (flat_map verdict_head verdicts)
           (flat_map verdict_headless verdicts)
           (head_heights d) (ground_heads d) (noground_heads d)
           (ground_connectors d) (result d).
Proof.
  cbn zeta. unfold filterfn. now rewrite filter_loop_verdicts.
Qed.

(** C7, amended: a kept point whose face normal has a polar angle below
    [PI/2] is discarded and reaches neither [head_positions] nor
    [headless_positions]; otherwise the polar angle is saturated to at
    least [3*PI/4] and the normal reconstituted, and the point goes to
    [head_positions], with the corrected normal in the same row of
    [filtered_normals], exactly when the ray from the point plus a tenth of
    the corrected normal, along the corrected normal, first hits after more
    than twice the head room or never hits, and to [headless_positions]
    otherwise.  The three matrices hold these rows in the order of the
    points. *)
Theorem filter_stage (points : PointSet) (d : Data) :
  let filt_pts := filter_aliases points in
  let nmls := normals filt_pts mesh in
  let verdicts := filter_verdicts cfg mesh filt_pts nmls in
  let d' := filterfn cfg points mesh d in
  (forall hp n,
      acos (vz n / 1) < PI / 2 ->
      filter_point cfg mesh hp n = Discarded)
  /\ (forall hp n,
         PI / 2 <= acos (vz n / 1) ->
         let nn := corrected_normal n in
         let t := ray_mesh_intersect (vadd hp (vscale 0.1 nn)) nn mesh in
         ((t = NoHit \/ exists x, t = Hit x /\ x > 2 * head_room cfg) ->
          filter_point cfg mesh hp n = ToHead hp nn)
         /\ ((exists x, t = Hit x /\ x <= 2 * head_room cfg) ->
             filter_point cfg mesh hp n = ToHeadless hp))
  /\ (forall n,
         3 * PI / 4 <= Rmax (acos (vz n / 1)) (3 * PI / 4)
         /\ corrected_normal n
            = mkVec3d
                (cos (atan2 (vy n) (vx n))
                 * sin (Rmax (acos (vz n / 1)) (3 * PI / 4)))
                (sin (atan2 (vy n) (vx n))
                 * sin (Rmax (acos (vz n / 1)) (3 * PI / 4)))
                (cos (Rmax (acos (vz n / 1)) (3 * PI / 4))))
  /\ filtered_points d' = filt_pts
  /\ head_positions d' = flat_map verdict_head verdicts
  /\ filtered_normals d' = flat_map verdict_normal verdicts
  /\ headless_positions d' = flat_map verdict_headless verdicts.
Proof.
  intros filt_pts nmls verdicts d'.
  split; [ exact filter_point_discarded | ].
  split; [ exact filter_point_kept | ].
  split; [ intros n; split; [ apply Rmax_r | reflexivity ] | ].
  subst d'. rewrite filterfn_verdicts. cbn. auto.
Qed.
End Filter.

Lemma acos_m1 : acos (-1 / 1) = PI.
Proof.
  replace (-1 / 1) with (Ropp 1) by lra.
  rewrite acos_opp, acos_1. lra.
Qed.

Lemma filter_stage_witness :
  filter_point (H := overhang) standard_cfg (mkEigenMesh3D [] [])
    (mkVec3d 0 0 10) down
  = ToHead (mkVec3d 0 0 10) (corrected_normal down).
Proof.
  destruct (filter_stage (H := overhang) standard_cfg (mkEigenMesh3D [] [])
              [mkVec3d 0 0 10] (data_init Impl.empty))
    as (_ & Hkeep & _).
  apply (Hkeep (mkVec3d 0 0 10) down).
  - cbn [vz down]. rewrite acos_m1. pose proof PI_RGT_0. lra.
  - left. reflexivity.
Defined.

Lemma cos_3PI4_below : cos (3 * PI / 4) < - / 2.
Proof.
  replace (3 * PI / 4) with (3 * (PI / 4)) by lra.
  rewrite cos_3PI4.
  assert (H2 : sqrt 2 * sqrt 2 = 2) by (apply sqrt_sqrt; lra).
  assert (Hpos : 0 < sqrt 2) by (apply sqrt_lt_R0; lra).
  assert (Hlt : sqrt 2 < 2) by nra.
  unfold Rdiv.
  assert (Hinv : / 2 < / sqrt 2) by (apply Rinv_lt_contravar; nra).
  lra.
Qed.

Lemma corrected_normal_x :
  corrected_normal (mkVec3d 1 0 0)
  = mkVec3d (sin (3 * PI / 4)) 0 (cos (3 * PI / 4)).
Proof.
  unfold corrected_normal. cbn [vx vy vz].
  replace (0 / 1) with 0 by lra.
  rewrite acos_0.
  rewrite Rmax_right by (pose proof PI_RGT_0; lra).
  unfold atan2. destruct (Rlt_dec 0 1) as [_ | N]; [ | lra ].
  replace (0 / 1) with 0 by lra.
  rewrite atan_0, cos_0, sin_0. f_equal; lra.
Qed.

(** C7, read with [n] the face normal in [point + 0.1 n]: in the scene
    [fin] the face normal [(1, 0, 0)] has the polar angle [PI/2] and is
    corrected to [3*PI/4]; the ray of the claim, from the point plus a
    tenth of the face normal, is stopped after a twentieth, which is less
    than twice the head room, so the claim sends the point to
    [headless_positions]; the ray that [filterfn] casts starts a tenth
    along the corrected normal, below the fin, never hits, and the point
    goes to [head_positions]. *)
Lemma filter_ray_starts_along_corrected_normal :
  let mesh := mkEigenMesh3D [] [] in
  let n := mkVec3d 1 0 0 in
  let nn := corrected_normal n in
  let d' := filterfn (H := fin) standard_cfg [zero3] mesh
              (data_init Impl.empty) in
  PI / 2 <= acos (vz n / 1)
  /\ ray_mesh_intersect (Externals := fin)
       (vadd zero3 (vscale 0.1 n)) nn mesh = Hit (/ 20)
  /\ / 20 <= 2 * head_room standard_cfg
  /\ head_positions d' = [zero3]
  /\ headless_positions d' = [].
Proof.
  intros mesh n nn d'.
  assert (Hpolar : PI / 2 <= acos (vz n / 1)).
  { cbn [vz n]. replace (0 / 1) with 0 by lra. rewrite acos_0. lra. }
  assert (Hclaim : ray_mesh_intersect (Externals := fin)
                     (vadd zero3 (vscale 0.1 n)) nn mesh = Hit (/ 20)).
  { cbn. destruct (Rlt_dec _ _) as [L | _]; [ lra | reflexivity ]. }
  assert (Hcode : filter_point (H := fin) standard_cfg mesh zero3 n
                  = ToHead zero3 nn).
  { apply (filter_point_kept (H := fin) standard_cfg mesh zero3 n Hpolar).
    left. unfold n. rewrite corrected_normal_x. cbn.
    pose proof cos_3PI4_below.
    destruct (Rlt_dec _ _) as [_ | N]; [ reflexivity | lra ]. }
  split; [ exact Hpolar | ].
  split; [ exact Hclaim | ].
  split; [ unfold head_room; cbn; lra | ].
  subst d'. rewrite filterfn_verdicts.
  change (filter_verdicts (H := fin) standard_cfg mesh
            (filter_aliases (H := fin) [zero3])
            (normals (filter_aliases (H := fin) [zero3]) mesh))
    with [filter_point (H := fin) standard_cfg mesh zero3 n].
  rewrite Hcode. split; reflexivity.
Qed.

(** ** Vectors and rotations *)

Lemma vdot_self_nonneg (v : Vec3d) : 0 <= vdot v v.
Proof. destruct v as [x y z]; unfold vdot; cbn. nra. Qed.

Lemma vdot_self_pos (v : Vec3d) : v <> zero3 -> 0 < vdot v v.
Proof.
  destruct v as [x y z]; unfold vdot, zero3; cbn. intros Hne.
  destruct (Req_dec x 0) as [-> | Hx]; [ | nra ].
  destruct (Req_dec y 0) as [-> | Hy]; [ | nra ].
  destruct (Req_dec z 0) as [-> | Hz]; [ | nra ].
  now contradiction Hne.
Qed.

Lemma norm3_sqr (v : Vec3d) : norm3 v * norm3 v = vdot v v.
Proof. apply sqrt_sqrt, vdot_self_nonneg. Qed.

Lemma norm3_pos (v : Vec3d) : v <> zero3 -> 0 < norm3 v.
Proof. intros Hne. apply sqrt_lt_R0, vdot_self_pos, Hne. Qed.

Lemma normalized_unit (v : Vec3d) :
  v <> zero3 -> vdot (normalized v) (normalized v) = 1.
Proof.
  intros Hne. pose proof (norm3_pos v Hne) as Hp.
  pose proof (norm3_sqr v) as Hs.
  unfold normalized. set (n := norm3 v) in *.
  assert (Hk : / n * n = 1) by (field; lra).
  set (k := / n) in *.
  destruct v as [x y z]; unfold vdot, vscale in *; cbn in *.
  nsatz.
Qed.

Lemma normalized_of_unit (v : Vec3d) : vdot v v = 1 -> normalized v = v.
Proof.
  intros Hu. unfold normalized, norm3. rewrite Hu, sqrt_1, Rinv_1.
  destruct v as [x y z]; unfold vscale; cbn. f_equal; lra.
Qed.

Lemma vsub_neq_zero (a b : Vec3d) : a <> b -> vsub b a <> zero3.
Proof.
  destruct a as [x y z], b as [x' y' z']; unfold vsub, zero3; cbn.
  intros Hne E. injection E as Ex Ey Ez. apply Hne. f_equal; lra.
Qed.

Lemma norm3_vsub_sym (a b : Vec3d) : norm3 (vsub a b) = norm3 (vsub b a).
Proof.
  unfold norm3. f_equal.
  destruct a, b; unfold vdot, vsub; cbn. ring.
Qed.

Section Rotation.
Context `{Externals}.

(** Eigen's rotation from the z axis onto a unit vector [b] that does not
    point straight down sends [(0, 0, h)] to [h * b]. *)
Lemma FromTwoVectors_ez (b : Vec3d) (h : R) :
  vdot b b = 1 ->
  -1 + dummy_precision <= vz b ->
  qrot (FromTwoVectors ez b) (mkVec3d 0 0 h) = vscale h b.
Proof.
  intros Hu Hz. unfold FromTwoVectors.
  rewrite (normalized_of_unit b Hu).
  rewrite (normalized_of_unit ez) by (unfold vdot, ez; cbn; lra).
  assert (Hc : vdot b ez = vz b) by (unfold vdot, ez; cbn; lra).
  rewrite Hc.
  destruct (Rlt_dec (vz b) (-1 + dummy_precision)) as [L | _]; [ lra | ].
  assert (Heps : 0 < dummy_precision)
    by (unfold dummy_precision; apply Rinv_0_lt_compat; lra).
  assert (Hpos : 0 < (1 + vz b) * 2) by lra.
  pose proof (sqrt_lt_R0 _ Hpos) as Hs.
  pose proof (sqrt_sqrt ((1 + vz b) * 2) (Rlt_le _ _ Hpos)) as Hss.
  set (s := sqrt ((1 + vz b) * 2)) in *.
  assert (Hi : (1 / s) * s = 1) by (field; lra).
  set (i := 1 / s) in *.
  assert (Hh : / 2 * 2 = 1) by lra.
  set (half := / 2) in *.
  destruct b as [x y z]; unfold vdot, qrot, vcross, vadd, vscale, ez in *;
    cbn in *.
  f_equal; nsatz.
Qed.
End Rotation.

(** ** Cylinders *)

(** With [fa = 2*PI/45] the loop over the ring ends by its condition
    after 45 rounds: the fuel allows 47. *)
Lemma ring_45 :
  length (Double.ring (Double.circle_over 45)) = 45%nat
  /\ Double.ring_fuel (Double.circle_over 45) = 47%nat.
Proof. vm_compute. split; reflexivity. Qed.

Section CylinderPoints.
Variables r h : R.

Lemma cylinder_fold_points (l : list R) :
  forall c : Contour3D,
    points (fold_left (fun c i => cylinder_step r h i c) l c)
    = points c
      ++ flat_map (fun i => [mkVec3d (ux (rot2d_0r i r)) (uy (rot2d_0r i r)) 0;
                             mkVec3d (ux (rot2d_0r i r)) (uy (rot2d_0r i r)) h])
                  l.
Proof.
  induction l as [|i l IH]; intros c; cbn [fold_left flat_map].
  - now rewrite app_nil_r.
  - rewrite IH. cbn [cylinder_step points]. now rewrite <- app_assoc.
Qed.

Lemma rot2d_on_rim (i z : R) :
  z = 0 \/ z = h ->
  on_cylinder_rim r h (mkVec3d (ux (rot2d_0r i r)) (uy (rot2d_0r i r)) z).
Proof.
  intros Hz. split; [ | exact Hz ]. cbn.
  pose proof (sin2_cos2 i) as Hsc. unfold Rsqr in Hsc. nsatz.
Qed.

(** The vertices of a cylinder: the two centres of its caps, then
    vertices on its rim. *)
Lemma cylinder_points (fuel : nat) (fa : Double.t) :
  exists rim,
    points (cylinder_fuel fuel r h fa)
    = mkVec3d 0 0 0 :: mkVec3d 0 0 h :: rim
    /\ Forall (on_cylinder_rim r h) rim.
Proof.
  unfold cylinder_fuel. cbn [points]. rewrite cylinder_fold_points.
  cbn [points app].
  eexists. split; [ reflexivity | ].
  constructor; [ | constructor ].
  - split; cbn; [ | now left ]. rewrite sin_0, cos_0. ring.
  - split; cbn; [ | now right ]. rewrite sin_0, cos_0. ring.
  - apply Forall_flat_map, Forall_forall. intros i _.
    constructor; [ | constructor; [ | constructor ] ];
      apply rot2d_on_rim; auto.
Qed.
End CylinderPoints.

Lemma length_flat_map_const {A B} (f : A -> list B) (c : nat) (l : list A) :
  (forall a, length (f a) = c) -> length (flat_map f l) = (c * length l)%nat.
Proof.
  intros Hf. induction l as [|a l IH]; cbn [flat_map length]; [ lia | ].
  rewrite length_app, Hf, IH. lia.
Qed.

(** The cylinder of a bridge has 94 vertices. *)
Lemma cylinder_45_vertices (r h : R) :
  length (points (cylinder r h (Double.circle_over 45))) = 94%nat.
Proof.
  unfold cylinder, cylinder_fuel. cbn [points].
  rewrite cylinder_fold_points.
  change (Double.ring_loop _ Double.zero _)
    with (Double.ring (Double.circle_over 45)).
  rewrite !length_app, (length_flat_map_const _ 2) by reflexivity.
  rewrite length_map, (proj1 ring_45). reflexivity.
Qed.

(** ** Bridges *)

(** A rotation by a unit quaternion keeps scalar products. *)
Lemma qrot_vdot (q : Quaternion) (a b : Vec3d) :
  qw q * qw q + vdot (qvec q) (qvec q) = 1 ->
  vdot (qrot q a) (qrot q b) = vdot a b.
Proof.
  destruct q as [w [ux uy uz]], a as [ax ay az], b as [bx by' bz].
  unfold vdot, qrot, vcross, vadd, vscale; cbn. intros Hq. nsatz.
Qed.

Lemma vsub_vadd (a b : Vec3d) : vsub (vadd a b) b = a.
Proof. destruct a, b; unfold vsub, vadd; cbn. f_equal; lra. Qed.

Section Bridges.
Context `{Externals}.

Lemma FromTwoVectors_ez_unit (b : Vec3d) :
  vdot b b = 1 ->
  -1 + dummy_precision <= vz b ->
  let q := FromTwoVectors ez b in
  qw q * qw q + vdot (qvec q) (qvec q) = 1.
Proof.
  intros Hu Hz. unfold FromTwoVectors.
  rewrite (normalized_of_unit b Hu).
  rewrite (normalized_of_unit ez) by (unfold vdot, ez; cbn; lra).
  assert (Hc : vdot b ez = vz b) by (unfold vdot, ez; cbn; lra).
  rewrite Hc.
  destruct (Rlt_dec (vz b) (-1 + dummy_precision)) as [L | _]; [ lra | ].
  assert (Heps : 0 < dummy_precision)
    by (unfold dummy_precision; apply Rinv_0_lt_compat; lra).
  assert (Hpos : 0 < (1 + vz b) * 2) by lra.
  pose proof (sqrt_lt_R0 _ Hpos) as Hs.
  pose proof (sqrt_sqrt ((1 + vz b) * 2) (Rlt_le _ _ Hpos)) as Hss.
  set (s := sqrt ((1 + vz b) * 2)) in *.
  assert (Hi : (1 / s) * s = 1) by (field; lra).
  set (i := 1 / s) in *.
  assert (Hh : / 2 * 2 = 1) by lra.
  set (half := / 2) in *.
  assert (Hz1 : (1 + vz b) <> 0) by lra.
  assert (Hj : / (1 + vz b) * (1 + vz b) = 1) by (field; lra).
  set (j := / (1 + vz b)) in *.
  destruct b as [x y z]; unfold vdot, vcross, vscale, ez in *; cbn in *.
  nsatz.
Qed.

(** C6, amended: a bridge built from two junctions at different places,
    one not straight below the other, has the radius asked for and a
    non-empty mesh, the cylinder of that radius around the segment between
    the two junctions: its first two vertices, the centres of the caps, are
    the positions of the junctions, so its axis is the normalized
    difference of the two positions and its length their distance, and
    every other vertex lies at distance [r] from the axis, level with one
    of the two junctions.  A bridge built from a head and a junction, or
    from a junction and a pillar, has an empty mesh. *)
Theorem bridge_meshes (j1 j2 : Junction.t) (r_mm : R) :
  Junction.pos j1 <> Junction.pos j2 ->
  -1 + dummy_precision
  <= vz (normalized (vsub (Junction.pos j2) (Junction.pos j1))) ->
  let b := Bridge.of_junctions j1 j2 r_mm in
  let axis := normalized (vsub (Junction.pos j2) (Junction.pos j1)) in
  let d := distance3 (Junction.pos j2) (Junction.pos j1) in
  Bridge.r b = r_mm
  /\ 0 < d
  /\ vdot axis axis = 1
  /\ vadd (Junction.pos j1) (vscale d axis) = Junction.pos j2
  /\ (exists rim,
         points (Bridge.mesh b)
         = Junction.pos j1 :: Junction.pos j2 :: rim
         /\ Forall (fun p =>
                      let v := vsub p (Junction.pos j1) in
                      vdot v v - vdot v axis * vdot v axis = r_mm * r_mm
                      /\ (vdot v axis = 0 \/ vdot v axis = d))
                   rim)
  /\ (forall h j r, Bridge.mesh (Bridge.of_head_junction h j r)
                    = empty_contour)
  /\ (forall j cl, Bridge.mesh (Bridge.of_junction_pillar j cl)
                   = empty_contour).
Proof.
  intros Hne Hz b axis d.
  set (p1 := Junction.pos j1) in *. set (p2 := Junction.pos j2) in *.
  pose proof (vsub_neq_zero p1 p2 Hne) as Hv.
  pose proof (normalized_unit _ Hv) as Hu. fold axis in Hu.
  assert (Hd : d = norm3 (vsub p2 p1)) by apply norm3_vsub_sym.
  pose proof (norm3_pos _ Hv) as Hdpos. rewrite <- Hd in Hdpos.
  assert (Hend : vadd p1 (vscale d axis) = p2).
  { unfold axis, normalized. rewrite <- Hd.
    destruct p1 as [x1 y1 z1], p2 as [x2 y2 z2].
    unfold vadd, vscale, vsub; cbn. f_equal; field; lra. }
  split; [ reflexivity | ].
  split; [ exact Hdpos | ].
  split; [ exact Hu | ].
  split; [ exact Hend | ].
  split; [ | split; reflexivity ].
  set (q := FromTwoVectors ez axis).
  pose proof (FromTwoVectors_ez_unit axis Hu Hz) as Hq. fold q in Hq.
  cbn zeta in Hq.
  destruct (cylinder_points r_mm d
              (Double.ring_fuel (Double.circle_over 45))
              (Double.circle_over 45)) as (rim0 & Hpts & Hrim).
  exists (map (fun p => vadd (qrot q p) p1) rim0).
  split.
  - subst b. unfold Bridge.of_junctions. cbn [Bridge.mesh map_points points].
    fold p1 p2 axis d. unfold cylinder. rewrite Hpts. cbn [map].
    change (mkVec3d 0 0 1) with ez. fold q.
    unfold q at 1 2.
    rewrite !FromTwoVectors_ez by assumption.
    f_equal; [ | f_equal ].
    + destruct p1, axis; unfold vadd, vscale; cbn. f_equal; lra.
    + etransitivity; [ | exact Hend ].
      destruct p1, axis; unfold vadd, vscale; cbn. f_equal; lra.
  - apply Forall_map. apply Forall_forall. intros p0 Hin.
    rewrite Forall_forall in Hrim. destruct (Hrim p0 Hin) as [Hr Hh].
    cbn zeta. rewrite vsub_vadd.
    assert (Hax : qrot q ez = axis).
    { unfold q, ez. rewrite FromTwoVectors_ez by assumption.
      destruct axis; unfold vscale; cbn. f_equal; lra. }
    rewrite <- Hax at 1 2 3 4.
    rewrite !qrot_vdot by exact Hq.
    assert (Hpe : vdot p0 ez = vz p0) by (unfold vdot, ez; cbn; lra).
    rewrite Hpe. split; [ | exact Hh ].
    clear Hpts Hin.
    destruct p0 as [x y z]; unfold vdot; cbn in *. lra.
Qed.
End Bridges.

Lemma bridge_meshes_witness :
  let j1 := Junction.make (H := overhang) zero3 (/ 2) 45 in
  let j2 := Junction.make (H := overhang) (mkVec3d 1 0 0) (/ 2) 45 in
  exists rim,
    points (Bridge.mesh (Bridge.of_junctions (H := overhang) j1 j2 (3 / 10)))
    = zero3 :: mkVec3d 1 0 0 :: rim.
Proof.
  intros j1 j2.
  assert (Hne : Junction.pos j1 <> Junction.pos j2).
  { cbn. intros E. injection E as E. lra. }
  assert (Hz : -1 + dummy_precision
               <= vz (normalized (vsub (Junction.pos j2) (Junction.pos j1)))).
  { cbn. rewrite Rminus_diag, Rmult_0_r. unfold dummy_precision. lra. }
  destruct (bridge_meshes (H := overhang) j1 j2 (3 / 10) Hne Hz)
    as (_ & _ & _ & _ & (rim & Hpts & _) & _).
  exists rim. exact Hpts.
Defined.

(** C6, as the claim states it for the two other constructors: a bridge
    built from a head and a junction, and one built from a junction and a
    pillar, carry no mesh at all. *)
Lemma bridge_of_head_has_no_mesh :
  let h := Head.make (H := overhang) (/ 2) (/ 4) 1 down (mkVec3d 0 0 10) 45 in
  let j := Junction.make (H := overhang) (mkVec3d 1 0 5) (/ 2) 45 in
  let cl := Pillar.make 0 h (mkVec3d 0 0 0) (3 / 10) in
  points (Bridge.mesh (Bridge.of_head_junction h j (3 / 10))) = []
  /\ points (Bridge.mesh (Bridge.of_junction_pillar j cl)) = []
  /\ ~ (forall b : Bridge.t,
           b = Bridge.of_head_junction h j (3 / 10)
           \/ b = Bridge.of_junction_pillar j cl ->
           points (Bridge.mesh b) <> []).
Proof.
  intros h j cl. split; [ reflexivity | split; [ reflexivity | ] ].
  intros Hall.
  apply (Hall (Bridge.of_head_junction h j (3 / 10))); [ now left | reflexivity ].
Qed.

(** ** Next permutation of a bitmask *)

Lemma replace_last_gt_true (l : list bool) :
  replace_last_gt bool_ltb true l = None.
Proof. induction l as [|y l IH]; cbn; [ | rewrite IH ]; reflexivity. Qed.

Lemma replace_last_gt_falses (x : bool) (k : nat) :
  replace_last_gt bool_ltb x (repeat false k) = None.
Proof.
  induction k as [|k IH]; cbn; [ reflexivity | rewrite IH ].
  now destruct x.
Qed.

Lemma next_permutation_falses (k : nat) :
  next_permutation bool_ltb (repeat false k) = None.
Proof.
  induction k as [|k IH]; cbn; [ reflexivity | ].
  now rewrite IH, replace_last_gt_falses.
Qed.

Lemma next_permutation_T (c : nat) :
  next_permutation bool_ltb (true :: repeat false c) = None.
Proof. cbn. now rewrite next_permutation_falses, replace_last_gt_true. Qed.

Lemma next_permutation_TT (c : nat) :
  next_permutation bool_ltb (true :: true :: repeat false c) = None.
Proof.
  cbn [next_permutation].
  now rewrite next_permutation_falses, !replace_last_gt_true.
Qed.

Lemma next_permutation_prefix (pre l l' : list bool) :
  next_permutation bool_ltb l = Some l' ->
  next_permutation bool_ltb (pre ++ l) = Some (pre ++ l').
Proof.
  intros Hl. induction pre as [|x pre IH]; cbn; [ exact Hl | ].
  now rewrite IH.
Qed.

Lemma rev_false_falses (c : nat) :
  rev (false :: repeat false c) = repeat false (S c).
Proof. change (false :: repeat false c) with (repeat false (S c)).
  apply rev_repeat. Qed.

(** A single set bit moves one place to the left. *)
Lemma next_permutation_one (a c : nat) :
  next_permutation bool_ltb (repeat false (S a) ++ true :: repeat false c)
  = Some (repeat false a ++ true :: repeat false (S c)).
Proof.
  replace (S a) with (a + 1)%nat by lia.
  rewrite repeat_app, <- app_assoc.
  apply next_permutation_prefix.
  cbn [repeat app next_permutation].
  rewrite next_permutation_falses, replace_last_gt_true.
  cbn [replace_last_gt]. rewrite replace_last_gt_falses. cbn.
  now rewrite rev_repeat, <- repeat_cons.
Qed.

(** The second set bit moves one place to the left while it is not next
    to the first. *)
Lemma next_permutation_gap (a b c : nat) :
  next_permutation bool_ltb (mask a (S b) c) = Some (mask a b (S c)).
Proof.
  unfold mask. apply next_permutation_prefix.
  change (true :: repeat false (S b) ++ true :: repeat false c)
    with ([true] ++ (repeat false (S b) ++ true :: repeat false c)).
  change (true :: repeat false b ++ true :: repeat false (S c))
    with ([true] ++ (repeat false b ++ true :: repeat false (S c))).
  apply next_permutation_prefix, next_permutation_one.
Qed.

(** When the two set bits are adjacent, the first moves one place to the
    left and the second to the end. *)
Lemma next_permutation_adjacent (a c : nat) :
  next_permutation bool_ltb (mask (S a) 0 c) = Some (mask a (S c) 0).
Proof.
  unfold mask. replace (S a) with (a + 1)%nat by lia.
  rewrite repeat_app, <- app_assoc.
  apply next_permutation_prefix.
  cbn [repeat app].
  change (next_permutation bool_ltb (false :: true :: true :: repeat false c))
    with (match next_permutation bool_ltb (true :: true :: repeat false c) with
          | Some rest' => Some (false :: rest')
          | None =>
              match replace_last_gt bool_ltb false
                      (true :: true :: repeat false c) with
              | Some (y, rest') => Some (y :: rev rest')
              | None => None
              end
          end).
  rewrite next_permutation_TT.
  cbn [replace_last_gt]. rewrite replace_last_gt_falses. cbn [bool_ltb negb andb].
  cbn [rev]. rewrite rev_repeat.
  f_equal. f_equal.
  rewrite <- repeat_cons. reflexivity.
Qed.

(** The last mask. *)
Lemma next_permutation_last (c : nat) :
  next_permutation bool_ltb (mask 0 0 c) = None.
Proof. apply next_permutation_TT. Qed.

Lemma set_bits_falses (i k : nat) (l : list bool) :
  set_bits i (repeat false k ++ l) = set_bits (i + k) l.
Proof.
  revert i; induction k as [|k IH]; intros i; cbn.
  - now rewrite Nat.add_0_r.
  - rewrite IH. f_equal. lia.
Qed.

Lemma set_bits_mask (a b c : nat) :
  set_bits 0 (mask a b c) = [a; (a + b + 1)%nat].
Proof.
  unfold mask. rewrite set_bits_falses. cbn [set_bits].
  rewrite set_bits_falses. cbn [set_bits].
  rewrite <- (app_nil_r (repeat false c)), set_bits_falses. cbn.
  f_equal. f_equal. lia.
Qed.

(** ** The loop of [cluster_centroid] *)

Section CentroidLoop.
Context {D : Type} {arith : DoubleArith D} {P : Type}.
Variable clust : ClusterEl.
Variable pointfn : nat -> P.
Variable df : P -> P -> D.

Local Abbreviation d := (member_dist clust pointfn df).

Lemma centroid_round_mask (a b c : nat) (avgs : list D) :
  centroid_round clust pointfn df (mask a b c) avgs
  = add_pair d avgs (a, (a + b + 1)%nat).
Proof. unfold centroid_round. rewrite set_bits_mask. reflexivity. Qed.

(** From the mask that selects [(a, a + b + 1)] the loop selects the rest
    of the row of [a] and then the rows of [a - 1], ..., [0], and ends. *)
Lemma centroid_loop_rows (n : nat) :
  forall a b c : nat,
    (a + b + c + 2 = n)%nat ->
    forall (fuel : nat) (avgs : list D),
      (length (pair_row a b ++ pair_rows n a) <= fuel)%nat ->
      centroid_loop clust pointfn df fuel (mask a b c) avgs
      = Some (fold_left (add_pair d) (pair_row a b ++ pair_rows n a) avgs).
Proof.
  induction a as [|a IHa]; intros b; induction b as [|b IHb];
    intros c Hn fuel avgs Hf;
    (destruct fuel as [|fuel]; [ cbn in Hf; lia | ]);
    cbn [centroid_loop]; rewrite centroid_round_mask.
  - rewrite next_permutation_last. reflexivity.
  - rewrite next_permutation_gap.
    rewrite IHb; [ reflexivity | lia | cbn in *; lia ].
  - rewrite next_permutation_adjacent.
    rewrite IHa; [ | lia | ].
    + cbn [pair_row pair_rows app fold_left].
      replace (n - 2 - a)%nat with (S c) by lia.
      now rewrite Nat.add_0_r.
    + cbn [pair_row pair_rows app length] in Hf.
      replace (n - 2 - a)%nat with (S c) in Hf by lia.
      cbn [length] in *. lia.
  - rewrite next_permutation_gap.
    rewrite IHb; [ reflexivity | lia | cbn in *; lia ].
Qed.

Lemma length_pair_row (a b : nat) : length (pair_row a b) = S b.
Proof. induction b as [|b IH]; cbn; [ reflexivity | now rewrite IH ]. Qed.

Lemma length_pair_rows (n a : nat) :
  (1 <= n)%nat -> (length (pair_rows n a) <= a * n)%nat.
Proof.
  intros Hn. induction a as [|a IH]; cbn [pair_rows]; [ cbn; lia | ].
  rewrite length_app, length_pair_row. lia.
Qed.
End CentroidLoop.

(** ** Accumulating the distances *)

Lemma nth_set_nth {A} (l : list A) (i k : nat) (x dflt : A) :
  (i < length l)%nat ->
  nth k (set_nth i x l) dflt = if Nat.eqb k i then x else nth k l dflt.
Proof.
  revert i k; induction l as [|y l IH]; intros [|i] [|k] Hi; cbn in *;
    try reflexivity; try lia.
  apply IH. lia.
Qed.

Lemma pair_row_range (a b m : nat) :
  (a + b + 1 < m)%nat ->
  Forall (fun pr => (fst pr < m)%nat /\ (snd pr < m)%nat) (pair_row a b).
Proof.
  induction b as [|b IH]; intros Hm; cbn [pair_row].
  - constructor; [ cbn; lia | constructor ].
  - constructor; [ cbn; lia | apply IH; lia ].
Qed.

Lemma pair_rows_range (n a : nat) :
  (a + 1 <= n)%nat ->
  Forall (fun pr => (fst pr < n)%nat /\ (snd pr < n)%nat) (pair_rows n a).
Proof.
  induction a as [|a IH]; intros Hn; cbn [pair_rows]; [ constructor | ].
  apply Forall_app. split; [ apply pair_row_range | apply IH ]; lia.
Qed.

Section Accumulate.
Context {D : Type} {arith : DoubleArith D}.
Variable d : nat -> nat -> D.

Lemma length_add_at (i : nat) (x : D) (l : list D) :
  length (add_at i x l) = length l.
Proof. apply length_set_nth. Qed.

Lemma nth_add_at (l : list D) (i k : nat) (x : D) :
  (i < length l)%nat ->
  nth k (add_at i x l) d_zero
  = if Nat.eqb k i then d_add (nth k l d_zero) x else nth k l d_zero.
Proof.
  intros Hi. unfold add_at. rewrite nth_set_nth by exact Hi.
  destruct (Nat.eqb_spec k i) as [-> | _]; reflexivity.
Qed.

Lemma length_add_pair (avgs : list D) (pr : nat * nat) :
  length (add_pair d avgs pr) = length avgs.
Proof. unfold add_pair. now rewrite !length_add_at. Qed.

(** A round adds the distance of its pair to the sums of the two members
    of the pair, and leaves every other sum alone. *)
Lemma nth_add_pair (avgs : list D) (pr : nat * nat) (k : nat) :
  (fst pr < length avgs)%nat -> (snd pr < length avgs)%nat ->
  nth k (add_pair d avgs pr) d_zero
  = fold_left d_add (contribs d k pr) (nth k avgs d_zero).
Proof.
  intros H1 H2. unfold add_pair, contribs.
  rewrite nth_add_at by (now rewrite length_add_at).
  rewrite nth_add_at by exact H1.
  destruct (Nat.eqb k (fst pr)), (Nat.eqb k (snd pr)); reflexivity.
Qed.

Lemma nth_fold_add_pair (prs : list (nat * nat)) (k : nat) :
  forall avgs : list D,
    Forall (fun pr => (fst pr < length avgs)%nat
                      /\ (snd pr < length avgs)%nat) prs ->
    length (fold_left (add_pair d) prs avgs) = length avgs
    /\ nth k (fold_left (add_pair d) prs avgs) d_zero
       = fold_left d_add (flat_map (contribs d k) prs) (nth k avgs d_zero).
Proof.
  induction prs as [|pr prs IH]; intros avgs Hall; cbn [fold_left flat_map].
  - split; reflexivity.
  - apply Forall_cons_iff in Hall. destruct Hall as [[H1 H2] Hrest].
    destruct (IH (add_pair d avgs pr)) as [Hlen Hnth].
    { rewrite length_add_pair. exact Hrest. }
    rewrite Hlen, Hnth, length_add_pair, nth_add_pair by assumption.
    split; [ reflexivity | ]. now rewrite fold_left_app.
Qed.

(** What the row of [a] adds to the sum of the member [k]: the whole row,
    from the far end, when [k] is [a]; the distance to [a] when [k] lies
    in the row; nothing otherwise. *)
Lemma contribs_pair_row (k a b : nat) :
  flat_map (contribs d k) (pair_row a b)
  = if Nat.eqb a k then map (d k) (rev (seq (S k) (S b)))
    else if Nat.ltb a k && Nat.leb k (a + b + 1) then [d a k]
    else [].
Proof.
  induction b as [|b IH].
  - cbn [pair_row flat_map app seq rev map]. unfold contribs.
    cbn [fst snd]. rewrite app_nil_r.
    destruct (Nat.eqb_spec a k) as [-> | Hne].
    + rewrite Nat.eqb_refl.
      destruct (Nat.eqb_spec k (k + 1)) as [E | _]; [ lia | ].
      cbn [app]. now rewrite Nat.add_1_r.
    + destruct (Nat.eqb_spec k a) as [E | _]; [ congruence | ].
      cbn [app].
      destruct (Nat.eqb_spec k (a + 1)) as [-> | Hk].
      * replace (Nat.ltb a (a + 1)) with true
          by (symmetry; apply Nat.ltb_lt; lia).
        replace (Nat.leb (a + 1) (a + 0 + 1)) with true
          by (symmetry; apply Nat.leb_le; lia).
        reflexivity.
      * destruct (Nat.ltb_spec a k) as [L | G]; [ | reflexivity ].
        replace (Nat.leb k (a + 0 + 1)) with false
          by (symmetry; apply Nat.leb_gt; lia).
        reflexivity.
  - cbn [pair_row flat_map]. rewrite IH. clear IH.
    unfold contribs at 1. cbn [fst snd].
    destruct (Nat.eqb_spec a k) as [-> | Hne].
    + rewrite Nat.eqb_refl.
      destruct (Nat.eqb_spec k (k + S b + 1)) as [E | _]; [ lia | ].
      rewrite (seq_S (S b) (S k)), rev_app_distr. cbn [rev app map].
      f_equal. f_equal. lia.
    + destruct (Nat.eqb_spec k a) as [E | _]; [ congruence | ].
      cbn [app].
      destruct (Nat.eqb_spec k (a + S b + 1)) as [-> | Hk].
      * replace (Nat.ltb a (a + S b + 1)) with true
          by (symmetry; apply Nat.ltb_lt; lia).
        replace (Nat.leb (a + S b + 1) (a + b + 1)) with false
          by (symmetry; apply Nat.leb_gt; lia).
        replace (Nat.leb (a + S b + 1) (a + S b + 1)) with true
          by (symmetry; apply Nat.leb_le; lia).
        reflexivity.
      * destruct (Nat.ltb_spec a k) as [L | G]; [ | reflexivity ].
        cbn [andb app].
        destruct (Nat.leb_spec k (a + b + 1)) as [L1 | G1].
        -- replace (Nat.leb k (a + S b + 1)) with true
             by (symmetry; apply Nat.leb_le; lia).
           reflexivity.
        -- replace (Nat.leb k (a + S b + 1)) with false
             by (symmetry; apply Nat.leb_gt; lia).
           reflexivity.
Qed.

(** What the rows of [a - 1], ..., [0] add to the sum of the member [k]. *)
Lemma contribs_pair_rows (k n a : nat) :
  (k < n)%nat -> (a + 1 <= n)%nat ->
  flat_map (contribs d k) (pair_rows n a)
  = (if Nat.ltb k a then map (d k) (rev (seq (S k) (n - 1 - k))) else [])
    ++ map (fun a' => d a' k) (rev (seq 0 (Nat.min a k))).
Proof.
  intros Hk. induction a as [|a IH]; intros Ha.
  - reflexivity.
  - cbn [pair_rows]. rewrite flat_map_app, contribs_pair_row, IH by lia.
    destruct (Nat.eqb_spec a k) as [-> | Hne].
    + rewrite Nat.ltb_irrefl.
      replace (Nat.ltb k (S k)) with true by (symmetry; apply Nat.ltb_lt; lia).
      replace (S (n - 2 - k)) with (n - 1 - k)%nat by lia.
      replace (Nat.min (S k) k) with (Nat.min k k) by lia.
      reflexivity.
    + destruct (Nat.ltb_spec a k) as [L | G].
      * replace (Nat.leb k (a + (n - 2 - a) + 1)) with true
          by (symmetry; apply Nat.leb_le; lia).
        replace (Nat.ltb k a) with false by (symmetry; apply Nat.ltb_ge; lia).
        replace (Nat.ltb k (S a)) with false
          by (symmetry; apply Nat.ltb_ge; lia).
        replace (Nat.min (S a) k) with (S a) by lia.
        replace (Nat.min a k) with a by lia.
        rewrite (seq_S a 0), rev_app_distr. reflexivity.
      * replace (Nat.ltb k a) with true by (symmetry; apply Nat.ltb_lt; lia).
        replace (Nat.ltb k (S a)) with true
          by (symmetry; apply Nat.ltb_lt; lia).
        replace (Nat.min (S a) k) with k by lia.
        replace (Nat.min a k) with k by lia.
        reflexivity.
Qed.
End Accumulate.

(** ** The smallest element *)

Section MinElement.
Context {D : Type} {arith : DoubleArith D}.

Lemma min_element_from_lt (l : list D) :
  forall (i bi : nat) (best : D),
    (bi < i)%nat -> (min_element_from i best bi l < i + length l)%nat.
Proof.
  induction l as [|x l IH]; intros i bi best Hbi; cbn [min_element_from length].
  - lia.
  - destruct (d_ltb x best).
    + specialize (IH (S i) i x). lia.
    + specialize (IH (S i) bi best). lia.
Qed.

(** [min_element] returns an index of the list. *)
Lemma min_element_lt (l : list D) :
  l <> [] -> (min_element l < length l)%nat.
Proof.
  destruct l as [|x l]; [ congruence | intros _ ].
  cbn [min_element length].
  pose proof (min_element_from_lt l 1 0 x). lia.
Qed.

Lemma min_element_from_spec (v : nat -> D) (l0 l : list D) :
  strict_weak_on d_ltb l0 ->
  forall (i bi : nat) (best : D),
    (forall j, (j < i + length l)%nat -> In (v j) l0) ->
    (forall j, (j < length l)%nat -> nth j l d_zero = v (i + j)%nat) ->
    best = v bi -> (bi < i)%nat ->
    (forall j, (j < i)%nat -> d_ltb (v j) best = false) ->
    (forall j, (j < bi)%nat -> d_ltb best (v j) = true) ->
    let r := min_element_from i best bi l in
    (forall j, (j < i + length l)%nat -> d_ltb (v j) (v r) = false)
    /\ (forall j, (j < r)%nat -> d_ltb (v r) (v j) = true).
Proof.
  intros Hord.
  induction l as [|x l IH]; intros i bi best Hin Hl Hb Hbi Hle Hlt;
    cbn [min_element_from length].
  - rewrite Nat.add_0_r. subst best. auto.
  - cbn [length] in Hin.
    assert (Hx : x = v i).
    { specialize (Hl 0%nat). cbn in Hl. rewrite Nat.add_0_r in Hl.
      apply Hl. lia. }
    assert (Hl' : forall j, (j < length l)%nat ->
                            nth j l d_zero = v (S i + j)%nat).
    { intros j Hj. specialize (Hl (S j)). cbn [nth] in Hl.
      rewrite Hl by (cbn; lia). f_equal. lia. }
    assert (Hin' : forall j, (j < S i + length l)%nat -> In (v j) l0).
    { intros j Hj. apply Hin. lia. }
    replace (i + S (length l))%nat with (S i + length l)%nat by lia.
    destruct (d_ltb x best) eqn:Ex.
    + apply IH; auto.
      * intros j Hj.
        destruct (Hord x x best) as (Hirr & _ & _);
          try (subst; apply Hin; lia).
        destruct (Nat.eq_dec j i) as [-> | Hne]; [ now rewrite <- Hx | ].
        destruct (d_ltb (v j) x) eqn:Ej; [ | reflexivity ].
        destruct (Hord (v j) x best) as (_ & Htr & _);
          try (subst; apply Hin; lia).
        rewrite <- (Hle j ltac:(lia)). symmetry. now apply Htr.
      * intros j Hj.
        destruct (Hord x best (v j)) as (_ & _ & Hneg);
          try (subst; apply Hin; lia).
        destruct (Hneg Ex) as [Hxj | Hjb]; [ exact Hxj | ].
        rewrite (Hle j Hj) in Hjb. discriminate.
    + apply IH; auto.
      intros j Hj. destruct (Nat.eq_dec j i) as [-> | Hne].
      * now rewrite <- Hx.
      * apply Hle. lia.
Qed.

(** When [<] orders the list, [min_element] gives the index of its first
    smallest element. *)
Lemma min_element_spec (l : list D) :
  l <> [] -> strict_weak_on d_ltb l ->
  let r := min_element l in
  (forall j, (j < length l)%nat ->
             d_ltb (nth j l d_zero) (nth r l d_zero) = false)
  /\ (forall j, (j < r)%nat ->
                d_ltb (nth r l d_zero) (nth j l d_zero) = true).
Proof.
  destruct l as [|x l]; [ congruence | intros _ Hord ].
  cbn [min_element length].
  apply (min_element_from_spec (fun j => nth j (x :: l) d_zero) (x :: l) l
           Hord 1 0 x).
  - intros j Hj. apply nth_In. cbn [length]. lia.
  - reflexivity.
  - reflexivity.
  - lia.
  - intros j Hj. replace j with 0%nat by lia. cbn [nth].
    destruct (Hord x x x) as (Hirr & _); try (left; reflexivity).
    exact Hirr.
  - intros j Hj. lia.
Qed.
End MinElement.

(** ** The centroid of a cluster *)

Section Centroid.
Context {D : Type} {arith : DoubleArith D} {P : Type}.
Variable clust : ClusterEl.
Variable pointfn : nat -> P.
Variable df : P -> P -> D.

Lemma cluster_centroid_large :
  (3 <= length clust)%nat ->
  cluster_centroid clust pointfn df
  = match centroid_loop clust pointfn df (length clust * length clust)
            (repeat false (length clust - 2) ++ [true; true])
            (repeat d_zero (length clust)) with
    | None => None
    | Some avgs =>
        Some (Z.of_nat
                (min_element
                   (map (fun a => d_div_size a (length clust)) avgs)))
    end.
Proof.
  intros Hn. unfold cluster_centroid.
  destruct (length clust) as [|[|[|m]]]; try lia. reflexivity.
Qed.

(** The loop of [cluster_centroid] ends within its fuel, and leaves in
    [avgs[k]] the distances between the member [k] and every other member,
    added up in the order of the visits. *)
Lemma centroid_loop_sums :
  (3 <= length clust)%nat ->
  centroid_loop clust pointfn df (length clust * length clust)
    (repeat false (length clust - 2) ++ [true; true])
    (repeat d_zero (length clust))
  = Some (map (acc_sum clust pointfn df) (seq 0 (length clust))).
Proof.
  intros Hn. set (n := length clust) in *.
  set (d := member_dist clust pointfn df).
  assert (Hrows : pair_row (n - 2) 0 ++ pair_rows n (n - 2)
                  = pair_rows n (n - 1)).
  { replace (n - 1)%nat with (S (n - 2)) by lia. cbn [pair_rows].
    now replace (n - 2 - (n - 2))%nat with 0%nat by lia. }
  change (repeat false (n - 2) ++ [true; true]) with (mask (n - 2) 0 0).
  rewrite (centroid_loop_rows clust pointfn df n (n - 2) 0 0); [ | lia | ].
  2:{ rewrite length_app, length_pair_row.
      pose proof (length_pair_rows n (n - 2) ltac:(lia)). nia. }
  rewrite Hrows. fold d. f_equal.
  destruct (nth_fold_add_pair d (pair_rows n (n - 1)) 0 (repeat d_zero n))
    as [Hlen _].
  { rewrite repeat_length. apply pair_rows_range. lia. }
  rewrite repeat_length in Hlen.
  apply (nth_ext _ _ d_zero d_zero).
  { now rewrite Hlen, length_map, length_seq. }
  intros k Hk. rewrite Hlen in Hk.
  destruct (nth_fold_add_pair d (pair_rows n (n - 1)) k (repeat d_zero n))
    as [_ Hnth].
  { rewrite repeat_length. apply pair_rows_range. lia. }
  rewrite Hnth, nth_repeat.
  rewrite (nth_indep _ d_zero (acc_sum clust pointfn df 0))
    by (rewrite length_map, length_seq; exact Hk).
  rewrite map_nth, seq_nth by exact Hk. cbn [Nat.add].
  unfold acc_sum, visit_order. fold n. f_equal.
  rewrite (contribs_pair_rows d k n (n - 1)) by lia.
  rewrite map_app. f_equal.
  - destruct (Nat.ltb_spec k (n - 1)) as [L | G].
    + apply map_ext_in. intros j Hj. apply in_rev, in_seq in Hj.
      unfold pair_dist.
      replace (Nat.ltb j k) with false by (symmetry; apply Nat.ltb_ge; lia).
      reflexivity.
    + replace (n - 1 - k)%nat with 0%nat by lia. reflexivity.
  - replace (Nat.min (n - 1) k) with k by lia.
    apply map_ext_in. intros j Hj. apply in_rev, in_seq in Hj.
    unfold pair_dist.
    replace (Nat.ltb j k) with true by (symmetry; apply Nat.ltb_lt; lia).
    reflexivity.
Qed.

(** For a cluster of three or more members the result is what
    [std::min_element] finds among the averages. *)
Lemma cluster_centroid_min :
  (3 <= length clust)%nat ->
  let avgs := map (acc_avg clust pointfn df) (seq 0 (length clust)) in
  cluster_centroid clust pointfn df = Some (Z.of_nat (min_element avgs))
  /\ (min_element avgs < length clust)%nat.
Proof.
  intros Hn avgs.
  rewrite (cluster_centroid_large Hn), (centroid_loop_sums Hn), map_map.
  split; [ reflexivity | ].
  assert (Hlen : length avgs = length clust)
    by (unfold avgs; now rewrite length_map, length_seq).
  rewrite <- Hlen. apply min_element_lt.
  intros E. rewrite E in Hlen. cbn in Hlen. lia.
Qed.

(** C9, amended: [cluster_centroid] always returns; it returns -1 exactly
    for the empty cluster and 0 for a cluster of one or two members.  For a
    cluster of three or more members it returns an index within the
    cluster, the one that [std::min_element] finds among the averages of
    the members; the average of a member is its sum of distances divided by
    the size, where the sum is accumulated in the arithmetic of [double] in
    the order in which the loop visits the pairs: the other members from
    the last down to the first.  When [<] orders the averages (no NaN
    among them), no member has a smaller average than the returned one, and
    every member of a lower index has a strictly larger one. *)
Theorem cluster_centroid_spec :
  (cluster_centroid clust pointfn df = Some (-1)%Z <-> clust = [])
  /\ (length clust = 1%nat \/ length clust = 2%nat ->
      cluster_centroid clust pointfn df = Some 0%Z)
  /\ ((3 <= length clust)%nat ->
      let avg := acc_avg clust pointfn df in
      let avgs := map avg (seq 0 (length clust)) in
      exists k,
        cluster_centroid clust pointfn df = Some (Z.of_nat k)
        /\ (k < length clust)%nat
        /\ k = min_element avgs
        /\ (strict_weak_on d_ltb avgs ->
            (forall j, (j < length clust)%nat ->
                       d_ltb (avg j) (avg k) = false)
            /\ (forall j, (j < k)%nat -> d_ltb (avg k) (avg j) = true))).
Proof.
  assert (Hlarge : (3 <= length clust)%nat ->
            let avg := acc_avg clust pointfn df in
            let avgs := map avg (seq 0 (length clust)) in
            exists k,
              cluster_centroid clust pointfn df = Some (Z.of_nat k)
              /\ (k < length clust)%nat
              /\ k = min_element avgs
              /\ (strict_weak_on d_ltb avgs ->
                  (forall j, (j < length clust)%nat ->
                             d_ltb (avg j) (avg k) = false)
                  /\ (forall j, (j < k)%nat ->
                                d_ltb (avg k) (avg j) = true))).
  { intros Hn avg avgs.
    destruct (cluster_centroid_min Hn) as [Hres Hlt]. fold avg avgs in Hres, Hlt.
    exists (min_element avgs).
    split; [ exact Hres | ]. split; [ exact Hlt | ].
    split; [ reflexivity | ]. intros Hord.
    assert (Hlen : length avgs = length clust)
      by (unfold avgs; now rewrite length_map, length_seq).
    assert (Hnth : forall j, (j < length clust)%nat ->
                             nth j avgs d_zero = avg j).
    { intros j Hj. unfold avgs.
      rewrite (nth_indep _ d_zero (avg 0%nat))
        by (rewrite length_map, length_seq; exact Hj).
      rewrite map_nth, seq_nth by exact Hj. reflexivity. }
    destruct (min_element_spec avgs) as (Hmin & Hfirst).
    { intros E. rewrite E in Hlen. cbn in Hlen. lia. }
    { exact Hord. }
    rewrite Hlen in Hmin. split.
    - intros j Hj. specialize (Hmin j Hj).
      now rewrite !Hnth in Hmin by assumption.
    - intros j Hj. specialize (Hfirst j Hj).
      now rewrite !Hnth in Hfirst by lia. }
  split; [ | split; [ | exact Hlarge ] ].
  - split.
    + intros Hres.
      destruct clust as [|x1 [|x2 [|x3 rest]]] eqn:Hc; try reflexivity;
        try discriminate Hres.
      destruct Hlarge as (k & Hk & _); [ cbn; lia | ].
      rewrite Hk in Hres. injection Hres as Hres. lia.
    + intros ->. reflexivity.
  - unfold cluster_centroid. intros [-> | ->]; reflexivity.
Qed.
End Centroid.

Lemma dist_xy_sym (a b : Vec3d) : dist_xy a b = dist_xy b a.
Proof.
  unfold dist_xy, distance2, norm2. cbn. f_equal. ring.
Qed.

(** The doubles of a goal as the real numbers they stand for. *)
Ltac eval_doubles :=
  unfold Double.to_R;
  repeat match goal with
         | |- context [FloatOps.Prim2SF ?x] =>
             let v := eval vm_compute in (FloatOps.Prim2SF x) in
             change (FloatOps.Prim2SF x) with v
         end;
  cbv beta iota zeta;
  repeat match goal with
         | |- context [Z.leb 0 ?e] =>
             let v := eval vm_compute in (Z.leb 0 e) in
             change (Z.leb 0 e) with v
         end;
  cbv beta iota;
  repeat match goal with
         | |- context [IZR (Z.pow 2 ?e)] =>
             let v := eval vm_compute in (Z.pow 2 e) in
             change (Z.pow 2 e) with v
         end.

Lemma cluster_centroid_spec_witness :
  exists k,
    cluster_centroid [0; 1; 2; 3]%nat TieScene.pointfn TieScene.dist_xy
    = Some (Z.of_nat k)
    /\ (k < 4)%nat
    /\ forall j, (j < 4)%nat ->
         d_ltb (acc_avg [0; 1; 2; 3]%nat TieScene.pointfn TieScene.dist_xy j)
               (acc_avg [0; 1; 2; 3]%nat TieScene.pointfn TieScene.dist_xy k)
         = false.
Proof.
  destruct (cluster_centroid_spec [0; 1; 2; 3]%nat TieScene.pointfn
              TieScene.dist_xy) as (_ & _ & Hlarge).
  destruct (Hlarge ltac:(cbn; lia)) as (k & Hk & Hlt & _ & Hord).
  exists k. split; [ exact Hk | ]. split; [ exact Hlt | ].
  apply Hord.
  intros x y z Hx Hy Hz. vm_compute in Hx, Hy, Hz.
  repeat match goal with
         | H : _ \/ _ |- _ => destruct H as [H | H]
         | H : False |- _ => destruct H
         end;
    subst x y z; vm_compute;
    (split; [ reflexivity | split; intros; first [ discriminate | auto ] ]).
Defined.

(** C9, as the claim states it: ties would be broken by the lowest member
    index.  For four heads on a line, at [x = 4.2], [2.813],
    [1.3930000000000002] and [0], the exact sums of the distances of the
    two inner members are equal and smaller than those of the outer
    members, so the claim names the member 1; the code, which rounds the
    sums of the two members in different orders, returns 2. *)
Lemma cluster_centroid_rounding_breaks_tie :
  let exact :=
    dist_sum [0; 1; 2; 3]%nat TieScene.pointfn
             (fun p q => Double.to_R (TieScene.dist_xy p q)) in
  cluster_centroid [0; 1; 2; 3]%nat TieScene.pointfn TieScene.dist_xy
  = Some 2%Z
  /\ exact 1%nat = exact 2%nat
  /\ exact 1%nat < exact 0%nat
  /\ exact 1%nat < exact 3%nat.
Proof.
  intros exact. split; [ vm_compute; reflexivity | ].
  unfold exact, dist_sum. cbn [length sum_below Nat.eqb nth].
  eval_doubles.
  repeat split; lra.
Qed.

(** ** Cancellation *)

Lemma filter_point_overhang (cfg : SupportConfig) (mesh : EigenMesh3D)
    (hp : Vec3d) :
  filter_point (H := overhang) cfg mesh hp down
  = ToHead hp (corrected_normal down).
Proof.
  apply (filter_point_kept (H := overhang) cfg mesh hp down).
  - cbn [vz down]. rewrite acos_m1. pose proof PI_RGT_0. lra.
  - left. reflexivity.
Qed.

Lemma length_tree_volumes (stree : Impl.t) :
  length (tree_volumes stree) = volume_count stree.
Proof.
  unfold tree_volumes, volume_count.
  rewrite !length_app, !length_map.
  assert (Hfm : forall (A B : Type) (f g : A -> B) (l : list A),
             length (flat_map (fun x => [f x; g x]) l) = (2 * length l)%nat).
  { intros A B f g l. induction l as [|x l IH]; cbn; [ reflexivity | ].
    cbn in IH. rewrite IH. lia. }
  rewrite !Hfm. lia.
Qed.

Section Cancellation.
Context `{Externals}.
Variables (fuel : nat) (cfg : SupportConfig).

Lemma generate_loop_stop (points : PointSet) (mesh : EigenMesh3D)
    (rest : list Cmd) (c : Control) (d : Data) (sts : list Status)
    (log : list Event) :
  loop_cond (pc c) = true ->
  generate_loop fuel cfg points mesh (STOP :: rest) c d sts log
  = Returned true d (sts ++ [status_of ABORT]) (log ++ []).
Proof.
  intros Hc. cbn [generate_loop]. rewrite Hc. cbn.
  destruct rest; reflexivity.
Qed.

(** C3, amended: a [STOP] ends [generate] with the result [true] and
    without running another stage, so the tree keeps what the stages
    before it have built; [add_sla_supports] does not look at that result:
    whenever [generate] returns it adds one object with one instance to the
    host model, with a volume for each head and each tail, each pillar and
    each base, each junction and each bridge of the tree. *)
Theorem stop_publishes_partial_tree (model : Model) :
  (forall points mesh rest c d sts log,
      loop_cond (pc c) = true ->
      generate_loop fuel cfg points mesh (STOP :: rest) c d sts log
      = Returned true d (sts ++ [status_of ABORT]) (log ++ []))
  /\ (forall ctl aborted d sts log,
         generate fuel Impl.empty model cfg ctl = Returned aborted d sts log ->
         add_sla_supports fuel model cfg ctl
         = Some (mkModel
                   (objects model
                    ++ [mkModelObject (tree_volumes (result d))
                                      [identity_instance] []]))
         /\ length (tree_volumes (result d)) = volume_count (result d)).
Proof.
  split; [ intros; now apply generate_loop_stop | ].
  intros ctl aborted d sts log Hgen.
  unfold add_sla_supports. rewrite Hgen.
  split; [ reflexivity | apply length_tree_volumes ].
Qed.
End Cancellation.

Lemma generate_stop_after_pinheads :
  exists d sts log,
    generate (H := overhang) 0 Impl.empty one_point_model standard_cfg
      [START_RESUME; START_RESUME; STOP]
    = Returned true d sts log
    /\ length (Impl.m_heads (result d)) = 1%nat
    /\ tree_volumes (result d) = [mesh_of token_contour; []].
Proof.
  unfold generate.
  change (read_rows (H := overhang) (support_points one_point_model))
    with [mkVec3d 0 0 10].
  set (mesh := to_eigenmesh one_point_model).
  cbn [generate_loop control_init loop_cond pc step_index Nat.ltb Nat.leb
       orb progress advance pc_prev program].
  rewrite (filterfn_verdicts (H := overhang)).
  change (filter_aliases (H := overhang) [mkVec3d 0 0 10])
    with [mkVec3d 0 0 10].
  change (filter_verdicts (H := overhang) standard_cfg mesh [mkVec3d 0 0 10]
            (normals [mkVec3d 0 0 10] mesh))
    with [filter_point (H := overhang) standard_cfg mesh (mkVec3d 0 0 10) down].
  rewrite filter_point_overhang.
  cbn [flat_map verdict_head verdict_normal verdict_headless app].
  do 3 eexists. split; [ reflexivity | ]. split; reflexivity.
Qed.

Lemma stop_publishes_partial_tree_witness :
  exists d,
    add_sla_supports (H := overhang) 0 one_point_model standard_cfg
      [START_RESUME; START_RESUME; STOP]
    = Some (mkModel
              (objects one_point_model
               ++ [mkModelObject (tree_volumes (result d))
                                 [identity_instance] []]))
    /\ length (tree_volumes (result d)) = 2%nat.
Proof.
  destruct generate_stop_after_pinheads as (d & sts & log & Hgen & Hheads & Hvol).
  destruct (stop_publishes_partial_tree (H := overhang) 0 standard_cfg
              one_point_model) as (_ & Hpub).
  destruct (Hpub _ _ _ _ _ Hgen) as (Hadd & Hlen).
  exists d. split; [ exact Hadd | ].
  rewrite Hvol. reflexivity.
Defined.

(** C3, as the claim states it: in the scene [overhang] the controller
    lets [FILTER] and [PINHEADS] run and then sends [STOP]; [generate]
    returns [true], and [add_sla_supports] still adds an object to the host
    model, with the mesh of the one head and its (still empty) tail as
    volumes. *)
Lemma stop_still_publishes_heads :
  exists d sts log o,
    generate (H := overhang) 0 Impl.empty one_point_model standard_cfg
      [START_RESUME; START_RESUME; STOP]
    = Returned true d sts log
    /\ add_sla_supports (H := overhang) 0 one_point_model standard_cfg
         [START_RESUME; START_RESUME; STOP]
       = Some (mkModel (objects one_point_model ++ [o]))
    /\ volumes o = [mesh_of token_contour; []]
    /\ volumes o <> [].
Proof.
  destruct generate_stop_after_pinheads as (d & sts & log & Hgen & _ & Hvol).
  exists d, sts, log,
    (mkModelObject (tree_volumes (result d)) [identity_instance] []).
  split; [ exact Hgen | ].
  split; [ unfold add_sla_supports; now rewrite Hgen | ].
  cbn [volumes]. rewrite Hvol. split; [ reflexivity | discriminate ].
Qed.

(** ** Routing of the side heads *)

Lemma junction_point_prepared `{Externals} (h : Head.t) (l r : R) :
  Head.junction_point (Head.add_tail (Head.transform h) l r)
  = Head.junction_point h
  /\ Head.junction_point (Head.transform (Head.add_tail h l r))
     = Head.junction_point h.
Proof. split; reflexivity. Qed.

Section SideHeads.
Context `{Externals}.
Variable cfg : SupportConfig.

(** A side head whose bridge lands above the ground gets a pillar, two
    junctions and a bridge between them; no ray is cast for it. *)
Lemma route_sidehead_bridge (jh : Vec3d) (s : RState) (hidx : nat)
    (h0 : Head.t) :
  nth_error (Impl.m_heads (rs_tree s)) hidx = Some h0 ->
  let jp := side_anchor h0 in
  let jn := side_landing cfg h0 jh in
  let sidehead := Head.add_tail (Head.transform h0) (-1) (-1) in
  let nj := length (Impl.m_junctions (rs_tree s)) in
  0 < vz jn ->
  exists s',
    route_sidehead cfg jh s hidx = (s', Completed)
    /\ rs_log s'
       = rs_log s
         ++ [EvJunction nj jp; EvJunction (S nj) jn;
             EvBridge jp jn
               (Head.request_pillar_radius h0 (pillar_radius_mm cfg))]
    /\ Impl.m_heads (rs_tree s')
       = set_nth hidx sidehead (Impl.m_heads (rs_tree s))
    /\ Impl.m_pillars (rs_tree s')
       = Impl.m_pillars (rs_tree s)
         ++ [Pillar.make hidx sidehead jp (pillar_radius_mm cfg)]
    /\ Impl.m_junctions (rs_tree s')
       = Impl.m_junctions (rs_tree s)
         ++ [Junction.make jp (head_back_radius_mm cfg) 45;
             Junction.make jn (head_back_radius_mm cfg) 45]
    /\ Impl.m_bridges (rs_tree s')
       = Impl.m_bridges (rs_tree s)
         ++ [Bridge.of_junctions
               (Junction.make jp (head_back_radius_mm cfg) 45)
               (Junction.make jn (head_back_radius_mm cfg) 45)
               (Head.request_pillar_radius h0 (pillar_radius_mm cfg))].
Proof.
  intros Hh jp jn sidehead nj Hz.
  unfold route_sidehead. rewrite Hh.
  change (Head.junction_point (Head.add_tail (Head.transform h0) (-1) (-1)))
    with (Head.junction_point h0).
  change (Head.fullwidth (Head.add_tail (Head.transform h0) (-1) (-1)))
    with (Head.fullwidth h0).
  fold (side_anchor h0). fold jp.
  change (mkVec3d (vx jh) (vy jh) (vz jp + dist_xy jp jh * sin (- tilt cfg)))
    with jn.
  rewrite (Rltb_true _ _ Hz).
  eexists. split; [ reflexivity | ].
  cbn [rs_log rs_tree rs_add_bridge rs_add_junction rs_add_pillar rs_set_head
       Impl.m_heads Impl.m_pillars Impl.m_junctions Impl.m_bridges
       Impl.add_bridge Impl.add_junction Impl.add_pillar Impl.set_head].
  rewrite <- !app_assoc. cbn [app].
  rewrite length_app. cbn [length]. rewrite Nat.add_1_r.
  repeat split; reflexivity.
Qed.
End SideHeads.

(** ** Stages on concrete scenes *)

Lemma corrected_normal_down : corrected_normal down = down.
Proof.
  unfold corrected_normal, down. cbn [vx vy vz].
  rewrite acos_m1.
  rewrite Rmax_left by (pose proof PI_RGT_0; lra).
  rewrite sin_PI, cos_PI. f_equal; ring.
Qed.

Lemma map_nth_seq {A} (l : list A) (dflt : A) :
  map (fun i => nth i l dflt) (seq 0 (length l)) = l.
Proof.
  induction l as [|x l IH]; [ reflexivity | ].
  cbn [length seq map nth]. f_equal.
  rewrite <- seq_shift, map_map. exact IH.
Qed.

Lemma filter_seq_all (f : nat -> bool) (n : nat) :
  (forall j, (j < n)%nat -> f j = true) -> filter f (seq 0 n) = seq 0 n.
Proof.
  intros Hf. apply forallb_filter_id. apply forallb_forall.
  intros j Hj. apply in_seq in Hj. apply Hf. lia.
Qed.

Lemma filter_seq_none (f : nat -> bool) (n : nat) :
  (forall j, (j < n)%nat -> f j = false) -> filter f (seq 0 n) = [].
Proof.
  intros Hf. induction n as [|n IH]; [ reflexivity | ].
  rewrite seq_S, filter_app, IH by (intros; apply Hf; lia).
  cbn. now rewrite Hf by lia.
Qed.

Section AllGrounded.
Context `{Externals}.
Variables (cfg : SupportConfig) (mesh : EigenMesh3D).

(** When no downward cast hits the mesh, [CLASSIFY] finds every head
    grounded and leaves the tree as it is. *)
Lemma classifyfn_all_grounded (d : Data) :
  head_heights d = [] -> ground_heads d = [] -> noground_heads d = [] ->
  length (head_positions d) = length (Impl.m_heads (result d)) ->
  (forall h, In h (Impl.m_heads (result d)) -> head_cast mesh h = NoHit) ->
  classifyfn cfg mesh d
  = mkData (filtered_points d) (filtered_normals d) (head_positions d)
           (headless_positions d)
           (repeat NoHit (length (head_positions d)))
           (seq 0 (length (head_positions d))) []
           (cluster (head_positions d)
              (fun p s =>
                 Rltb (distance2 (to_vec2 (fst p)) (to_vec2 (fst s)))
                      (4 * base_radius_mm cfg)) 4)
           (result d).
Proof.
  intros Hh Hg Hn Hlen Hcast. unfold classifyfn. rewrite Hh, Hg, Hn.
  rewrite classify_cast_fold by lia.
  set (n := length (head_positions d)) in *.
  set (heads := Impl.m_heads (result d)) in *.
  assert (Hc : forall j h, nth_error heads j = Some h -> head_cast mesh h = NoHit).
  { intros j h Hj. apply Hcast. eapply nth_error_In, Hj. }
  rewrite filter_seq_all, filter_seq_none.
  - cbn [fold_left].
    pose proof (map_nth_seq (head_positions d) unassigned_row) as Hm.
    fold n in Hm. rewrite Hm. f_equal.
    rewrite Hlen, firstn_all.
    clear -Hcast. induction heads as [|h l IH]; [ reflexivity | ].
    cbn. rewrite Hcast by now left. f_equal. apply IH.
    intros h' Hh'. apply Hcast. now right.
  - intros j Hj. destruct (nth_error heads j) as [h|] eqn:E; [ | reflexivity ].
    now rewrite (Hc j h E).
  - intros j Hj. destruct (nth_error heads j) as [h|] eqn:E.
    + now rewrite (Hc j h E).
    + apply nth_error_None in E. lia.
Qed.
End AllGrounded.

Lemma spike_ray_vertical (s : Vec3d) (y z : R) (m : EigenMesh3D) :
  ray_mesh_intersect (Externals := spike) s (mkVec3d 0 y z) m = NoHit.
Proof. cbn. destruct (Rlt_dec 0 0) as [L | _]; [ lra | reflexivity ]. Qed.

Lemma filter_point_spike (cfg : SupportConfig) (mesh : EigenMesh3D)
    (hp : Vec3d) :
  filter_point (H := spike) cfg mesh hp down = ToHead hp down.
Proof.
  rewrite <- corrected_normal_down at 2.
  apply (filter_point_kept (H := spike) cfg mesh hp down).
  - cbn [vz down]. rewrite acos_m1. pose proof PI_RGT_0. lra.
  - left. rewrite corrected_normal_down. apply spike_ray_vertical.
Qed.

Lemma spike_after_classify :
  let mesh := to_eigenmesh two_point_model in
  let h0 := Head.make (H := spike) (/ 2) (/ 4) 1 down (mkVec3d 0 0 10) 45 in
  let h1 := Head.make (H := spike) (/ 2) (/ 4) 1 down (mkVec3d 2 0 10) 45 in
  classifyfn (H := spike) tilt30_cfg mesh
    (pinheadfn (H := spike) tilt30_cfg
       (filterfn (H := spike) tilt30_cfg
          [mkVec3d 0 0 10; mkVec3d 2 0 10] mesh (data_init Impl.empty)))
  = mkData [mkVec3d 0 0 10; mkVec3d 2 0 10] [down; down]
           [mkVec3d 0 0 10; mkVec3d 2 0 10] [] [NoHit; NoHit]
           [0; 1]%nat [] [[0; 1]%nat]
           (Impl.mk [h0; h1] [] [] []).
Proof.
  intros mesh h0 h1.
  rewrite (filterfn_verdicts (H := spike)).
  change (filter_aliases (H := spike) [mkVec3d 0 0 10; mkVec3d 2 0 10])
    with [mkVec3d 0 0 10; mkVec3d 2 0 10].
  change (filter_verdicts (H := spike) tilt30_cfg mesh
            [mkVec3d 0 0 10; mkVec3d 2 0 10]
            (normals [mkVec3d 0 0 10; mkVec3d 2 0 10] mesh))
    with [filter_point (H := spike) tilt30_cfg mesh (mkVec3d 0 0 10) down;
          filter_point (H := spike) tilt30_cfg mesh (mkVec3d 2 0 10) down].
  rewrite !filter_point_spike.
  cbn [flat_map verdict_head verdict_normal verdict_headless app
       head_heights ground_heads noground_heads ground_connectors result
       data_init].
  rewrite (classifyfn_all_grounded (H := spike)); try reflexivity.
  intros h [<- | [<- | []]]; apply spike_ray_vertical.
Qed.

Lemma dist_xy_value (p q : Vec3d) (D : R) :
  0 <= D ->
  (vx q - vx p) * (vx q - vx p) + (vy q - vy p) * (vy q - vy p) = D * D ->
  dist_xy p q = D.
Proof.
  intros HD Hsq. unfold dist_xy, distance2, norm2. cbn [ux uy].
  rewrite Hsq. now apply sqrt_square.
Qed.

Lemma sin_minus_PI6 : sin (- (PI / 6)) = - (1 / 2).
Proof. now rewrite sin_neg, sin_PI6. Qed.

Lemma weave_single_ring `{Externals} (cfg : SupportConfig)
    (head_pos : PointSet) (gndidx : list nat) (emesh : EigenMesh3D)
    (fuel : nat) (idx : SpatIndex.t) (c : nat) (s : RState) :
  weave_rings cfg head_pos gndidx emesh fuel 1 idx [c] s = (s, Completed).
Proof.
  cbn -[Nat.ltb pts_convex_hull].
  change (pts_convex_hull fuel [c]
            (fun i => to_vec2 (gnd_head_pt head_pos gndidx i)))
    with (Some [c]).
  cbn -[Nat.ltb]. rewrite !Nat.ltb_irrefl. reflexivity.
Qed.

Lemma spike_routing :
  let mesh := to_eigenmesh two_point_model in
  let h0 := Head.make (H := spike) (/ 2) (/ 4) 1 down (mkVec3d 0 0 10) 45 in
  let h1 := Head.make (H := spike) (/ 2) (/ 4) 1 down (mkVec3d 2 0 10) 45 in
  let jp := side_anchor h1 in
  let jn := side_landing tilt30_cfg h1 (Head.junction_point h0) in
  exists s,
    routing_ground_fn (H := spike) tilt30_cfg
      [mkVec3d 0 0 10; mkVec3d 2 0 10] [0; 1]%nat mesh 1 [[0; 1]%nat]
      (Impl.mk [h0; h1] [] [] [])
    = (s, Completed)
    /\ rs_log s = [EvJunction 0 jp; EvJunction 1 jn; EvBridge jp jn (3 / 10)]
    /\ length (Impl.m_bridges (rs_tree s)) = 1%nat
    /\ vz jn = 9 / 2
    /\ dist_xy jp jn = 2.
Proof.
  intros mesh h0 h1 jp jn.
  assert (Hd : dist_xy jp (Head.junction_point h0) = 2).
  { apply dist_xy_value; [ lra | ]. cbn. ring. }
  assert (Hjn : vz jn = 9 / 2).
  { unfold jn, side_landing. cbn [vz tilt tilt30_cfg]. fold jp.
    rewrite Hd, sin_minus_PI6. unfold jp, side_anchor, Head.fullwidth.
    cbn. lra. }
  unfold routing_ground_fn.
  cbn -[route_sidehead Head.transform Head.add_tail Pillar.make
        Pillar.add_base weave_rings fill_index Head.junction_point].
  match goal with
  | |- context [route_sidehead ?c ?jh ?s0 1] =>
      destruct (route_sidehead_bridge (H := spike) c jh s0 1 h1 eq_refl)
        as (s' & Hrun & Hlog & _ & _ & _ & Hbr)
  end.
  { change (0 < vz jn). rewrite Hjn. lra. }
  rewrite Hrun. rewrite (weave_single_ring (H := spike)).
  exists s'. split; [ reflexivity | ].
  split; [ | split; [ | split ] ].
  - rewrite Hlog. cbn [rs_log rs_add_pillar rs_set_head app length
                       rs_tree Impl.m_junctions Impl.add_pillar Impl.set_head].
    do 3 f_equal.
    unfold Head.request_pillar_radius. cbn [Head.r_back_mm h1 Head.make
      pillar_radius_mm tilt30_cfg].
    rewrite !Rltb_true by lra. reflexivity.
  - rewrite Hbr. reflexivity.
  - exact Hjn.
  - apply dist_xy_value; [ lra | ]. cbn. ring.
Qed.

(** C4 in the scene [spike]: an undisturbed run of the planner ends
    normally with one bridge in the tree, from the anchor of the second
    head to the pillar of the first; the two ends are two millimetres
    apart in the plane, and the ray from the one to the other meets the
    mesh after half a millimetre.  [routing_ground_fn] casts no ray for
    the bridge of a side head: it only asks that the bridge land above the
    ground. *)
Theorem side_bridge_crosses_mesh :
  let mesh := to_eigenmesh two_point_model in
  let h1 := Head.make (H := spike) (/ 2) (/ 4) 1 down (mkVec3d 2 0 10) 45 in
  let jp := side_anchor h1 in
  let jn := side_landing tilt30_cfg h1 (mkVec3d 0 0 8) in
  exists d sts,
    generate (H := spike) 1 Impl.empty two_point_model tilt30_cfg run_through
    = Returned false d sts
        [EvJunction 0 jp; EvJunction 1 jn; EvBridge jp jn (3 / 10)]
    /\ length (Impl.m_bridges (result d)) = 1%nat
    /\ ray_mesh_intersect (Externals := spike) jp (normalized (vsub jn jp))
         mesh = Hit (/ 2)
    /\ / 2 < dist_xy jp jn.
Proof.
  intros mesh h1 jp jn.
  destruct spike_routing as (s & Hrun & Hlog & Hbr & Hjn & Hd).
  assert (Hjh : Head.junction_point
                  (Head.make (H := spike) (/ 2) (/ 4) 1 down
                             (mkVec3d 0 0 10) 45)
                = mkVec3d 0 0 8).
  { unfold Head.junction_point, Head.make, vadd, vscale, down. cbn.
    f_equal; lra. }
  rewrite Hjh in Hlog, Hjn, Hd. fold h1 jp jn in Hlog, Hjn, Hd.
  unfold generate, run_through.
  change (read_rows (H := spike) (support_points two_point_model))
    with [mkVec3d 0 0 10; mkVec3d 2 0 10].
  cbn [repeat generate_loop control_init loop_cond pc step_index Nat.ltb
       Nat.leb orb progress advance pc_prev program Steps_eqb Nat.eqb].
  pose proof spike_after_classify as Hcl. cbn zeta in Hcl.
  rewrite Hcl.
  cbn [head_positions ground_heads ground_connectors result].
  rewrite Hrun.
  cbn [with_result result app rs_log].
  exists (mkData [mkVec3d 0 0 10; mkVec3d 2 0 10] [down; down]
            [mkVec3d 0 0 10; mkVec3d 2 0 10] [] [NoHit; NoHit]
            [0; 1]%nat [] [[0; 1]%nat] (rs_tree s)).
  eexists. split; [ rewrite Hlog; reflexivity | ].
  split; [ exact Hbr | ].
  split; [ | rewrite Hd; lra ].
  assert (Hne : jp <> jn).
  { intros E. apply (f_equal vx) in E. cbn in E. lra. }
  pose proof (norm3_pos _ (vsub_neq_zero jp jn Hne)) as Hn.
  cbn [ray_mesh_intersect spike].
  destruct (Rlt_dec (vx (normalized (vsub jn jp))) 0) as [_ | N];
    [ reflexivity | ].
  exfalso. apply N. unfold normalized. cbn [vx vscale].
  apply Rinv_0_lt_compat in Hn.
  assert (Hx : vx (vsub jn jp) = -2) by (cbn; lra).
  rewrite Hx. nra.
Qed.

(** ** The log of the weaving *)

Lemma dist_xy_set_z (a b : Vec3d) (z : R) :
  dist_xy a (set_z b z) = dist_xy a b /\ dist_xy (set_z a z) b = dist_xy a b.
Proof. split; reflexivity. Qed.

(** Every loop body that only extends the log with events that satisfy
    [P] and keeps an invariant [I] gives a loop that does the same. *)
Lemma for_each_extends {S A} (lg : S -> list Event) (P : Event -> Prop)
    (I : S -> Prop) (body : S -> A -> S * Outcome) :
  (forall s x,
      I s ->
      exists evs,
        lg (fst (body s x)) = lg s ++ evs
        /\ Forall P evs /\ I (fst (body s x))) ->
  forall (l : list A) (s : S),
    I s ->
    exists evs,
      lg (fst (for_each body l s)) = lg s ++ evs
      /\ Forall P evs /\ I (fst (for_each body l s)).
Proof.
  intros Hbody. induction l as [|x l IH]; intros s Hs; cbn [for_each].
  - exists []. rewrite app_nil_r. auto.
  - destruct (Hbody s x Hs) as (evs1 & Hlog1 & Hok1 & Hs1).
    destruct (body s x) as [s1 o1]. cbn [fst] in *.
    destruct o1.
    + destruct (IH s1 Hs1) as (evs2 & Hlog2 & Hok2 & Hs2).
      exists (evs1 ++ evs2).
      rewrite Hlog2, Hlog1, app_assoc.
      split; [ reflexivity | split; [ now apply Forall_app | exact Hs2 ] ].
    + exists evs1. cbn [fst]. auto.
    + exists evs1. cbn [fst]. auto.
Qed.

Section WeavingLog.
Context `{Externals}.
Variables (cfg : SupportConfig) (head_pos : PointSet) (gndidx : list nat)
          (emesh : EigenMesh3D).
Variables (idx : SpatIndex.t) (n0 : nat).

Local Abbreviation ok := (weave_event_ok emesh idx n0).
Local Abbreviation inv :=
  (fun s : RState => (n0 <= length (Impl.m_junctions (rs_tree s)))%nat).

Lemma weave_loop_log (fuel : nat) (pillar nextpillar : Pillar.t)
    (pillar_dist nstartz : R) :
  forall (sj ej : Vec3d) (chkd : Dist) (s : RState),
    chkd = ray_mesh_intersect sj (normalized (vsub ej sj)) emesh ->
    pillar_dist = dist_xy sj ej ->
    inv s ->
    exists evs,
      rs_log (fst (weave_loop cfg emesh fuel pillar nextpillar pillar_dist
                     nstartz sj ej chkd s))
      = rs_log s ++ evs
      /\ Forall ok evs
      /\ inv (fst (weave_loop cfg emesh fuel pillar nextpillar pillar_dist
                     nstartz sj ej chkd s)).
Proof.
  induction fuel as [|fuel IH]; intros sj ej chkd s Hchk Hpd Hs;
    cbn [weave_loop].
  - exists []. rewrite app_nil_r. auto.
  - destruct (Rltb (vz (Pillar.endpoint nextpillar)) (vz ej)
              && Rltb (vz (Pillar.endpoint pillar)) (vz sj)).
    2:{ exists []. rewrite app_nil_r. auto. }
    set (s1 := if dist_geb chkd pillar_dist && Rltb (vz ej) nstartz
               then _ else s).
    assert (H1 : exists evs1,
               rs_log s1 = rs_log s ++ evs1 /\ Forall ok evs1 /\ inv s1).
    { unfold s1.
      destruct (dist_geb chkd pillar_dist) eqn:Hclear; cbn [andb].
      2:{ exists []. rewrite app_nil_r. auto. }
      destruct (Rltb (vz ej) nstartz).
      2:{ exists []. rewrite app_nil_r. auto. }
      eexists. cbn [rs_add_bridge rs_add_junction rs_log rs_tree
                    Impl.add_junction Impl.add_bridge Impl.m_junctions].
      rewrite <- !app_assoc. split; [ reflexivity | ].
      split.
      - repeat constructor; cbn [weave_event_ok].
        + exact Hs.
        + rewrite length_app. cbn. lia.
        + now rewrite <- Hchk, <- Hpd.
      - rewrite !length_app. cbn. lia. }
    destruct H1 as (evs1 & Hlog1 & Hok1 & Hs1).
    edestruct (IH ej (set_z sj (vz ej + pillar_dist * sin (- tilt cfg)))
                 _ s1 eq_refl) as (evs2 & Hlog2 & Hok2 & Hs2);
      [ | exact Hs1 | ].
    + rewrite Hpd. destruct (dist_xy_set_z ej sj
                               (vz ej + dist_xy sj ej * sin (- tilt cfg)))
        as [-> _].
      apply dist_xy_sym.
    + exists (evs1 ++ evs2). rewrite Hlog2, Hlog1, app_assoc.
      split; [ reflexivity | split; [ now apply Forall_app | exact Hs2 ] ].
Qed.

Lemma weave_edge_log (fuel : nat) (s : RState) (edge : nat * nat) :
  inv s ->
  exists evs,
    rs_log (fst (weave_edge cfg emesh fuel idx s edge)) = rs_log s ++ evs
    /\ Forall ok evs
    /\ inv (fst (weave_edge cfg emesh fuel idx s edge)).
Proof.
  intros Hs. destruct edge as [it next]. unfold weave_edge.
  destruct (nth_error (Impl.m_pillars (rs_tree s)) it) as [pillar|].
  2:{ exists []. rewrite app_nil_r. auto. }
  destruct (nth_error (Impl.m_pillars (rs_tree s)) next) as [nextpillar|].
  2:{ exists []. rewrite app_nil_r. auto. }
  set (pp := mkVec3d _ _ 0). set (d := 2 * Pillar.r pillar).
  set (juncs := SpatIndex.query _ idx).
  set (sq := mkRState (rs_tree s) (rs_log s ++ [EvQuery pp d juncs])).
  assert (Hq : ok (EvQuery pp d juncs)) by reflexivity.
  set (sj_opt := match juncs with [] => _ | _ :: _ => _ end).
  destruct sj_opt as [sj|];
    [ destruct (nth_error (Impl.m_heads (rs_tree s))
                  (Pillar.headref nextpillar)) as [nexthead|] | ].
  - set (pd := dist_xy sj (Pillar.endpoint nextpillar)).
    set (ej := set_z (Pillar.endpoint nextpillar)
                 (vz sj + pd * sin (- tilt cfg))).
    destruct (weave_loop_log fuel pillar nextpillar pd
                (vz (Head.junction_point nexthead)) sj ej
                (ray_mesh_intersect sj (normalized (vsub ej sj)) emesh)
                sq eq_refl)
      as (evs & Hlog & Hok & Hinv); [ reflexivity | exact Hs | ].
    exists (EvQuery pp d juncs :: evs).
    rewrite Hlog. cbn [rs_log sq]. rewrite <- app_assoc.
    split; [ reflexivity | split; [ now constructor | exact Hinv ] ].
  - exists [EvQuery pp d juncs]. cbn [fst rs_log sq].
    split; [ reflexivity | split; [ now repeat constructor | exact Hs ] ].
  - exists [EvQuery pp d juncs]. cbn [fst rs_log sq].
    split; [ reflexivity | split; [ now repeat constructor | exact Hs ] ].
Qed.

Lemma weave_rings_log (fuel fuel_rings : nat) :
  forall (rem : ClusterEl) (s : RState),
    inv s ->
    exists evs,
      rs_log (fst (weave_rings cfg head_pos gndidx emesh fuel fuel_rings
                     idx rem s))
      = rs_log s ++ evs
      /\ Forall ok evs.
Proof.
  induction fuel_rings as [|fr IH]; intros rem s Hs.
  - exists []. rewrite app_nil_r. destruct rem; cbn; auto.
  - destruct rem as [|r0 rem]; [ exists []; rewrite app_nil_r; cbn; auto | ].
    cbn [weave_rings].
    destruct (pts_convex_hull fuel (sort (r0 :: rem)) _) as [ring|].
    2:{ exists []. rewrite app_nil_r. cbn. auto. }
    destruct (for_each_extends rs_log ok inv (weave_edge cfg emesh fuel idx)
                (fun s' x Hs' => weave_edge_log fuel s' x Hs')
                (combine ring (tl ring)) s Hs)
      as (evs1 & Hlog1 & Hok1 & Hs1).
    destruct (for_each (weave_edge cfg emesh fuel idx) _ s) as [s1 o1].
    cbn [fst] in *.
    destruct o1; [ | exists evs1; cbn [fst]; auto | exists evs1; cbn [fst]; auto ].
    destruct (IH (set_difference (sort (r0 :: rem)) (sort ring)) s1 Hs1)
      as (evs2 & Hlog2 & Hok2).
    exists (evs1 ++ evs2). rewrite Hlog2, Hlog1, app_assoc.
    split; [ reflexivity | now apply Forall_app ].
Qed.
End WeavingLog.

Section ClusterLog.
Context `{Externals}.
Variables (cfg : SupportConfig) (head_pos : PointSet) (gndidx : list nat).

Local Abbreviation quiet := (fun ev : Event => is_query ev = false).

Lemma route_sidehead_log (jh : Vec3d) (s : RState) (hidx : nat) :
  exists evs,
    rs_log (fst (route_sidehead cfg jh s hidx)) = rs_log s ++ evs
    /\ Forall quiet evs /\ True.
Proof.
  unfold route_sidehead.
  destruct (nth_error (Impl.m_heads (rs_tree s)) hidx) as [h0|].
  2:{ exists []. rewrite app_nil_r. auto. }
  destruct (Rltb 0 _).
  - eexists. cbn [fst rs_add_bridge rs_add_junction rs_add_pillar rs_set_head
                  rs_log]. rewrite <- !app_assoc.
    split; [ reflexivity | split; [ | exact I ] ].
    repeat constructor.
  - exists []. rewrite app_nil_r. cbn. auto.
Qed.

(** The loop over the clusters never queries the index. *)
Lemma route_cluster_log (st : RState * ClusterEl) (cl : ClusterEl) :
  exists evs,
    rs_log (fst (fst (route_cluster cfg head_pos gndidx st cl)))
    = rs_log (fst st) ++ evs
    /\ Forall quiet evs /\ True.
Proof.
  destruct st as [s cents]. unfold route_cluster.
  destruct (cluster_centroid cl _ _) as [c|].
  2:{ exists []. rewrite app_nil_r. cbn. auto. }
  destruct (if Z.ltb c 0 then None else nth_error cl (Z.to_nat c)) as [cen|].
  2:{ exists []. rewrite app_nil_r. cbn. auto. }
  destruct (nth_error (Impl.m_heads (rs_tree s)) (nth cen gndidx 0%nat))
    as [head0|].
  2:{ exists []. rewrite app_nil_r. cbn. auto. }
  match goal with
  | |- context [for_each ?body ?l ?s1] =>
      destruct (for_each_extends rs_log quiet (fun _ => True) body
                  (fun s' x _ => route_sidehead_log _ s' x) l s1 I)
        as (evs & Hlog & Hq & _);
      destruct (for_each body l s1) as [s2 o2]
  end.
  exists evs. cbn [fst] in *. auto.
Qed.
End ClusterLog.

Lemma fill_index_ids (junctions : list Junction.t) (se : SpatElement) :
  In se (fill_index junctions) -> (snd se < length junctions)%nat.
Proof.
  unfold fill_index, SpatIndex.insert, SpatIndex.empty.
  intros Hin.
  assert (Hgen : forall (l : list (nat * Junction.t)) (acc : SpatIndex.t),
             In se (fold_left
                      (fun idx (ej : nat * Junction.t) =>
                         idx ++ [(mkVec3d (vx (Junction.pos (snd ej)))
                                          (vy (Junction.pos (snd ej))) 0,
                                  fst ej)])
                      l acc) ->
             In se acc \/ In (snd se) (map fst l)).
  { induction l as [|x l IH]; intros acc Hse; cbn in *; [ now left | ].
    destruct (IH _ Hse) as [Hacc | Hl]; [ | now right; right ].
    apply in_app_or in Hacc. destruct Hacc as [Hacc | [<- | []]];
      [ now left | right; now left ]. }
  destruct (Hgen _ _ Hin) as [[] | Hl].
  apply in_map_iff in Hl. destruct Hl as ([i j] & Hi & Hij).
  apply in_combine_l, in_seq in Hij. cbn in Hi. lia.
Qed.

Section PrefilledIndex.
Context `{Externals}.
Variables (cfg : SupportConfig) (head_pos : PointSet) (gndidx : list nat)
          (emesh : EigenMesh3D) (fuel : nat).

(** C8, amended: the junction index of the ring weaving is filled once,
    after the clusters and before the first ring, and never again.  The
    loop over the clusters makes no query; every query of the weaving
    returns the junctions near the pillar among those that the clusters
    created for their side heads, and never a junction that the weaving
    itself created, for an earlier edge or an earlier ring. *)
Theorem weaving_queries_prefilled_index (gnd_clusters : ClusteredPoints)
    (res : Impl.t) (s0 : RState) (cents : ClusterEl) :
  for_each (route_cluster cfg head_pos gndidx) gnd_clusters
           (mkRState res [], [])
  = ((s0, cents), Completed) ->
  let idx0 := fill_index (Impl.m_junctions (rs_tree s0)) in
  let n0 := length (Impl.m_junctions (rs_tree s0)) in
  let s := fst (routing_ground_fn cfg head_pos gndidx emesh fuel
                  gnd_clusters res) in
  Forall (fun ev => is_query ev = false) (rs_log s0)
  /\ exists evs,
       rs_log s = rs_log s0 ++ evs
       /\ (forall pp d juncs,
              In (EvQuery pp d juncs) evs ->
              juncs = SpatIndex.query (near_pillar pp d) idx0
              /\ forall se, In se juncs -> In se idx0 /\ (snd se < n0)%nat)
       /\ (forall id pos, In (EvJunction id pos) evs -> (n0 <= id)%nat)
       /\ (forall id pos pp d juncs,
              In (EvJunction id pos) evs ->
              In (EvQuery pp d juncs) evs ->
              ~ In id (map snd juncs)).
Proof.
  intros Hfor idx0 n0 s.
  assert (Hquiet : Forall (fun ev => is_query ev = false) (rs_log s0)).
  { destruct (for_each_extends (fun st : RState * ClusterEl => rs_log (fst st))
                (fun ev => is_query ev = false) (fun _ => True)
                (route_cluster cfg head_pos gndidx)
                (fun st x _ => route_cluster_log cfg head_pos gndidx st x)
                gnd_clusters (mkRState res [], []) I)
      as (evs & Hlog & Hq & _).
    rewrite Hfor in Hlog. cbn in Hlog. now rewrite Hlog. }
  split; [ exact Hquiet | ].
  destruct (weave_rings_log cfg head_pos gndidx emesh idx0 n0 fuel fuel
              cents s0 (le_n _)) as (evs & Hlog & Hok).
  exists evs.
  assert (Hs : s = fst (weave_rings cfg head_pos gndidx emesh fuel fuel idx0
                          cents s0)).
  { unfold s, routing_ground_fn. now rewrite Hfor. }
  rewrite Hs. split; [ exact Hlog | ].
  rewrite Forall_forall in Hok.
  assert (Hq : forall pp d juncs,
             In (EvQuery pp d juncs) evs ->
             juncs = SpatIndex.query (near_pillar pp d) idx0
             /\ forall se, In se juncs -> In se idx0 /\ (snd se < n0)%nat).
  { intros pp d juncs Hin. specialize (Hok _ Hin). cbn in Hok.
    split; [ exact Hok | ].
    intros se Hse. rewrite Hok in Hse. apply filter_In in Hse.
    destruct Hse as [Hse _]. split; [ exact Hse | ].
    now apply fill_index_ids. }
  assert (Hj : forall id pos, In (EvJunction id pos) evs -> (n0 <= id)%nat).
  { intros id pos Hin. exact (Hok _ Hin). }
  split; [ exact Hq | split; [ exact Hj | ] ].
  intros id pos pp d juncs Hid Hqin Hmem.
  apply in_map_iff in Hmem. destruct Hmem as (se & Hse & Hin).
  destruct (Hq _ _ _ Hqin) as [_ Hlt].
  destruct (Hlt se Hin) as [_ Hlt'].
  specialize (Hj _ _ Hid). lia.
Qed.
End PrefilledIndex.

(** ** A row of three pillars *)

Lemma pillar_add_base_frame (p : Pillar.t) (h r : R) :
  Pillar.endpoint (Pillar.add_base p h r) = Pillar.endpoint p
  /\ Pillar.r (Pillar.add_base p h r) = Pillar.r p
  /\ Pillar.headref (Pillar.add_base p h r) = Pillar.headref p.
Proof.
  unfold Pillar.add_base. destruct (Rleb h 0); repeat split; reflexivity.
Qed.

Section OneBridge.
Context `{Externals}.
Variables (cfg : SupportConfig) (emesh : EigenMesh3D).

(** An edge between two pillars without junctions in the index, with room
    for exactly one bridge that no mesh obstructs: the index is queried,
    two junctions and the bridge are added. *)
Lemma weave_edge_one_bridge (fuel : nat) (idx : SpatIndex.t) (s : RState)
    (it next : nat) (pillar nextpillar : Pillar.t) (head nexthead : Head.t) :
  nth_error (Impl.m_pillars (rs_tree s)) it = Some pillar ->
  nth_error (Impl.m_pillars (rs_tree s)) next = Some nextpillar ->
  nth_error (Impl.m_heads (rs_tree s)) (Pillar.headref pillar) = Some head ->
  nth_error (Impl.m_heads (rs_tree s)) (Pillar.headref nextpillar)
  = Some nexthead ->
  let pp := mkVec3d (vx (Pillar.endpoint pillar))
                    (vy (Pillar.endpoint pillar)) 0 in
  let d := 2 * Pillar.r pillar in
  SpatIndex.query (near_pillar pp d) idx = [] ->
  let sj := Head.junction_point head in
  let drop := dist_xy sj (Pillar.endpoint nextpillar) * sin (- tilt cfg) in
  let ej := set_z (Pillar.endpoint nextpillar) (vz sj + drop) in
  vz (Pillar.endpoint nextpillar) < vz ej ->
  vz (Pillar.endpoint pillar) < vz sj ->
  ray_mesh_intersect sj (normalized (vsub ej sj)) emesh = NoHit ->
  vz ej < vz (Head.junction_point nexthead) ->
  vz ej + drop <= vz (Pillar.endpoint nextpillar) ->
  (2 <= fuel)%nat ->
  let hbr := head_back_radius_mm cfg in
  weave_edge cfg emesh fuel idx s (it, next)
  = (rs_add_bridge sj ej hbr (Pillar.r pillar)
       (rs_add_junction ej hbr
          (rs_add_junction sj hbr
             (mkRState (rs_tree s) (rs_log s ++ [EvQuery pp d []])))),
     Completed).
Proof.
  intros Hp Hnp Hh Hnh pp d Hq sj drop ej Hz1 Hz2 Hray Hz3 Hz4 Hfuel hbr.
  unfold weave_edge. rewrite Hp, Hnp. fold pp. fold d.
  change (SpatIndex.query
            (fun se : SpatElement => Rltb (distance3 pp (fst se)) d) idx)
    with (SpatIndex.query (near_pillar pp d) idx).
  rewrite Hq, Hh, Hnh. cbn [option_map].
  fold sj. fold drop. fold ej. rewrite Hray.
  destruct fuel as [|[|fuel']]; try lia.
  cbn [weave_loop].
  rewrite (Rltb_true _ _ Hz1), (Rltb_true _ _ Hz2), (Rltb_true _ _ Hz3).
  cbn [andb dist_geb].
  fold hbr.
  rewrite (Rltb_false (vz (Pillar.endpoint nextpillar))).
  - reflexivity.
  - cbn [vz set_z]. fold drop. exact Hz4.
Qed.
End OneBridge.

Ltac solve_cmp :=
  unfold ERR;
  repeat first [ rewrite Rabs_right by lra | rewrite Rabs_left by lra ];
  lra.

Ltac decide_cmp :=
  match goal with
  | |- context [Rltb ?a ?b] =>
      first [ rewrite (Rltb_true a b) by solve_cmp
            | rewrite (Rltb_false a b) by solve_cmp ]
  end.

(** Three points on the x axis are collinear for [orientation]. *)
Lemma orientation_flat (p q r : Vec2d) :
  uy p = 0 -> uy q = 0 -> uy r = 0 -> orientation p q r = 0%nat.
Proof.
  intros Hp Hq Hr. unfold orientation. rewrite Hp, Hq, Hr.
  rewrite Rltb_true; [ reflexivity | ].
  replace ((0 - 0) * (ux r - ux q) - (ux q - ux p) * (0 - 0)) with 0 by ring.
  rewrite Rabs_R0. unfold ERR. lra.
Qed.

Lemma wrap_next_flat (pts : list Vec2d) (p : nat) :
  Forall (fun v => uy v = 0) pts ->
  wrap_next pts p = ((p + 1) mod length pts)%nat.
Proof.
  intros Hflat. unfold wrap_next.
  assert (Hpt : forall i, uy (pt pts i) = 0).
  { intros i. unfold pt. destruct (nth_in_or_default i pts (mkVec2d 0 0))
      as [Hin | ->]; [ | reflexivity ].
    rewrite Forall_forall in Hflat. now apply Hflat. }
  generalize (seq 0 (length pts)) as l.
  generalize ((p + 1) mod length pts)%nat as q.
  intros q l. revert q. induction l as [|i l IH]; intros q; [ reflexivity | ].
  cbn [fold_left]. rewrite orientation_flat by apply Hpt.
  cbn [Nat.eqb]. apply IH.
Qed.

Lemma hull_of_row (fuel : nat) :
  (3 <= fuel)%nat ->
  pts_convex_hull fuel [0; 1; 2]%nat
    (fun i => to_vec2 (gnd_head_pt (H := overhang)
                         [mkVec3d 0 0 10; mkVec3d 10 0 10; mkVec3d 20 0 10]
                         [0; 1; 2]%nat i))
  = Some [0; 1; 2]%nat.
Proof.
  intros Hf. destruct fuel as [|[|[|fuel]]]; try lia.
  unfold pts_convex_hull.
  change (Nat.ltb (length [0; 1; 2]%nat) 3) with false. cbv iota.
  change (map _ [0; 1; 2]%nat)
    with [mkVec2d 0 0; mkVec2d 10 0; mkVec2d 20 0].
  set (pts := [mkVec2d 0 0; mkVec2d 10 0; mkVec2d 20 0]).
  assert (Hflat : Forall (fun v => uy v = 0) pts)
    by (repeat constructor).
  assert (Hl : leftmost pts = 0%nat).
  { unfold leftmost, pt, pts. cbn [length Nat.sub seq fold_left nth ux uy].
    repeat (decide_cmp; cbn [ux uy]). reflexivity. }
  rewrite Hl.
  cbn [wrap_loop]. rewrite !(wrap_next_flat pts) by exact Hflat.
  reflexivity.
Qed.

Lemma row_after_classify :
  let mesh := to_eigenmesh three_point_model in
  let pts := [mkVec3d 0 0 10; mkVec3d 10 0 10; mkVec3d 20 0 10] in
  classifyfn (H := overhang) tilt30_cfg mesh
    (pinheadfn (H := overhang) tilt30_cfg
       (filterfn (H := overhang) tilt30_cfg pts mesh (data_init Impl.empty)))
  = mkData pts [down; down; down] pts [] [NoHit; NoHit; NoHit]
           [0; 1; 2]%nat [] [[0]; [1]; [2]]%nat
           (Impl.mk [row_head 0; row_head 10; row_head 20] [] [] []).
Proof.
  intros mesh pts.
  rewrite (filterfn_verdicts (H := overhang)).
  change (filter_aliases (H := overhang) pts) with pts.
  change (filter_verdicts (H := overhang) tilt30_cfg mesh pts
            (normals pts mesh))
    with (map (fun p => filter_point (H := overhang) tilt30_cfg mesh p down)
              pts).
  cbn [map pts]. rewrite !filter_point_overhang, corrected_normal_down.
  cbn [flat_map verdict_head verdict_normal verdict_headless app
       head_heights ground_heads noground_heads ground_connectors result
       data_init].
  rewrite (classifyfn_all_grounded (H := overhang)); reflexivity.
Qed.

Lemma row_head_junction_point (x : R) :
  Head.junction_point (row_head_routed x) = mkVec3d x 0 8.
Proof.
  unfold row_head_routed, row_head, Head.junction_point, Head.transform,
    Head.add_tail, Head.make, vadd, vscale, down.
  cbn [Head.tr Head.dir Head.r_pin_mm Head.width_mm Head.r_back_mm vx vy vz].
  f_equal; lra.
Qed.

Lemma row_pillar_frame (i : nat) (x : R) :
  Pillar.endpoint (row_pillar i x) = mkVec3d x 0 0
  /\ Pillar.r (row_pillar i x) = 3 / 10
  /\ Pillar.headref (row_pillar i x) = i.
Proof.
  unfold row_pillar.
  destruct (pillar_add_base_frame
              (Pillar.make i (row_head_routed x)
                 (set_z (Head.junction_point (row_head_routed x)) 0) (3 / 10))
              1 1) as (-> & -> & ->).
  rewrite row_head_junction_point.
  split; [ reflexivity | split; [ | reflexivity ] ].
  unfold Pillar.make, Head.request_pillar_radius, row_head_routed, row_head.
  cbn [Pillar.r Head.r_back_mm Head.transform Head.add_tail Head.make].
  rewrite !Rltb_true by lra. reflexivity.
Qed.

(** The loop over the clusters, for three heads that each are a cluster
    of their own. *)
Lemma row_clusters :
  for_each
    (route_cluster (H := overhang) tilt30_cfg
       [mkVec3d 0 0 10; mkVec3d 10 0 10; mkVec3d 20 0 10] [0; 1; 2]%nat)
    [[0]; [1]; [2]]%nat
    (mkRState (Impl.mk [row_head 0; row_head 10; row_head 20] [] [] []) [],
     [])
  = ((mkRState
        (Impl.mk [row_head_routed 0; row_head_routed 10; row_head_routed 20]
                 [row_pillar 0 0; row_pillar 1 10; row_pillar 2 20] [] [])
        [],
      [0; 1; 2]%nat),
     Completed).
Proof. reflexivity. Qed.

(** An edge of the row, from the pillar at [x1] to the pillar ten
    millimetres further. *)
Lemma row_edge (emesh : EigenMesh3D) (fuel : nat) (s : RState)
    (it next : nat) (x1 x2 : R) :
  x2 - x1 = 10 -> (2 <= fuel)%nat ->
  nth_error (Impl.m_pillars (rs_tree s)) it = Some (row_pillar it x1) ->
  nth_error (Impl.m_pillars (rs_tree s)) next = Some (row_pillar next x2) ->
  nth_error (Impl.m_heads (rs_tree s)) it = Some (row_head_routed x1) ->
  nth_error (Impl.m_heads (rs_tree s)) next = Some (row_head_routed x2) ->
  weave_edge (H := overhang) tilt30_cfg emesh fuel [] s (it, next)
  = (rs_add_bridge (H := overhang) (mkVec3d x1 0 8) (mkVec3d x2 0 3)
       (/ 2) (3 / 10)
       (rs_add_junction (H := overhang) (mkVec3d x2 0 3) (/ 2)
          (rs_add_junction (H := overhang) (mkVec3d x1 0 8) (/ 2)
             (mkRState (rs_tree s)
                (rs_log s ++ [EvQuery (mkVec3d x1 0 0) (3 / 5) []])))),
     Completed).
Proof.
  intros Hx Hfuel Hp Hnp Hh Hnh.
  destruct (row_pillar_frame it x1) as (He1 & Hr1 & Hf1).
  destruct (row_pillar_frame next x2) as (He2 & Hr2 & Hf2).
  assert (Hd : dist_xy (mkVec3d x1 0 8) (mkVec3d x2 0 0) = 10).
  { apply dist_xy_value; [ lra | ]. cbn [vx vy]. rewrite Hx. ring. }
  rewrite (weave_edge_one_bridge (H := overhang) tilt30_cfg emesh fuel [] s
             it next (row_pillar it x1) (row_pillar next x2)
             (row_head_routed x1) (row_head_routed x2));
    rewrite ?Hf1, ?Hf2, ?He1, ?He2, ?Hr1, ?row_head_junction_point, ?Hd;
    cbn [tilt tilt30_cfg head_back_radius_mm vx vy vz set_z];
    rewrite ?sin_minus_PI6;
    try assumption; try reflexivity; try lra.
  replace (2 * (3 / 10)) with (3 / 5) by lra.
  replace (8 + 10 * - (1 / 2)) with 3 by lra.
  reflexivity.
Qed.

Lemma row_routing (emesh : EigenMesh3D) :
  exists s,
    routing_ground_fn (H := overhang) tilt30_cfg
      [mkVec3d 0 0 10; mkVec3d 10 0 10; mkVec3d 20 0 10] [0; 1; 2]%nat
      emesh 5 [[0]; [1]; [2]]%nat
      (Impl.mk [row_head 0; row_head 10; row_head 20] [] [] [])
    = (s, Completed)
    /\ rs_log s = row_log
    /\ length (Impl.m_junctions (rs_tree s)) = 4%nat.
Proof.
  unfold routing_ground_fn. rewrite row_clusters.
  cbn [rs_tree Impl.m_junctions].
  change (fill_index []) with (@nil SpatElement).
  cbn [weave_rings].
  change (sort [0; 1; 2]%nat) with [0; 1; 2]%nat.
  rewrite hull_of_row by lia.
  cbn [combine tl for_each].
  rewrite (row_edge emesh 5 _ 0 1 0 10); try reflexivity; try lra; try lia.
  rewrite (row_edge emesh 5 _ 1 2 10 20); try reflexivity; try lra; try lia.
  change (set_difference [0; 1; 2]%nat (sort [0; 1; 2]%nat))
    with (@nil nat).
  eexists. split; [ reflexivity | ]. split; reflexivity.
Qed.

Lemma row_generate :
  exists d sts,
    generate (H := overhang) 5 Impl.empty three_point_model tilt30_cfg
      run_through
    = Returned false d sts row_log
    /\ length (Impl.m_junctions (result d)) = 4%nat.
Proof.
  destruct (row_routing (to_eigenmesh three_point_model))
    as (s & Hrun & Hlog & Hlen).
  unfold generate, run_through.
  change (read_rows (H := overhang) (support_points three_point_model))
    with [mkVec3d 0 0 10; mkVec3d 10 0 10; mkVec3d 20 0 10].
  cbn [repeat generate_loop control_init loop_cond pc step_index Nat.ltb
       Nat.leb orb progress advance pc_prev program Steps_eqb Nat.eqb].
  pose proof row_after_classify as Hcl. cbn zeta in Hcl. rewrite Hcl.
  cbn [head_positions ground_heads ground_connectors result].
  rewrite Hrun.
  cbn [with_result result app rs_log]. rewrite Hlog.
  do 2 eexists. split; [ reflexivity | exact Hlen ].
Qed.

(** C8, as the claim states it: in an undisturbed run on three support
    points in a row, the weaving of the edge from the first pillar to the
    second creates the junction 1 on the second pillar, at [(10, 0, 3)];
    the query that follows, for the junctions within 0.6 of the second
    pillar, returns nothing. *)
Lemma weaving_junction_missed_by_query :
  exists d sts log,
    generate (H := overhang) 5 Impl.empty three_point_model tilt30_cfg
      run_through
    = Returned false d sts log
    /\ log = row_log
    /\ ~ queries_see_created_junctions log.
Proof.
  destruct row_generate as (d & sts & Hgen & _).
  exists d, sts, row_log. split; [ exact Hgen | split; [ reflexivity | ] ].
  intros Hsee.
  specialize (Hsee
    [EvQuery (mkVec3d 0 0 0) (3 / 5) [];
     EvJunction 0 (mkVec3d 0 0 8);
     EvJunction 1 (mkVec3d 10 0 3);
     EvBridge (mkVec3d 0 0 8) (mkVec3d 10 0 3) (3 / 10)]
    [EvJunction 2 (mkVec3d 10 0 8);
     EvJunction 3 (mkVec3d 20 0 3);
     EvBridge (mkVec3d 10 0 8) (mkVec3d 20 0 3) (3 / 10)]
    (mkVec3d 10 0 0) (3 / 5) [] eq_refl 1%nat (mkVec3d 10 0 3)).
  apply Hsee.
  - right. right. left. reflexivity.
  - unfold near_pillar, distance3, norm3, vsub, vdot. cbn [fst vx vy vz].
    apply Rltb_true.
    replace ((10 - 10) * (10 - 10) + (0 - 0) * (0 - 0) + (0 - 0) * (0 - 0))
      with 0 by ring.
    rewrite sqrt_0. lra.
Qed.

Lemma weaving_queries_prefilled_index_witness :
  exists evs,
    rs_log (fst (routing_ground_fn (H := overhang) tilt30_cfg
                   [mkVec3d 0 0 10; mkVec3d 10 0 10; mkVec3d 20 0 10]
                   [0; 1; 2]%nat (mkEigenMesh3D [] []) 5
                   [[0]; [1]; [2]]%nat
                   (Impl.mk [row_head 0; row_head 10; row_head 20] [] [] [])))
    = evs
    /\ forall pp d juncs, In (EvQuery pp d juncs) evs -> juncs = [].
Proof.
  destruct (weaving_queries_prefilled_index (H := overhang) tilt30_cfg
              [mkVec3d 0 0 10; mkVec3d 10 0 10; mkVec3d 20 0 10]
              [0; 1; 2]%nat (mkEigenMesh3D [] []) 5 [[0]; [1]; [2]]%nat
              (Impl.mk [row_head 0; row_head 10; row_head 20] [] [] [])
              _ _ row_clusters)
    as (_ & evs & Hlog & Hq & _).
  exists evs. split; [ exact Hlog | ].
  intros pp d juncs Hin. destruct (Hq pp d juncs Hin) as [-> _]. reflexivity.
Defined.

(** ** Radii, tails, pillars and bases *)

(** X1: for a head with a positive back radius,
    [Head::request_pillar_radius] returns a radius strictly between 0 and
    the back radius: the requested one when it lies strictly between the
    two, and 0.65 times the back radius otherwise. *)
Theorem request_pillar_radius_range (h : Head.t) (radius : R) :
  0 < Head.r_back_mm h ->
  let r := Head.request_pillar_radius h radius in
  0 < r < Head.r_back_mm h
  /\ (0 < radius < Head.r_back_mm h -> r = radius)
  /\ (radius <= 0 \/ Head.r_back_mm h <= radius ->
      r = Head.r_back_mm h * 0.65).
Proof.
  intros Hb r. subst r. unfold Head.request_pillar_radius.
  unfold Rltb.
  destruct (Rlt_dec 0 radius) as [H0 | H0],
           (Rlt_dec radius (Head.r_back_mm h)) as [H1 | H1]; cbn;
    (split; [ lra | split; intros; lra ]).
Qed.

Lemma request_pillar_radius_range_witness :
  0 < Head.request_pillar_radius (row_head 0) (3 / 10) < / 2.
Proof.
  apply (request_pillar_radius_range (row_head 0) (3 / 10)).
  cbn. lra.
Defined.

Lemma facet_in_range_mono (n m : nat) (f : Vec3crd) :
  (n <= m)%nat -> facet_in_range n f -> facet_in_range m f.
Proof.
  destruct f as [[i j] k]. unfold facet_in_range. lia.
Qed.

Lemma length_ring_points (steps : nat) (cx cy r z : R) :
  length (ring_points steps cx cy r z) = steps.
Proof.
  unfold ring_points. rewrite length_map, length_seq. reflexivity.
Qed.

Lemma ring_points_on_ring (steps : nat) (cx cy r z : R) :
  Forall (on_ring cx cy r z) (ring_points steps cx cy r z).
Proof.
  unfold ring_points. apply Forall_forall. intros p Hp.
  apply in_map_iff in Hp. destruct Hp as (i & <- & _).
  unfold on_ring. cbn. split; [ | reflexivity ].
  pose proof (sin2_cos2 (INR i * (2 * PI / INR steps))) as Hsc.
  unfold Rsqr in Hsc. nra.
Qed.

Lemma length_band_indices (steps : nat) :
  (1 <= steps)%nat -> length (band_indices steps) = (2 * steps)%nat.
Proof.
  intros Hs. unfold band_indices. rewrite length_app.
  rewrite (flat_map_constant_length (c := 2%nat)) by reflexivity.
  rewrite length_seq. cbn. lia.
Qed.

Lemma band_indices_in_range (steps : nat) :
  (1 <= steps)%nat ->
  Forall (facet_in_range (2 * steps)) (band_indices steps).
Proof.
  intros Hs. unfold band_indices. apply Forall_app. split.
  - apply Forall_flat_map. apply Forall_forall. intros i Hi.
    apply in_seq in Hi. repeat constructor; lia.
  - repeat constructor; lia.
Qed.

(** The tail that [Head::add_tail] builds on a head whose tail is still
    empty. *)
Lemma add_tail_fresh (h : Head.t) (len radius : R) :
  Tail.mesh (Head.tail h) = empty_contour ->
  let ha := Head.add_tail h len radius in
  let c := Head.junction_point h in
  let n := Head.steps h in
  Tail.mesh (Head.tail ha)
  = mkContour3D
      (ring_points n (vx c) (vy c) (Head.r_back_mm h * 0.9) (vz c)
       ++ ring_points n (vx c) (vy c) (Head.request_pillar_radius h radius)
            (vz c - Tail.length (Head.tail ha)))
      (band_indices n).
Proof.
  intros Hfresh ha c n.
  assert (Hc : vadd (Head.tr h)
                 (vscale (Head.r_back_mm h + 2 * Head.r_pin_mm h
                          + Head.width_mm h) (Head.dir h)) = c).
  { unfold c, Head.junction_point. f_equal. f_equal. ring. }
  unfold ha, Head.add_tail. cbn [Head.tail Tail.mesh Tail.length].
  rewrite Hfresh, Hc. reflexivity.
Qed.

(** X2: [Head::add_tail] on a head whose tail is still empty builds a
    closed band of [2 * steps] vertices and [2 * steps] triangles whose
    indices are all valid: an upper ring of radius [0.9 * r_back] around the
    junction point of the head and a lower ring of the radius that
    [request_pillar_radius] grants, one tail length below; the tail length
    becomes the argument only when that is positive. *)
Theorem add_tail_mesh (h : Head.t) (len radius : R) :
  Tail.mesh (Head.tail h) = empty_contour ->
  (1 <= Head.steps h)%nat ->
  let ha := Head.add_tail h len radius in
  let m := Tail.mesh (Head.tail ha) in
  let c := Head.junction_point h in
  let n := Head.steps h in
  Tail.length (Head.tail ha)
  = (if Rlt_dec 0 len then len else Tail.length (Head.tail h))
  /\ length (points m) = (2 * n)%nat
  /\ length (indices m) = (2 * n)%nat
  /\ indices_in_range m
  /\ Forall (on_ring (vx c) (vy c) (Head.r_back_mm h * 0.9) (vz c))
            (firstn n (points m))
  /\ Forall (on_ring (vx c) (vy c) (Head.request_pillar_radius h radius)
                     (vz c - Tail.length (Head.tail ha)))
            (skipn n (points m)).
Proof.
  intros Hfresh Hs ha m c n.
  pose proof (add_tail_fresh h len radius Hfresh) as Hm.
  cbv zeta in Hm. fold ha c n m in Hm.
  split.
  { unfold ha, Head.add_tail, Rltb. cbn [Head.tail Tail.length].
    destruct (Rlt_dec 0 len); reflexivity. }
  rewrite Hm. unfold indices_in_range. cbn [points indices].
  rewrite length_app, !length_ring_points.
  rewrite firstn_app, skipn_app, !length_ring_points, Nat.sub_diag.
  rewrite firstn_all2 by (rewrite length_ring_points; lia).
  rewrite skipn_all2 by (rewrite length_ring_points; lia).
  cbn [firstn skipn app]. rewrite app_nil_r.
  replace (n + n)%nat with (2 * n)%nat by lia.
  repeat split.
  - apply length_band_indices; exact Hs.
  - apply band_indices_in_range; exact Hs.
  - apply ring_points_on_ring.
  - apply ring_points_on_ring.
Qed.

Lemma add_tail_mesh_witness :
  length (points (Tail.mesh (Head.tail (Head.add_tail (row_head 0) (-1) (-1)))))
  = 90%nat.
Proof.
  apply (add_tail_mesh (row_head 0) (-1) (-1)).
  - reflexivity.
  - cbn. lia.
Defined.

(** X3: a pillar built for a head whose tail was just added has
    [2 * steps] vertices and triangles with valid indices.  Its top ring is
    the lower ring of the tail and its bottom ring the same ring at the
    height of the end point: the mesh is centred under the junction point of
    the head and has the radius that was granted to [add_tail], whatever the
    [x] and [y] of the end point and the radius argument of the constructor
    are; the field [r] is what [request_pillar_radius] grants for that
    argument, and the pillar has no base. *)
Theorem pillar_mesh_under_tail (idx : nat) (h : Head.t) (len tail_radius : R)
    (endp : Vec3d) (radius : R) :
  Tail.mesh (Head.tail h) = empty_contour ->
  (1 <= Head.steps h)%nat ->
  let ha := Head.add_tail h len tail_radius in
  let p := Pillar.make idx ha endp radius in
  let c := Head.junction_point h in
  let n := Head.steps h in
  Pillar.r p = Head.request_pillar_radius h radius
  /\ Pillar.endpoint p = endp
  /\ Pillar.has_base p = false
  /\ length (points (Pillar.mesh p)) = (2 * n)%nat
  /\ length (indices (Pillar.mesh p)) = (2 * n)%nat
  /\ indices_in_range (Pillar.mesh p)
  /\ firstn n (points (Pillar.mesh p))
     = skipn n (points (Tail.mesh (Head.tail ha)))
  /\ Forall (on_ring (vx c) (vy c)
                     (Head.request_pillar_radius h tail_radius) (vz endp))
            (skipn n (points (Pillar.mesh p))).
Proof.
  intros Hfresh Hs ha p c n.
  pose proof (add_tail_fresh h len tail_radius Hfresh) as Hm.
  cbv zeta in Hm. fold ha c n in Hm.
  assert (Hskip : skipn n (points (Tail.mesh (Head.tail ha)))
                  = ring_points n (vx c) (vy c)
                      (Head.request_pillar_radius h tail_radius)
                      (vz c - Tail.length (Head.tail ha))).
  { rewrite Hm. cbn [points].
    rewrite skipn_app, length_ring_points, Nat.sub_diag.
    rewrite skipn_all2 by (rewrite length_ring_points; lia).
    reflexivity. }
  assert (Hlow : Forall (on_ring (vx c) (vy c)
                           (Head.request_pillar_radius h tail_radius)
                           (vz c - Tail.length (Head.tail ha)))
                        (skipn n (points (Tail.mesh (Head.tail ha)))))
    by (rewrite Hskip; apply ring_points_on_ring).
  set (low := skipn n (points (Tail.mesh (Head.tail ha)))) in *.
  assert (Hll : length low = n)
    by (rewrite Hskip; apply length_ring_points).
  assert (Hp : Pillar.mesh p
               = mkContour3D
                   (low ++ map (fun s => mkVec3d (vx s) (vy s) (vz endp)) low)
                   (band_indices n)) by reflexivity.
  split; [ reflexivity | ]. split; [ reflexivity | ].
  split; [ reflexivity | ].
  rewrite Hp. unfold indices_in_range. cbn [points indices].
  rewrite length_app, length_map, Hll.
  rewrite firstn_app, skipn_app, Hll, Nat.sub_diag.
  rewrite firstn_all2 by lia. rewrite skipn_all2 by lia.
  cbn [firstn skipn app]. rewrite app_nil_r.
  replace (n + n)%nat with (2 * n)%nat by lia.
  repeat split.
  - apply length_band_indices; exact Hs.
  - apply band_indices_in_range; exact Hs.
  - apply Forall_map. revert Hlow. apply Forall_impl.
    intros s [Hxy _]. split; [ exact Hxy | reflexivity ].
Qed.

Lemma pillar_mesh_under_tail_witness :
  length (points (Pillar.mesh
                    (Pillar.make 0 (Head.add_tail (row_head 0) (-1) (-1))
                                 (mkVec3d 0 0 0) (3 / 10))))
  = 90%nat.
Proof.
  apply (pillar_mesh_under_tail 0 (row_head 0) (-1) (-1) (mkVec3d 0 0 0)
           (3 / 10)).
  - reflexivity.
  - cbn. lia.
Defined.

Lemma has_base_false (p : Pillar.t) :
  Pillar.base p = empty_contour -> Pillar.has_base p = false.
Proof. unfold Pillar.has_base. intros ->. reflexivity. Qed.

(** X4: [Pillar::add_base] on a pillar without a base.  With a height of
    0 or less it changes nothing.  With a positive height it leaves the
    pillar's own mesh, radius and end point alone and builds a base of
    [2 * steps + 2] vertices and [4 * steps] triangles with valid indices:
    an upper ring of the pillar's radius [height] above the end point, a
    lower ring at the end point whose radius is the requested one but never
    less than the pillar's, and the two centres. *)
Theorem add_base_mesh (p : Pillar.t) (height radius : R) :
  Pillar.base p = empty_contour ->
  (1 <= Pillar.steps p)%nat ->
  let q := Pillar.add_base p height radius in
  let e := Pillar.endpoint p in
  let n := Pillar.steps p in
  let pts := points (Pillar.base q) in
  (height <= 0 -> q = p /\ Pillar.has_base q = false)
  /\ (0 < height ->
      Pillar.has_base q = true
      /\ (Pillar.mesh q, Pillar.r q, Pillar.steps q, Pillar.endpoint q,
          Pillar.headref q)
         = (Pillar.mesh p, Pillar.r p, Pillar.steps p, Pillar.endpoint p,
            Pillar.headref p)
      /\ length pts = (2 * n + 2)%nat
      /\ length (indices (Pillar.base q)) = (4 * n)%nat
      /\ indices_in_range (Pillar.base q)
      /\ Forall (on_ring (vx e) (vy e) (Pillar.r p) (vz e + height))
                (firstn n pts)
      /\ Forall (on_ring (vx e) (vy e) (Rmax radius (Pillar.r p)) (vz e))
                (firstn n (skipn n pts))
      /\ skipn (2 * n) pts = [e; set_z e (vz e + height)]).
Proof.
  intros Hfresh Hs q e n pts. split.
  - intros Hh. unfold q, Pillar.add_base.
    rewrite (Rleb_true _ _ Hh). split; [ reflexivity | ].
    apply has_base_false; exact Hfresh.
  - intros Hh.
    set (rad := if Rltb radius (Pillar.r p) then Pillar.r p else radius).
    assert (Hrad : rad = Rmax radius (Pillar.r p)).
    { unfold rad, Rltb, Rmax.
      destruct (Rlt_dec radius (Pillar.r p)), (Rle_dec radius (Pillar.r p));
        lra. }
    set (top := ring_points n (vx e) (vy e) (Pillar.r p) (vz e + height)).
    set (bot := ring_points n (vx e) (vy e) rad (vz e + height - height)).
    assert (Hq : q = Pillar.mk (Pillar.mesh p)
                       (mkContour3D
                          (top ++ bot ++ [e; set_z e (vz e + height)])
                          (flat_map
                             (fun i : nat =>
                                let i := Z.of_nat i in
                                let offs := Z.of_nat n in
                                let hcenter :=
                                  (Z.of_nat (length
                                     (top ++ bot
                                      ++ [e; set_z e (vz e + height)])) - 1)%Z
                                in
                                let lcenter :=
                                  (Z.of_nat (length
                                     (top ++ bot
                                      ++ [e; set_z e (vz e + height)])) - 2)%Z
                                in
                                [ (i, i + offs, offs + i + 1);
                                  (i, offs + i + 1, i + 1);
                                  (i, i + 1, hcenter);
                                  (lcenter, offs + i + 1, offs + i) ]%Z)
                             (seq 0 (n - 1))
                           ++ (let offs := Z.of_nat n in
                               let last := (Z.of_nat n - 1)%Z in
                               let hcenter :=
                                 (Z.of_nat (length
                                    (top ++ bot
                                     ++ [e; set_z e (vz e + height)])) - 1)%Z
                               in
                               let lcenter :=
                                 (Z.of_nat (length
                                    (top ++ bot
                                     ++ [e; set_z e (vz e + height)])) - 2)%Z
                               in
                               [ (0, last, offs); (last, offs + last, offs);
                                 (hcenter, last, 0);
                                 (offs, offs + last, lcenter) ]%Z)))
                       (Pillar.r p) n e (Pillar.headref p)).
    { unfold q, Pillar.add_base. rewrite (Rleb_false _ _ Hh).
      rewrite Hfresh. reflexivity. }
    assert (Hlt : length top = n) by apply length_ring_points.
    assert (Hlb : length bot = n) by apply length_ring_points.
    assert (Hlen : length (top ++ bot ++ [e; set_z e (vz e + height)])
                   = (2 * n + 2)%nat).
    { rewrite !length_app, Hlt, Hlb. cbn. lia. }
    subst pts. rewrite Hq. unfold indices_in_range.
    cbn [Pillar.base Pillar.mesh Pillar.r Pillar.steps Pillar.endpoint
         Pillar.headref points indices].
    rewrite Hlen.
    split.
    { unfold Pillar.has_base. cbn [Pillar.base points].
      destruct (top ++ bot ++ [e; set_z e (vz e + height)]) eqn:E;
        [ cbn in Hlen; lia | reflexivity ]. }
    split; [ reflexivity | ]. split; [ reflexivity | ].
    split.
    { rewrite length_app.
      rewrite (flat_map_constant_length (c := 4%nat)) by reflexivity.
      rewrite length_seq. cbn. lia. }
    split.
    { apply Forall_app. split.
      - apply Forall_flat_map. apply Forall_forall. intros i Hi.
        apply in_seq in Hi. repeat constructor; lia.
      - repeat constructor; lia. }
    split.
    { rewrite firstn_app, Hlt, Nat.sub_diag. cbn [firstn].
      rewrite app_nil_r, firstn_all2 by lia. apply ring_points_on_ring. }
    split.
    { rewrite skipn_app, Hlt, Nat.sub_diag. cbn [skipn].
      rewrite skipn_all2 by lia. cbn [app].
      rewrite firstn_app, Hlb, Nat.sub_diag. cbn [firstn].
      rewrite app_nil_r, firstn_all2 by lia.
      rewrite <- Hrad.
      eapply Forall_impl; [ | apply ring_points_on_ring ].
      intros a [Ha Hz]. split; [ exact Ha | rewrite Hz; ring ]. }
    rewrite app_assoc. rewrite skipn_app.
    rewrite skipn_all2 by (rewrite length_app; lia).
    rewrite length_app, Hlt, Hlb.
    replace (2 * n - (n + n))%nat with 0%nat by lia. reflexivity.
Qed.

Lemma add_base_mesh_witness :
  Pillar.has_base (row_pillar 0 0) = true.
Proof.
  unfold row_pillar.
  apply (add_base_mesh
           (Pillar.make 0 (row_head_routed 0)
              (set_z (Head.junction_point (row_head_routed 0)) 0) (3 / 10))
           1 1).
  - reflexivity.
  - cbn. lia.
  - lra.
Defined.

(** ** Cylinders and bridges as meshes *)

(** The loop over the ring always makes its first round, with [i = 0]. *)
Lemma ring_first (fa : Double.t) :
  exists rest, Double.ring fa = Double.zero :: rest.
Proof.
  unfold Double.ring, Double.ring_fuel.
  eexists. reflexivity.
Qed.

Lemma cylinder_fold_wf (r h : R) (l : list R) :
  forall c : Contour3D,
    (4 <= length (points c))%nat ->
    indices_in_range c ->
    let c' := fold_left (fun c i => cylinder_step r h i c) l c in
    length (points c') = (length (points c) + 2 * length l)%nat
    /\ length (indices c') = (length (indices c) + 4 * length l)%nat
    /\ indices_in_range c'.
Proof.
  induction l as [|i l IH]; intros c Hc Hwf; cbn [fold_left length].
  - repeat split; [ lia | lia | exact Hwf ].
  - set (c1 := cylinder_step r h i c).
    assert (Hp1 : length (points c1) = (length (points c) + 2)%nat).
    { unfold c1, cylinder_step. cbn [points]. rewrite length_app. cbn. lia. }
    assert (Hi1 : length (indices c1) = (length (indices c) + 4)%nat).
    { unfold c1, cylinder_step. cbn [indices]. rewrite length_app. cbn. lia. }
    assert (Hwf1 : indices_in_range c1).
    { unfold indices_in_range. rewrite Hp1.
      unfold c1, cylinder_step. cbn [indices points].
      rewrite length_app. cbn [length].
      apply Forall_app. split.
      - revert Hwf. unfold indices_in_range. apply Forall_impl.
        intros f. apply facet_in_range_mono. lia.
      - repeat constructor; lia. }
    destruct (IH c1 ltac:(lia) Hwf1) as (Hp & Hi & Hw).
    repeat split; [ lia | lia | exact Hw ].
Qed.

(** The mesh of a cylinder, by the number of rounds of its loop. *)
Lemma cylinder_mesh_counts (r h : R) (fa : Double.t) :
  let n := length (Double.ring fa) in
  let c := cylinder r h fa in
  (1 <= n)%nat
  /\ length (points c) = (2 * n + 4)%nat
  /\ length (indices c) = (4 * n + 4)%nat
  /\ indices_in_range c.
Proof.
  intros n c.
  assert (Hn : (1 <= n)%nat).
  { unfold n. destruct (ring_first fa) as (rest & ->). cbn [length]. lia. }
  split; [ exact Hn | ].
  unfold c, cylinder, cylinder_fuel, indices_in_range.
  change (Double.ring_loop (Double.ring_fuel fa) Double.zero
            (Double.step_angle fa)) with (Double.ring fa).
  set (l := map Double.to_R (Double.ring fa)).
  assert (Hl : length l = n) by (unfold l; apply length_map).
  set (c1 := mkContour3D
               (points (mkContour3D [mkVec3d 0 0 0; mkVec3d 0 0 h] [])
                ++ [mkVec3d (sin 0 * r) (cos 0 * r) 0;
                    mkVec3d (sin 0 * r) (cos 0 * r) h])
               (indices (mkContour3D [mkVec3d 0 0 0; mkVec3d 0 0 h] []))).
  destruct (cylinder_fold_wf r h l c1) as (Hp & Hi & Hw);
    [ cbn; lia | constructor | ].
  unfold c1 at 2 in Hp; unfold c1 at 2 in Hi.
  cbn [points indices length app] in Hp, Hi.
  cbn [points indices].
  split; [ rewrite Hp, Hl; lia | ].
  split; [ rewrite length_app, Hi, Hl; cbn; lia | ].
  rewrite Hp. apply Forall_app. split.
  - unfold indices_in_range in Hw. rewrite Hp in Hw. exact Hw.
  - destruct l as [|x l']; [ cbn in Hl; lia | ].
    repeat constructor; lia.
Qed.



Lemma cylinder_45_mesh (r h : R) :
  let c := cylinder r h (Double.circle_over 45) in
  length (points c) = 94%nat /\ length (indices c) = 184%nat
  /\ indices_in_range c.
Proof.
  destruct (cylinder_mesh_counts r h (Double.circle_over 45))
    as (_ & Hp & Hi & Hw).
  rewrite (proj1 ring_45) in Hp, Hi.
  repeat split; assumption.
Qed.

(** X6: the mesh of a bridge between two junctions, wherever they are and
    whatever its radius, has 94 vertices and 184 triangles, and every
    triangle refers to vertices of the mesh. *)
Theorem bridge_mesh_wellformed `{Externals} (j1 j2 : Junction.t) (r_mm : R) :
  let m := Bridge.mesh (Bridge.of_junctions j1 j2 r_mm) in
  length (points m) = 94%nat /\ length (indices m) = 184%nat
  /\ indices_in_range m.
Proof.
  intros m.
  destruct (cylinder_45_mesh r_mm
              (distance3 (Junction.pos j2) (Junction.pos j1)))
    as (Hp & Hi & Hw).
  unfold m, Bridge.of_junctions, indices_in_range, map_points in *.
  cbn [Bridge.mesh points indices]. rewrite length_map.
  rewrite Hp in *. repeat split; assumption.
Qed.

(** ** The mesh handed to the interrogator *)

Lemma nth_error_triples {A} (stl : list (A * A * A)) :
  forall (i : nat) (a b c : A),
    nth_error stl i = Some (a, b, c) ->
    let rows := flat_map (fun f : A * A * A =>
                            let '(a, b, c) := f in [a; b; c]) stl in
    nth_error rows (3 * i) = Some a
    /\ nth_error rows (3 * i + 1) = Some b
    /\ nth_error rows (3 * i + 2) = Some c.
Proof.
  induction stl as [|[[x y] z] stl IH]; intros i a b c Hi.
  - destruct i; discriminate.
  - destruct i as [|i].
    + cbn in Hi. injection Hi as -> -> ->. cbn. auto.
    + cbn [nth_error] in Hi. specialize (IH i a b c Hi).
      cbn [flat_map app].
      replace (3 * S i)%nat with (S (S (S (3 * i)))) by lia.
      cbn [Nat.add nth_error]. exact IH.
Qed.

Lemma length_triples {A} (stl : list (A * A * A)) :
  length (flat_map (fun f : A * A * A => let '(a, b, c) := f in [a; b; c]) stl)
  = (3 * length stl)%nat.
Proof.
  induction stl as [|[[x y] z] stl IH]; [ reflexivity | ].
  cbn [flat_map length app]. rewrite IH. lia.
Qed.

Lemma length_instances_mesh (insts : list ModelInstance) (m : TriangleMesh) :
  length (flat_map (fun inst => transform_mesh inst m) insts)
  = (length insts * length m)%nat.
Proof.
  induction insts as [|inst rest IH]; [ reflexivity | ].
  cbn [flat_map length]. rewrite length_app, IH.
  unfold transform_mesh. rewrite length_map. lia.
Qed.

Lemma length_combined_mesh (model : Model) :
  length (combined_mesh model)
  = list_sum (map (fun o => (length (instances o) * length (raw_mesh o))%nat)
                  (objects model)).
Proof.
  unfold combined_mesh. induction (objects model) as [|o os IH];
    [ reflexivity | ].
  cbn [flat_map map list_sum].
  rewrite length_app, IH, length_instances_mesh. reflexivity.
Qed.

(** X7: [to_eigenmesh(const Model&)] gives the interrogator one face row
    per facet of every instance of every object, and three vertex rows of
    its own per face: face [i] is [(3i, 3i+1, 3i+2)], and these rows of [V]
    hold the three vertices of facet [i] of the combined mesh, so that no
    vertex is shared between faces. *)
Theorem to_eigenmesh_rows (model : Model) :
  let m := to_eigenmesh model in
  let stl := combined_mesh model in
  length (F m) = length stl
  /\ length (V m) = (3 * length stl)%nat
  /\ length stl
     = list_sum (map (fun o => (length (instances o) * length (raw_mesh o))%nat)
                     (objects model))
  /\ forall i a b c,
       nth_error stl i = Some (a, b, c) ->
       nth_error (F m) i = Some (3 * i, 3 * i + 1, 3 * i + 2)%nat
       /\ nth_error (V m) (3 * i) = Some a
       /\ nth_error (V m) (3 * i + 1) = Some b
       /\ nth_error (V m) (3 * i + 2) = Some c.
Proof.
  intros m stl. unfold m, to_eigenmesh. fold stl. cbn [V F].
  split; [ rewrite length_map, length_seq; reflexivity | ].
  split; [ apply length_triples | ].
  split; [ apply length_combined_mesh | ].
  intros i a b c Hi. split; [ | apply nth_error_triples; exact Hi ].
  assert (Hlt : (i < length stl)%nat)
    by (apply nth_error_Some; rewrite Hi; discriminate).
  rewrite nth_error_map, nth_error_seq.
  destruct (Nat.ltb_spec i (length stl)) as [_ | C]; [ | lia ].
  cbn [option_map]. do 2 f_equal. rewrite Nat.add_0_l, Nat.add_0_r.
  reflexivity.
Qed.

Lemma to_eigenmesh_rows_witness :
  nth_error (V (to_eigenmesh one_point_model)) 1 = Some (mkVec3d 0 1 10).
Proof.
  destruct (to_eigenmesh_rows one_point_model) as (_ & _ & _ & Hrow).
  apply (Hrow 0%nat (mkVec3d (-1) (-1) 10) (mkVec3d 0 1 10)
              (mkVec3d 1 (-1) 10)).
  reflexivity.
Defined.

(** ** The rows of [support_points] *)

Lemma set_nth_split {A} (l : list A) (i : nat) (x : A) :
  (i < length l)%nat ->
  set_nth i x l = firstn i l ++ x :: skipn (S i) l.
Proof.
  revert i. induction l as [|y l IH]; intros i Hi; [ cbn in Hi; lia | ].
  destruct i as [|i]; [ reflexivity | ].
  cbn [set_nth firstn skipn app]. f_equal. apply IH. cbn in Hi. lia.
Qed.

Lemma write_instance_from (inst : ModelInstance) (pts : list Vec3d) :
  forall (i : nat) (ret : RawPointSet),
    (i + length pts <= length ret)%nat ->
    snd (fold_left
           (fun (st : nat * RawPointSet) msource =>
              let '(i, ret) := st in
              (S i, set_nth i (Some (model_coord inst msource)) ret))
           pts (i, ret))
    = firstn i ret ++ map (fun p => Some (model_coord inst p)) pts
      ++ skipn (i + length pts) ret.
Proof.
  induction pts as [|p pts IH]; intros i ret Hlen.
  - cbn [fold_left snd map length app]. rewrite Nat.add_0_r.
    symmetry. apply firstn_skipn.
  - cbn [fold_left length map] in *.
    rewrite IH by (rewrite length_set_nth; lia).
    rewrite set_nth_split by lia.
    set (x := Some (model_coord inst p)).
    set (L := firstn i ret). set (T := skipn (S i) ret).
    assert (HL : length L = i) by (unfold L; rewrite length_firstn; lia).
    assert (H1 : firstn (S i) (L ++ x :: T) = L ++ [x]).
    { replace (S i) with (length L + 1)%nat by lia.
      rewrite firstn_app_2. reflexivity. }
    assert (H2 : skipn (S i + length pts) (L ++ x :: T)
                 = skipn (i + S (length pts)) ret).
    { rewrite skipn_app, HL.
      rewrite skipn_all2 by lia. cbn [app].
      replace (S i + length pts - i)%nat with (S (length pts)) by lia.
      cbn [skipn]. unfold T. rewrite skipn_skipn. f_equal. lia. }
    rewrite H1, H2. rewrite <- app_assoc. reflexivity.
Qed.

(** One pass of the inner loop overwrites the first rows and keeps the
    others. *)
Lemma write_instance_rows (inst : ModelInstance) (pts : list Vec3d)
    (ret : RawPointSet) :
  (length pts <= length ret)%nat ->
  write_instance inst pts ret
  = map (fun p => Some (model_coord inst p)) pts ++ skipn (length pts) ret.
Proof.
  intros Hlen. unfold write_instance.
  rewrite write_instance_from by (cbn; lia). reflexivity.
Qed.

Lemma length_write_instance (inst : ModelInstance) (pts : list Vec3d)
    (ret : RawPointSet) :
  (length pts <= length ret)%nat ->
  length (write_instance inst pts ret) = length ret.
Proof.
  intros Hlen. rewrite write_instance_rows by exact Hlen.
  rewrite length_app, length_map, length_skipn. lia.
Qed.

Lemma support_points_passes (model : Model) :
  support_points model
  = fold_left (fun ret w => write_instance (fst w) (snd w) ret)
              (point_passes model)
              (repeat None (support_points_sum model)).
Proof.
  unfold support_points, point_passes.
  generalize (repeat (@None Vec3d) (support_points_sum model)).
  induction (objects model) as [|o os IH]; intros ret; [ reflexivity | ].
  cbn [fold_left flat_map]. rewrite fold_left_app, IH. f_equal.
  generalize ret. induction (instances o) as [|inst rest IHi]; intros r;
    [ reflexivity | ].
  cbn [fold_left map fst snd]. apply IHi.
Qed.

Lemma passes_fold_rows (k : nat) (passes : list (ModelInstance * list Vec3d)) :
  forall ret : RawPointSet,
    Forall (fun w => (length (snd w) <= length ret)%nat) passes ->
    let ret' := fold_left (fun ret w => write_instance (fst w) (snd w) ret)
                          passes ret in
    length ret' = length ret
    /\ nth_error ret' k
       = match last_pass k passes with
         | Some (inst, pts) =>
             option_map (fun p => Some (model_coord inst p)) (nth_error pts k)
         | None => nth_error ret k
         end.
Proof.
  induction passes as [|[inst pts] passes IH]; intros ret Hall.
  - cbn. auto.
  - inversion Hall as [|w ws Hw Hws]; subst. cbn [snd fst] in Hw.
    cbv zeta. cbn [fold_left fst snd].
    pose proof (length_write_instance inst pts ret Hw) as Hl.
    destruct (IH (write_instance inst pts ret)) as (Hlen & Hnth).
    { rewrite Hl. exact Hws. }
    split; [ lia | ].
    rewrite Hnth. cbn [last_pass snd].
    destruct (last_pass k passes) as [[inst' pts'] |]; [ reflexivity | ].
    rewrite write_instance_rows by exact Hw.
    destruct (Nat.ltb_spec k (length pts)) as [Hk | Hk].
    + rewrite nth_error_app1 by (rewrite length_map; exact Hk).
      rewrite nth_error_map. reflexivity.
    + rewrite nth_error_app2 by (rewrite length_map; exact Hk).
      rewrite length_map, nth_error_skipn. f_equal. lia.
Qed.

Lemma support_points_sum_from (os : list ModelObject) (n : nat) :
  fold_left (fun sum o =>
               (sum + length (instances o) * length (sla_support_points o))%nat)
            os n
  = (n + list_sum (map (fun o => (length (instances o)
                                  * length (sla_support_points o))%nat) os))%nat.
Proof.
  revert n. induction os as [|o os IH]; intros n; cbn -[Nat.mul];
    [ lia | ].
  rewrite IH. fold (list_sum (map (fun o => (length (instances o)
                                  * length (sla_support_points o))%nat) os)).
  lia.
Qed.

Lemma passes_fit (model : Model) :
  Forall (fun w => (length (snd w) <= support_points_sum model)%nat)
         (point_passes model).
Proof.
  unfold support_points_sum, point_passes.
  rewrite support_points_sum_from. cbn [Nat.add].
  induction (objects model) as [|o os IH]; [ constructor | ].
  cbn [flat_map map].
  change (list_sum (?a :: ?l)) with (a + list_sum l)%nat.
  apply Forall_app. split.
  - apply Forall_forall. intros w Hw. apply in_map_iff in Hw.
    destruct Hw as (inst & <- & Hin). cbn [snd].
    destruct (instances o) as [|i0 rest]; [ destruct Hin | ].
    cbn [length]. nia.
  - revert IH. apply Forall_impl. intros w Hw. lia.
Qed.

(** X8: [support_points] returns a matrix with one row per instance and
    support point of every object, but its row counter restarts at 0 for
    every instance: row [k] holds the support point number [k] of the last
    instance, in the order of the loops, of an object that has more than [k]
    support points, transformed by that instance, and is never assigned when
    no object with an instance has that many.  For a model of one object
    with one instance the rows are the transformed support points, in
    order. *)
Theorem support_points_rows (model : Model) :
  length (support_points model) = support_points_sum model
  /\ (forall k,
         (k < support_points_sum model)%nat ->
         nth_error (support_points model) k
         = Some match last_pass k (point_passes model) with
                | Some (inst, pts) =>
                    option_map (model_coord inst) (nth_error pts k)
                | None => None
                end)
  /\ (forall vols inst pts,
         support_points (mkModel [mkModelObject vols [inst] pts])
         = map (fun p => Some (model_coord inst p)) pts).
Proof.
  destruct (passes_fold_rows 0 (point_passes model)
              (repeat None (support_points_sum model))) as (Hlen & _).
  { rewrite repeat_length. apply passes_fit. }
  rewrite <- support_points_passes, repeat_length in Hlen.
  split; [ exact Hlen | ]. split.
  - intros k Hk.
    destruct (passes_fold_rows k (point_passes model)
                (repeat None (support_points_sum model))) as (_ & Hnth).
    { rewrite repeat_length. apply passes_fit. }
    rewrite <- support_points_passes in Hnth. rewrite Hnth.
    destruct (last_pass k (point_passes model)) as [[inst pts] |] eqn:E.
    + assert (Hin : (k < length pts)%nat).
      { clear - E. induction (point_passes model) as [|w ws IH];
          [ discriminate | ].
        cbn [last_pass] in E. destruct (last_pass k ws).
        - apply IH. exact E.
        - destruct (Nat.ltb_spec k (length (snd w))); [ | discriminate ].
          injection E as ->. assumption. }
      destruct (nth_error pts k) eqn:En; [ reflexivity | ].
      apply nth_error_None in En. lia.
    + rewrite (nth_error_nth' _ None)
        by (rewrite repeat_length; exact Hk).
      rewrite nth_repeat. reflexivity.
  - intros vols inst pts.
    unfold support_points, support_points_sum.
    cbn [objects fold_left instances sla_support_points length].
    rewrite write_instance_rows by (rewrite repeat_length; lia).
    rewrite skipn_all2 by (rewrite repeat_length; lia).
    apply app_nil_r.
Qed.

Lemma support_points_rows_witness :
  nth_error (support_points two_instances_model) 1 = Some None.
Proof.
  apply (support_points_rows two_instances_model). cbn. lia.
Defined.

(** ** The mesh of a contour for the interrogator *)

Lemma set_nth_fill {A} (l : list A) (n k : nat) (x : A) :
  nth_error l k = Some x -> (k < n)%nat ->
  set_nth k (Some x) (map Some (firstn k l) ++ repeat None (n - k))
  = map Some (firstn (S k) l) ++ repeat None (n - S k).
Proof.
  intros Hx Hk.
  assert (Hkl : (k < length l)%nat)
    by (apply nth_error_Some; rewrite Hx; discriminate).
  assert (Hlen : length (map (@Some A) (firstn k l)) = k)
    by (rewrite length_map, length_firstn; lia).
  rewrite (firstn_S_nth_error l k x Hx), map_app, <- app_assoc.
  set (L := map Some (firstn k l)) in *.
  rewrite set_nth_split by (rewrite length_app, repeat_length; lia).
  rewrite firstn_app, Hlen, Nat.sub_diag.
  rewrite firstn_all2 by lia. cbn [firstn]. rewrite app_nil_r.
  rewrite skipn_app, Hlen.
  rewrite skipn_all2 by lia. cbn [app].
  replace (S k - k)%nat with 1%nat by lia.
  replace (n - k)%nat with (S (n - S k)) by lia. cbn [repeat skipn].
  reflexivity.
Qed.

Lemma to_eigenmesh_contour_prefix (cntr : Contour3D) (k : nat) :
  (k <= length (points cntr))%nat -> (k <= length (indices cntr))%nat ->
  fold_left
    (fun acc i =>
       match acc with
       | None => None
       | Some (Vm, Fm) =>
           match nth_error (points cntr) i, nth_error (indices cntr) i with
           | Some p, Some f => Some (set_nth i (Some p) Vm, set_nth i (Some f) Fm)
           | _, _ => None
           end
       end)
    (seq 0 k)
    (Some (repeat None (length (points cntr)),
           repeat None (length (indices cntr))))
  = Some (map Some (firstn k (points cntr))
            ++ repeat None (length (points cntr) - k),
          map Some (firstn k (indices cntr))
            ++ repeat None (length (indices cntr) - k)).
Proof.
  induction k as [|k IH]; intros Hp Hi.
  - cbn [seq fold_left firstn map app]. rewrite !Nat.sub_0_r. reflexivity.
  - rewrite seq_S, fold_left_app, IH by lia. cbn [fold_left Nat.add].
    destruct (nth_error (points cntr) k) as [p|] eqn:Ep;
      [ | apply nth_error_None in Ep; lia ].
    destruct (nth_error (indices cntr) k) as [f|] eqn:Ef;
      [ | apply nth_error_None in Ef; lia ].
    rewrite (set_nth_fill _ _ _ _ Ep), (set_nth_fill _ _ _ _ Ef) by lia.
    reflexivity.
Qed.

(** X9: [to_eigenmesh(const Contour3D&)] runs one loop over the vertex
    rows that also fills the face rows.  With at least as many facets as
    points it copies every point but only the first [points.size()] facets,
    and the other face rows are never assigned; with fewer facets than
    points it reads past the end of the facet list. *)
Theorem to_eigenmesh_contour_rows (cntr : Contour3D) :
  let np := length (points cntr) in
  let ni := length (indices cntr) in
  ((np <= ni)%nat ->
   to_eigenmesh_contour cntr
   = Some (map Some (points cntr),
           map Some (firstn np (indices cntr)) ++ repeat None (ni - np)))
  /\ ((ni < np)%nat -> to_eigenmesh_contour cntr = None).
Proof.
  intros np ni. unfold to_eigenmesh_contour. split; intros H.
  - rewrite to_eigenmesh_contour_prefix by (fold np ni; lia).
    rewrite firstn_all, Nat.sub_diag. cbn [repeat]. rewrite app_nil_r.
    reflexivity.
  - assert (Hseq : seq 0 (length (points cntr))
                   = seq 0 ni ++ ni :: seq (S ni) (np - S ni)).
    { fold np. replace np with (ni + S (np - S ni))%nat at 1 by lia.
      rewrite seq_app. reflexivity. }
    rewrite Hseq, fold_left_app. unfold ni at 1.
    rewrite to_eigenmesh_contour_prefix by (fold np ni; lia).
    cbn [fold_left]. fold ni.
    destruct (nth_error (indices cntr) ni) eqn:E.
    { assert (Hn : nth_error (indices cntr) ni <> None)
        by (rewrite E; discriminate).
      apply nth_error_Some in Hn. unfold ni in Hn. lia. }
    assert (Hnone : forall l,
               fold_left
                 (fun acc i =>
                    match acc with
                    | None => None
                    | Some (Vm, Fm) =>
                        match nth_error (points cntr) i,
                              nth_error (indices cntr) i with
                        | Some p, Some f =>
                            Some (set_nth i (Some p) Vm,
                                  set_nth i (Some f) Fm)
                        | _, _ => None
                        end
                    end) l None = None)
      by (induction l; auto).
    destruct (nth_error (points cntr) ni); apply Hnone.
Qed.

(** A single triangle has three points and one facet. *)
Lemma to_eigenmesh_contour_rows_witness :
  to_eigenmesh_contour token_contour = None.
Proof.
  apply (to_eigenmesh_contour_rows token_contour). cbn. lia.
Defined.

(** ** The convex hull *)

Section Hull.
Variable pts : list Vec2d.

Lemma leftmost_lt : (0 < length pts)%nat -> (leftmost pts < length pts)%nat.
Proof.
  intros Hn. unfold leftmost.
  assert (Hgen : forall (l : list nat) (l0 : nat),
             Forall (fun i => (i < length pts)%nat) l ->
             (l0 < length pts)%nat ->
             (fold_left
                (fun l i =>
                   if Rltb (Rabs (ux (pt pts i) - ux (pt pts l))) ERR then
                     (if Rltb (uy (pt pts i)) (uy (pt pts l)) then i else l)
                   else if Rltb (ux (pt pts i)) (ux (pt pts l)) then i else l)
                l l0 < length pts)%nat).
  { induction l as [|i l IH]; intros l0 Hall Hl0; [ exact Hl0 | ].
    inversion Hall; subst. cbn [fold_left]. apply IH; [ assumption | ].
    repeat match goal with
           | |- context [if ?b then _ else _] => destruct b
           end; assumption. }
  apply Hgen; [ | exact Hn ].
  apply Forall_forall. intros i Hi. apply in_seq in Hi. lia.
Qed.

Lemma wrap_next_lt (p : nat) :
  (0 < length pts)%nat -> (wrap_next pts p < length pts)%nat.
Proof.
  intros Hn. unfold wrap_next.
  assert (Hgen : forall (l : list nat) (q : nat),
             Forall (fun i => (i < length pts)%nat) l ->
             (q < length pts)%nat ->
             (fold_left
                (fun q i =>
                   if Nat.eqb (orientation (pt pts p) (pt pts i) (pt pts q)) 2
                   then i else q) l q < length pts)%nat).
  { induction l as [|i l IH]; intros q Hall Hq; [ exact Hq | ].
    inversion Hall; subst. cbn [fold_left]. apply IH; [ assumption | ].
    destruct (Nat.eqb _ 2); assumption. }
  apply Hgen.
  - apply Forall_forall. intros i Hi. apply in_seq in Hi. lia.
  - apply Nat.mod_upper_bound. lia.
Qed.

Lemma wrap_loop_positions (l : nat) :
  (0 < length pts)%nat ->
  forall (fuel p : nat) (hull0 hull : list nat),
    (p < length pts)%nat ->
    wrap_loop pts fuel l p hull0 = Some hull ->
    exists rest,
      hull = hull0 ++ p :: rest
      /\ Forall (fun q => (q < length pts)%nat) rest
      /\ (S (length rest) <= fuel)%nat.
Proof.
  intros Hn. induction fuel as [|fuel IH]; intros p hull0 hull Hp Hrun;
    [ discriminate | ].
  cbn [wrap_loop] in Hrun.
  destruct (Nat.eqb (wrap_next pts p) l).
  - injection Hrun as <-. exists []. repeat split; [ constructor | cbn; lia ].
  - apply IH in Hrun; [ | apply wrap_next_lt; exact Hn ].
    destruct Hrun as (rest & -> & Hall & Hlen).
    exists (wrap_next pts p :: rest). rewrite <- app_assoc. cbn [app].
    repeat split.
    + constructor; [ apply wrap_next_lt; exact Hn | exact Hall ].
    + cbn [length]. lia.
Qed.
End Hull.

Lemma pts_convex_hull_positions_aux (fuel : nat) (inpts : ClusterEl)
    (pfn : nat -> Vec2d) :
  (3 <= length inpts)%nat ->
  forall hull,
    pts_convex_hull fuel inpts pfn = Some hull ->
    exists rest,
      hull = leftmost (map pfn inpts) :: rest
      /\ Forall (fun p => (p < length inpts)%nat) hull
      /\ (length hull <= fuel)%nat.
Proof.
  unfold pts_convex_hull. intros Hn hull Hrun.
  destruct (Nat.ltb_spec (length inpts) 3) as [C | _]; [ lia | ].
  assert (Hlen : length (map pfn inpts) = length inpts)
    by apply length_map.
  assert (Hl : (leftmost (map pfn inpts) < length (map pfn inpts))%nat)
    by (apply leftmost_lt; lia).
  apply wrap_loop_positions in Hrun; [ | lia | exact Hl ].
  destruct Hrun as (rest & -> & Hall & Hf). cbn [app].
  exists rest. rewrite Hlen in *. repeat split.
  - constructor; assumption.
  - cbn [length]. exact Hf.
Qed.

(** X10: for fewer than three input indices [pts_convex_hull] returns its
    input as it is.  For three or more, whenever the gift-wrapping loop
    comes back to its start, the hull begins with the position of the
    leftmost point and all its elements are positions in the input list,
    numbers below its length: the loop collects the loop variable [p], not
    the index [inpts[p]] that the caller passed in. *)
Theorem pts_convex_hull_positions (fuel : nat) (inpts : ClusterEl)
    (pfn : nat -> Vec2d) :
  ((length inpts < 3)%nat -> pts_convex_hull fuel inpts pfn = Some inpts)
  /\ ((3 <= length inpts)%nat ->
      forall hull,
        pts_convex_hull fuel inpts pfn = Some hull ->
        exists rest,
          hull = leftmost (map pfn inpts) :: rest
          /\ Forall (fun p => (p < length inpts)%nat) hull
          /\ (length hull <= fuel)%nat).
Proof.
  split.
  - intros Hn. unfold pts_convex_hull.
    destruct (Nat.ltb_spec (length inpts) 3); [ reflexivity | lia ].
  - apply pts_convex_hull_positions_aux.
Qed.

Lemma pts_convex_hull_positions_witness :
  pts_convex_hull 0 [7; 9]%nat (fun _ => mkVec2d 0 0) = Some [7; 9]%nat.
Proof.
  apply (pts_convex_hull_positions 0 [7; 9]%nat (fun _ => mkVec2d 0 0)).
  cbn. lia.
Defined.

(** Three points of one line are collinear for [orientation]. *)
Lemma orientation_on_line (a b c : R) (p q r : Vec2d) :
  a <> 0 \/ b <> 0 ->
  a * ux p + b * uy p = c -> a * ux q + b * uy q = c ->
  a * ux r + b * uy r = c ->
  orientation p q r = 0%nat.
Proof.
  intros Hab Hp Hq Hr. unfold orientation.
  set (val := (uy q - uy p) * (ux r - ux q) - (ux q - ux p) * (uy r - uy q)).
  assert (Ha : val * a = 0) by (unfold val; nsatz).
  assert (Hb : val * b = 0) by (unfold val; nsatz).
  assert (Hv : val = 0).
  { destruct Hab as [Hn | Hn];
      [ apply Rmult_integral in Ha | apply Rmult_integral in Hb ];
      tauto. }
  rewrite Hv, Rabs_R0. rewrite Rltb_true; [ reflexivity | ].
  unfold ERR. apply Rinv_0_lt_compat. lra.
Qed.

Section FlatHull.
Variable pts : list Vec2d.
Hypothesis flat : collinear pts.

Lemma wrap_next_collinear (p : nat) :
  (p < length pts)%nat ->
  wrap_next pts p = ((p + 1) mod length pts)%nat.
Proof.
  intros Hp. destruct flat as (a & b & c & Hab & Hall).
  assert (Hpt : forall i, (i < length pts)%nat ->
                          a * ux (pt pts i) + b * uy (pt pts i) = c).
  { intros i Hi. rewrite Forall_forall in Hall. apply Hall.
    unfold pt. apply nth_In. exact Hi. }
  unfold wrap_next.
  assert (Hgen : forall (l : list nat) (q : nat),
             Forall (fun i => (i < length pts)%nat) l ->
             (q < length pts)%nat ->
             fold_left
               (fun q i =>
                  if Nat.eqb (orientation (pt pts p) (pt pts i) (pt pts q)) 2
                  then i else q) l q = q).
  { induction l as [|i l IH]; intros q Hl Hq; [ reflexivity | ].
    inversion Hl; subst. cbn [fold_left].
    rewrite (orientation_on_line a b c) by auto.
    cbn [Nat.eqb]. apply IH; assumption. }
  apply Hgen.
  - apply Forall_forall. intros i Hi. apply in_seq in Hi. lia.
  - apply Nat.mod_upper_bound. lia.
Qed.

Lemma wrap_loop_collinear (l : nat) :
  (l < length pts)%nat ->
  forall (m k fuel : nat) (hull : list nat),
    (k + m = length pts)%nat -> (1 <= m)%nat -> (m <= fuel)%nat ->
    wrap_loop pts fuel l ((l + k) mod length pts) hull
    = Some (hull ++ map (fun j => ((l + j) mod length pts)%nat) (seq k m)).
Proof.
  intros Hl. set (n := length pts) in *.
  induction m as [|m IH]; intros k fuel hull Hk Hm Hf; [ lia | ].
  destruct fuel as [|fuel]; [ lia | ]. cbn [wrap_loop].
  rewrite wrap_next_collinear by (apply Nat.mod_upper_bound; lia).
  fold n. rewrite Nat.Div0.add_mod_idemp_l.
  replace (l + k + 1)%nat with (l + S k)%nat by lia.
  destruct m as [|m].
  - replace (l + S k)%nat with (l + 1 * n)%nat by lia.
    rewrite Nat.Div0.mod_add, Nat.mod_small by lia.
    rewrite Nat.eqb_refl. reflexivity.
  - destruct (Nat.eqb_spec ((l + S k) mod n) l) as [E | _].
    + exfalso. pose proof (Nat.div_mod_eq (l + S k) n) as Hd.
      rewrite E in Hd.
      assert (Hq : ((l + S k) / n = 0 \/ 1 <= (l + S k) / n)%nat) by lia.
      destruct Hq as [Hq | Hq]; [ rewrite Hq in Hd; lia | nia ].
    + rewrite IH by lia. rewrite <- app_assoc. reflexivity.
Qed.
End FlatHull.

(** X11: when the points of three or more input indices all lie on one
    line, the gift-wrapping loop of [pts_convex_hull] ends after one round
    per point and returns every position of the input, in cyclic order from
    the leftmost point on, rather than the two end points of the
    segment. *)
Theorem pts_convex_hull_collinear (fuel : nat) (inpts : ClusterEl)
    (pfn : nat -> Vec2d) :
  (3 <= length inpts)%nat ->
  collinear (map pfn inpts) ->
  (length inpts <= fuel)%nat ->
  pts_convex_hull fuel inpts pfn
  = Some (cycle_from (leftmost (map pfn inpts)) (length inpts)).
Proof.
  intros Hn Hflat Hf. unfold pts_convex_hull, cycle_from.
  destruct (Nat.ltb_spec (length inpts) 3) as [C | _]; [ lia | ].
  assert (Hlen : length (map pfn inpts) = length inpts) by apply length_map.
  assert (Hl : (leftmost (map pfn inpts) < length (map pfn inpts))%nat)
    by (apply leftmost_lt; lia).
  pose proof (wrap_loop_collinear (map pfn inpts) Hflat
                (leftmost (map pfn inpts)) Hl (length inpts) 0 fuel [])
    as Hrun.
  rewrite Hlen, Nat.add_0_r in Hrun.
  rewrite Nat.mod_small in Hrun by lia.
  apply Hrun; lia.
Qed.

Lemma pts_convex_hull_collinear_witness :
  pts_convex_hull 3 [0; 1; 2]%nat
    (fun i => mkVec2d (INR i) (INR i))
  = Some (cycle_from
            (leftmost (map (fun i => mkVec2d (INR i) (INR i)) [0; 1; 2]%nat))
            3).
Proof.
  apply (pts_convex_hull_collinear 3 [0; 1; 2]%nat
           (fun i => mkVec2d (INR i) (INR i))).
  - cbn. lia.
  - exists 1, (-1), 0. split; [ left; lra | ].
    repeat constructor; cbn; lra.
  - cbn. lia.
Defined.

(** ** Rings that are never removed *)

Lemma insert_sorted_perm (x : nat) (l : list nat) (P : nat -> Prop) :
  length (insert_sorted x l) = S (length l)
  /\ (P x -> Forall P l -> Forall P (insert_sorted x l)).
Proof.
  induction l as [|y l [IHl IHP]]; cbn [insert_sorted].
  - split; [ reflexivity | intros; constructor; auto ].
  - destruct (Nat.leb x y); cbn [length].
    + split; [ reflexivity | intros; constructor; auto ].
    + split; [ lia | ]. intros Hx Hall.
      apply Forall_cons_iff in Hall. destruct Hall as [Hy Hl].
      constructor; auto.
Qed.

Lemma sort_perm (l : list nat) (P : nat -> Prop) :
  length (sort l) = length l /\ (Forall P l -> Forall P (sort l)).
Proof.
  unfold sort. induction l as [|x l [IHl IHP]]; cbn [fold_right].
  - split; [ reflexivity | auto ].
  - destruct (insert_sorted_perm x (fold_right insert_sorted [] l) P)
      as (Hlen & HP).
    split; [ cbn [length]; lia | ].
    intros Hall. apply Forall_cons_iff in Hall. destruct Hall as [Hx Hl].
    auto.
Qed.

(** [set_difference] removes nothing when the two ranges share no
    element. *)
Lemma set_difference_disjoint (l1 : list nat) :
  forall l2 : list nat,
    (forall x, In x l1 -> ~ In x l2) -> set_difference l1 l2 = l1.
Proof.
  induction l1 as [|x l1 IH1]; intros l2 Hdis.
  - destruct l2; reflexivity.
  - induction l2 as [|y l2 IH2]; [ reflexivity | ].
    cbn [set_difference].
    destruct (Nat.ltb_spec x y) as [Hxy | Hxy].
    + f_equal. apply IH1. intros z Hz. apply Hdis. right. exact Hz.
    + destruct (Nat.ltb_spec y x) as [Hyx | Hyx].
      * apply IH2. intros z Hz Hin. apply (Hdis z Hz). right. exact Hin.
      * exfalso. apply (Hdis x); [ left; reflexivity | left; lia ].
Qed.

Section StuckRings.
Context `{Externals}.
Variables (cfg : SupportConfig) (head_pos : PointSet) (gndidx : list nat)
          (emesh : EigenMesh3D) (idx : SpatIndex.t) (fuel : nat).

(** X12: when three or more cluster centroids remain and each of their
    indices is at least their number, the loop over the rings of
    [routing_ground_fn] never finishes: the hull of the remaining
    centroids is a list of positions, all below their number, so
    [std::set_difference] removes none of them and the same centroids
    remain for the next round. *)
Theorem weave_rings_never_ends (fuel_rings : nat) :
  forall (rem : ClusterEl) (s : RState),
    (3 <= length rem)%nat ->
    Forall (fun c => (length rem <= c)%nat) rem ->
    snd (weave_rings cfg head_pos gndidx emesh fuel fuel_rings idx rem s)
    <> Completed.
Proof.
  induction fuel_rings as [|fuel_rings IH]; intros rem s Hn Hbig.
  - destruct rem; [ cbn in Hn; lia | ]. cbn. discriminate.
  - destruct rem as [|c0 rem0] eqn:Erem; [ cbn in Hn; lia | ].
    rewrite <- Erem in *. clear Erem c0 rem0.
    destruct (sort_perm rem (fun c => (length rem <= c)%nat))
      as (Hlen & Hsorted).
    specialize (Hsorted Hbig).
    assert (Hstep :
              weave_rings cfg head_pos gndidx emesh fuel (S fuel_rings) idx
                          rem s
              = match pts_convex_hull fuel (sort rem)
                        (fun i => to_vec2 (gnd_head_pt head_pos gndidx i)) with
                | None => (s, OutOfFuel)
                | Some ring =>
                    match for_each (weave_edge cfg emesh fuel idx)
                                   (combine ring (tl ring)) s with
                    | (s', Completed) =>
                        weave_rings cfg head_pos gndidx emesh fuel fuel_rings
                                    idx
                                    (set_difference (sort rem) (sort ring)) s'
                    | stopped => stopped
                    end
                end).
    { destruct rem; [ cbn in Hn; lia | reflexivity ]. }
    rewrite Hstep.
    destruct (pts_convex_hull fuel (sort rem) _) as [ring|] eqn:Ehull;
      [ | cbn; discriminate ].
    destruct (for_each _ _ s) as [s' o] eqn:Eloop.
    destruct o; [ | cbn; discriminate | cbn; discriminate ].
    assert (Hring : Forall (fun p => (p < length rem)%nat) ring).
    { destruct (pts_convex_hull_positions_aux fuel (sort rem)
                  (fun i => to_vec2 (gnd_head_pt head_pos gndidx i))
                  ltac:(lia) ring Ehull) as (rest & _ & Hall & _).
      rewrite Hlen in Hall. exact Hall. }
    rewrite set_difference_disjoint.
    + apply IH; [ lia | ]. rewrite Hlen. exact Hsorted.
    + intros x Hx Hin.
      rewrite Forall_forall in Hsorted. specialize (Hsorted x Hx).
      destruct (sort_perm ring (fun p => (p < length rem)%nat))
        as (_ & Hsr).
      specialize (Hsr Hring). rewrite Forall_forall in Hsr.
      specialize (Hsr x Hin). lia.
Qed.
End StuckRings.

(** ** Six heads in a row *)

(** [transform] and [add_tail] can be exchanged. *)
Lemma row_head_routed_side (x : R) :
  Head.add_tail (Head.transform (H := overhang) (row_head x)) (-1) (-1)
  = row_head_routed x.
Proof. reflexivity. Qed.

(** A side head 30 millimetres from the head of the main pillar: the
    bridge would land below the ground, so the side head gets a pillar of
    its own. *)
Lemma row_sidehead_far (s : RState) (hidx : nat) (x xm : R) :
  nth_error (Impl.m_heads (rs_tree s)) hidx = Some (row_head x) ->
  xm - x = 30 ->
  route_sidehead (H := overhang) tilt30_cfg (mkVec3d xm 0 8) s hidx
  = (rs_add_pillar (row_pillar hidx x)
       (rs_set_head hidx (row_head_routed x) s),
     Completed).
Proof.
  intros Hh Hx. unfold route_sidehead. rewrite Hh.
  rewrite row_head_routed_side.
  rewrite row_head_junction_point.
  change (Head.fullwidth (row_head_routed x)) with (2 * / 4 + 1 + 2 * / 2).
  unfold set_z. cbn [vx vy vz tilt tilt30_cfg].
  assert (Exm : xm = x + 30) by lra. subst xm.
  rewrite (dist_xy_value _ _ 30); [ | lra | cbn [vx vy]; ring ].
  rewrite sin_minus_PI6.
  rewrite Rltb_false by lra.
  unfold row_pillar. rewrite row_head_junction_point. reflexivity.
Qed.

(** A cluster of two heads of the row, 30 millimetres apart: the first
    member is the centroid and gets the main pillar, the second a pillar of
    its own. *)
Lemma row_cluster_pair (gndidx : list nat) (s : RState) (cents : ClusterEl)
    (m k : nat) (xm x : R) :
  nth m gndidx 0%nat = m -> nth k gndidx 0%nat = k -> m <> k ->
  nth_error (Impl.m_heads (rs_tree s)) m = Some (row_head xm) ->
  nth_error (Impl.m_heads (rs_tree s)) k = Some (row_head x) ->
  xm - x = 30 ->
  route_cluster (H := overhang) tilt30_cfg six_row_pos gndidx (s, cents)
                [m; k]
  = ((rs_add_pillar (row_pillar k x)
        (rs_set_head k (row_head_routed x)
           (rs_add_pillar (row_pillar m xm)
              (rs_set_head m (row_head_routed xm) s))),
      cents ++ [m]),
     Completed).
Proof.
  intros Hm Hk Hne Hhm Hhk Hx. unfold route_cluster.
  change (cluster_centroid [m; k] _ _) with (Some 0%Z).
  cbn [Z.ltb Z.compare Z.to_nat nth_error erase map].
  rewrite Hm, Hk, Hhm.
  fold (row_head_routed xm). rewrite row_head_junction_point.
  assert (Hpm : Pillar.add_base
                 (Pillar.make m (row_head_routed xm)
                    (set_z (mkVec3d xm 0 8) 0)
                    (pillar_radius_mm tilt30_cfg))
                 (base_height_mm tilt30_cfg) (base_radius_mm tilt30_cfg)
               = row_pillar m xm).
  { unfold row_pillar. rewrite row_head_junction_point. reflexivity. }
  rewrite Hpm.
  cbn [for_each].
  rewrite (row_sidehead_far _ k x xm); [ reflexivity | | exact Hx ].
  cbn [rs_add_pillar rs_set_head rs_tree Impl.add_pillar Impl.set_head
       Impl.m_heads].
  rewrite nth_error_set_nth.
  destruct (Nat.eqb_spec k m) as [E | _]; [ congruence | exact Hhk ].
Qed.

(** The loop over the clusters for the six heads in three clusters of
    two: the centroids are the members 3, 4 and 5, and the pillars are
    stored in the order of the clusters. *)
Lemma six_row_clusters_routed :
  for_each
    (route_cluster (H := overhang) tilt30_cfg six_row_pos (seq 0 6))
    six_row_clusters (mkRState six_row_tree [], [])
  = ((six_row_routed, [3; 4; 5]%nat), Completed).
Proof.
  unfold six_row_clusters. cbn [for_each].
  rewrite (row_cluster_pair (seq 0 6) _ [] 3 0 30 0);
    try reflexivity; try lia; try lra.
  rewrite (row_cluster_pair (seq 0 6) _ [3]%nat 4 1 40 10);
    try reflexivity; try lia; try lra.
  rewrite (row_cluster_pair (seq 0 6) _ [3; 4]%nat 5 2 50 20);
    try reflexivity; try lia; try lra.
Qed.

(** The hull of the three centroids: the positions 0, 1 and 2 of the list
    of centroids, not the centroids 3, 4 and 5. *)
Lemma hull_of_six_row (fuel : nat) :
  (3 <= fuel)%nat ->
  pts_convex_hull fuel (sort [3; 4; 5]%nat)
    (fun i => to_vec2 (gnd_head_pt (H := overhang) six_row_pos (seq 0 6) i))
  = Some [0; 1; 2]%nat.
Proof.
  intros Hf. destruct fuel as [|[|[|fuel]]]; try lia.
  change (sort [3; 4; 5]%nat) with [3; 4; 5]%nat.
  unfold pts_convex_hull.
  change (Nat.ltb (length [3; 4; 5]%nat) 3) with false. cbv iota.
  change (map _ [3; 4; 5]%nat)
    with [mkVec2d 30 0; mkVec2d 40 0; mkVec2d 50 0].
  set (pts := [mkVec2d 30 0; mkVec2d 40 0; mkVec2d 50 0]).
  assert (Hflat : Forall (fun v => uy v = 0) pts)
    by (repeat constructor).
  assert (Hl : leftmost pts = 0%nat).
  { unfold leftmost, pt, pts. cbn [length Nat.sub seq fold_left nth ux uy].
    repeat (decide_cmp; cbn [ux uy]). reflexivity. }
  rewrite Hl.
  cbn [wrap_loop]. rewrite !(wrap_next_flat pts) by exact Hflat.
  reflexivity.
Qed.

Section NoRoom.
Context `{Externals}.
Variables (cfg : SupportConfig) (emesh : EigenMesh3D).

(** An edge between two pillars without junctions in the index, so far
    apart that the first bridge would end below the next pillar: the index
    is queried and nothing is added. *)
Lemma weave_edge_no_room (fuel : nat) (idx : SpatIndex.t) (s : RState)
    (it next : nat) (pillar nextpillar : Pillar.t) (head nexthead : Head.t) :
  nth_error (Impl.m_pillars (rs_tree s)) it = Some pillar ->
  nth_error (Impl.m_pillars (rs_tree s)) next = Some nextpillar ->
  nth_error (Impl.m_heads (rs_tree s)) (Pillar.headref pillar) = Some head ->
  nth_error (Impl.m_heads (rs_tree s)) (Pillar.headref nextpillar)
  = Some nexthead ->
  let pp := mkVec3d (vx (Pillar.endpoint pillar))
                    (vy (Pillar.endpoint pillar)) 0 in
  let d := 2 * Pillar.r pillar in
  SpatIndex.query (near_pillar pp d) idx = [] ->
  let sj := Head.junction_point head in
  let drop := dist_xy sj (Pillar.endpoint nextpillar) * sin (- tilt cfg) in
  vz sj + drop <= vz (Pillar.endpoint nextpillar) ->
  (1 <= fuel)%nat ->
  weave_edge cfg emesh fuel idx s (it, next)
  = (mkRState (rs_tree s) (rs_log s ++ [EvQuery pp d []]), Completed).
Proof.
  intros Hp Hnp Hh Hnh pp d Hq sj drop Hz Hfuel.
  unfold weave_edge. rewrite Hp, Hnp. fold pp. fold d.
  change (SpatIndex.query
            (fun se : SpatElement => Rltb (distance3 pp (fst se)) d) idx)
    with (SpatIndex.query (near_pillar pp d) idx).
  rewrite Hq, Hh, Hnh. cbn [option_map].
  fold sj. fold drop.
  destruct fuel as [|fuel']; try lia.
  cbn [weave_loop].
  rewrite (Rltb_false (vz (Pillar.endpoint nextpillar))).
  - reflexivity.
  - cbn [vz set_z]. exact Hz.
Qed.
End NoRoom.

(** An edge of the six heads, between two pillars 30 or more millimetres
    apart. *)
Lemma six_row_edge (emesh : EigenMesh3D) (fuel : nat) (s : RState)
    (it next i1 i2 : nat) (x1 x2 D : R) :
  16 <= D -> (x2 - x1) * (x2 - x1) = D * D -> (1 <= fuel)%nat ->
  nth_error (Impl.m_pillars (rs_tree s)) it = Some (row_pillar i1 x1) ->
  nth_error (Impl.m_pillars (rs_tree s)) next = Some (row_pillar i2 x2) ->
  nth_error (Impl.m_heads (rs_tree s)) i1 = Some (row_head_routed x1) ->
  nth_error (Impl.m_heads (rs_tree s)) i2 = Some (row_head_routed x2) ->
  weave_edge (H := overhang) tilt30_cfg emesh fuel [] s (it, next)
  = (mkRState (rs_tree s)
       (rs_log s ++ [EvQuery (mkVec3d x1 0 0) (3 / 5) []]),
     Completed).
Proof.
  intros HD Hx Hfuel Hp Hnp Hh Hnh.
  destruct (row_pillar_frame i1 x1) as (He1 & Hr1 & Hf1).
  destruct (row_pillar_frame i2 x2) as (He2 & Hr2 & Hf2).
  assert (Hd : dist_xy (mkVec3d x1 0 8) (mkVec3d x2 0 0) = D).
  { apply dist_xy_value; [ lra | ]. cbn [vx vy]. rewrite <- Hx. ring. }
  rewrite (weave_edge_no_room (H := overhang) tilt30_cfg emesh fuel [] s
             it next (row_pillar i1 x1) (row_pillar i2 x2)
             (row_head_routed x1) (row_head_routed x2));
    rewrite ?Hf1, ?Hf2, ?He1, ?He2, ?Hr1, ?row_head_junction_point, ?Hd;
    cbn [tilt tilt30_cfg vx vy vz];
    rewrite ?sin_minus_PI6;
    try assumption; try reflexivity; try lra.
  replace (2 * (3 / 10)) with (3 / 5) by lra.
  reflexivity.
Qed.

Section StuckRingsScene.
Variable emesh : EigenMesh3D.

(** The edges of the hull [0; 1; 2] of the six heads: the pillars at
    these places in the tree, those of the heads 3, 0 and 4, are too far
    apart for a bridge, so each edge only queries the index. *)
Lemma six_row_stuck (log : list Event) :
  let s := mkRState (rs_tree six_row_routed) log in
  for_each (weave_edge (H := overhang) tilt30_cfg emesh 5 [])
           [(0, 1); (1, 2)]%nat s
  = (mkRState (rs_tree six_row_routed)
       (log ++ [EvQuery (mkVec3d 30 0 0) (3 / 5) [];
                EvQuery (mkVec3d 0 0 0) (3 / 5) []]),
     Completed).
Proof.
  intros s. cbn [for_each].
  rewrite (six_row_edge emesh 5 s 0 1 3 0 30 0 30);
    try reflexivity; try lra; try lia.
  rewrite (six_row_edge emesh 5 _ 1 2 0 4 0 40 40);
    try reflexivity; try lra; try lia.
  cbn [rs_tree rs_log]. now rewrite <- app_assoc.
Qed.
End StuckRingsScene.

Lemma weave_rings_never_ends_witness :
  for_each
    (route_cluster (H := overhang) tilt30_cfg six_row_pos (seq 0 6))
    six_row_clusters (mkRState six_row_tree [], [])
  = ((six_row_routed, [3; 4; 5]%nat), Completed)
  /\ pts_convex_hull 5 (sort [3; 4; 5]%nat)
       (fun i => to_vec2 (gnd_head_pt (H := overhang) six_row_pos
                            (seq 0 6) i))
     = Some [0; 1; 2]%nat
  /\ snd (for_each
            (weave_edge (H := overhang) tilt30_cfg (mkEigenMesh3D [] []) 5 [])
            [(0, 1); (1, 2)]%nat six_row_routed)
     = Completed
  /\ set_difference (sort [3; 4; 5]%nat) (sort [0; 1; 2]%nat)
     = [3; 4; 5]%nat
  /\ snd (routing_ground_fn (H := overhang) tilt30_cfg six_row_pos (seq 0 6)
            (mkEigenMesh3D [] []) 5 six_row_clusters six_row_tree)
     <> Completed.
Proof.
  split; [ exact six_row_clusters_routed | ].
  split; [ apply hull_of_six_row; lia | ].
  split.
  { pose proof (six_row_stuck (mkEigenMesh3D [] []) []) as Hs.
    cbv zeta in Hs. change (mkRState (rs_tree six_row_routed) [])
      with six_row_routed in Hs.
    rewrite Hs. reflexivity. }
  split; [ reflexivity | ].
  unfold routing_ground_fn. rewrite six_row_clusters_routed.
  apply (weave_rings_never_ends (H := overhang)).
  - cbn. lia.
  - repeat constructor.
Defined.

(** ** Invariants of the stages *)

(** The corrected normal is a unit vector that leans at most 45 degrees
    away from straight down. *)
Lemma corrected_normal_unit_down (n : Vec3d) :
  vdot (corrected_normal n) (corrected_normal n) = 1
  /\ vz (corrected_normal n) <= cos (3 * PI / 4).
Proof.
  unfold corrected_normal.
  set (polar := Rmax (acos (vz n / 1)) (3 * PI / 4)).
  set (az := atan2 (vy n) (vx n)).
  unfold vdot. cbn [vx vy vz]. split.
  - pose proof (sin2_cos2 polar) as Hp. pose proof (sin2_cos2 az) as Ha.
    unfold Rsqr in *. nsatz.
  - pose proof PI_RGT_0 as Hpi.
    pose proof (acos_bound (vz n / 1)) as [_ Hhi].
    assert (Hge : 3 * PI / 4 <= polar) by apply Rmax_r.
    assert (Hle : polar <= PI) by (apply Rmax_lub; lra).
    apply cos_decr_1; lra.
Qed.

Section StageInvariants.
Context `{Externals}.
Variables (cfg : SupportConfig) (mesh : EigenMesh3D).

Lemma filter_point_cases (hp n : Vec3d) :
  filter_point cfg mesh hp n = Discarded
  \/ filter_point cfg mesh hp n = ToHead hp (corrected_normal n)
  \/ filter_point cfg mesh hp n = ToHeadless hp.
Proof.
  unfold filter_point.
  destruct (Rleb (PI / 2) (acos (vz n / 1))); [ | auto ].
  destruct (dist_gtb _ _ || isinf _); auto.
Qed.

Lemma filter_verdicts_rows (filt_pts nmls : PointSet) :
  let vs := filter_verdicts cfg mesh filt_pts nmls in
  length (flat_map verdict_head vs) = length (flat_map verdict_normal vs)
  /\ (length (flat_map verdict_head vs)
      + length (flat_map verdict_headless vs) <= length filt_pts)%nat
  /\ Forall (fun nn => vdot nn nn = 1 /\ vz nn <= cos (3 * PI / 4))
            (flat_map verdict_normal vs)
  /\ (forall hp, In hp (flat_map verdict_head vs)
                 \/ In hp (flat_map verdict_headless vs) ->
                 In hp filt_pts).
Proof.
  intros vs.
  assert (Hvs : Forall (fun v => v = Discarded
                                 \/ (exists hp n,
                                        In hp filt_pts
                                        /\ v = ToHead hp (corrected_normal n))
                                 \/ (exists hp,
                                        In hp filt_pts /\ v = ToHeadless hp))
                       vs).
  { unfold vs, filter_verdicts. apply Forall_map, Forall_forall.
    intros i Hi. apply in_seq in Hi.
    assert (Hin : In (nth i filt_pts unassigned_row) filt_pts)
      by (apply nth_In; lia).
    destruct (filter_point_cases (nth i filt_pts unassigned_row)
                                 (nth i nmls unassigned_row))
      as [-> | [-> | ->]]; eauto 6. }
  assert (Hlen : length vs = length filt_pts)
    by (unfold vs, filter_verdicts; rewrite length_map, length_seq;
        reflexivity).
  rewrite <- Hlen. clear Hlen.
  induction Hvs as [|v l Hv Hl (IH1 & IH2 & IH3 & IH4)].
  - cbn. repeat split; auto. intros hp [[] | []].
  - cbn [flat_map length]. rewrite !length_app, !Forall_app.
    destruct Hv as [-> | [(hp & n & Hin & ->) | (hp & Hin & ->)]];
      cbn [verdict_head verdict_normal verdict_headless length app].
    + split; [ lia | ]. split; [ lia | ].
      split; [ split; [ constructor | exact IH3 ] | ].
      intros q Hq. apply IH4. exact Hq.
    + split; [ lia | ]. split; [ lia | ].
      split; [ split; [ | exact IH3 ] | ].
      * constructor; [ apply corrected_normal_unit_down | constructor ].
      * intros q [[<- | Hq] | Hq]; auto.
    + split; [ lia | ]. split; [ lia | ].
      split; [ split; [ constructor | exact IH3 ] | ].
      intros q [Hq | [<- | Hq]]; auto.
Qed.

Lemma filterfn_invariants_aux (points : PointSet) (d : Data) :
  let d' := filterfn cfg points mesh d in
  length (head_positions d') = length (filtered_normals d')
  /\ (length (head_positions d') + length (headless_positions d')
      <= length (filtered_points d'))%nat
  /\ Forall (fun nn => vdot nn nn = 1 /\ vz nn <= cos (3 * PI / 4))
            (filtered_normals d')
  /\ (forall hp, In hp (head_positions d') \/ In hp (headless_positions d') ->
                 In hp (filtered_points d'))
  /\ result d' = result d.
Proof.
  intros d'. unfold d'. rewrite filterfn_verdicts.
  cbn [head_positions filtered_normals headless_positions filtered_points
       result].
  destruct (filter_verdicts_rows (filter_aliases points)
              (normals (filter_aliases points) mesh)) as (H1 & H2 & H3 & H4).
  repeat split; assumption.
Qed.

(** X13: whatever the mesh interrogator answers, [FILTER] leaves exactly
    one corrected normal per head position; the head positions and the
    headless positions are points that survived the removal of aliases, and
    together they are no more than those; every corrected normal is a unit
    vector whose [z] is at most [cos(3*PI/4)]; and the tree is left as it
    was. *)
Theorem filterfn_invariants (points : PointSet) (d : Data) :
  let d' := filterfn cfg points mesh d in
  length (head_positions d') = length (filtered_normals d')
  /\ (length (head_positions d') + length (headless_positions d')
      <= length (filtered_points d'))%nat
  /\ Forall (fun nn => vdot nn nn = 1 /\ vz nn <= cos (3 * PI / 4))
            (filtered_normals d')
  /\ (forall hp, In hp (head_positions d') \/ In hp (headless_positions d') ->
                 In hp (filtered_points d'))
  /\ result d' = result d.
Proof.
  apply filterfn_invariants_aux.
Qed.

Lemma pinheadfn_fold (d : Data) (n : nat) (res : Impl.t) :
  fold_left
    (fun res i =>
       Impl.add_head
         (Head.make (head_back_radius_mm cfg) (head_front_radius_mm cfg)
                    (head_width_mm cfg)
                    (nth i (filtered_normals d) unassigned_row)
                    (nth i (head_positions d) unassigned_row)
                    45)
         res)
    (seq 0 n) res
  = Impl.mk
      (Impl.m_heads res
       ++ map (fun i =>
                 Head.make (head_back_radius_mm cfg)
                           (head_front_radius_mm cfg) (head_width_mm cfg)
                           (nth i (filtered_normals d) unassigned_row)
                           (nth i (head_positions d) unassigned_row) 45)
              (seq 0 n))
      (Impl.m_pillars res) (Impl.m_junctions res) (Impl.m_bridges res).
Proof.
  induction n as [|n IH].
  - cbn. rewrite app_nil_r. destruct res; reflexivity.
  - rewrite seq_S, fold_left_app, IH, map_app. cbn [fold_left map Nat.add].
    unfold Impl.add_head. cbn. rewrite <- app_assoc. reflexivity.
Qed.

Lemma map_nth_combine {A B C} (f : A -> B -> C) (la : list A) (lb : list B)
    (da : A) (db : B) :
  length la = length lb ->
  map (fun i => f (nth i la da) (nth i lb db)) (seq 0 (length la))
  = map (fun ab => f (fst ab) (snd ab)) (combine la lb).
Proof.
  revert lb. induction la as [|a la IH]; intros [|b lb] Hlen;
    try discriminate; [ reflexivity | ].
  cbn [length seq map combine fst snd nth]. f_equal.
  rewrite <- seq_shift, map_map. apply IH. cbn in Hlen. lia.
Qed.

Lemma map_combine_fst_snd {A B} (la : list A) (lb : list B) :
  length la = length lb ->
  map fst (combine la lb) = la /\ map snd (combine la lb) = lb.
Proof.
  revert lb. induction la as [|a la IH]; intros [|b lb] Hlen;
    try discriminate; [ split; reflexivity | ].
  injection Hlen as Hlen. destruct (IH lb Hlen) as [H1 H2].
  cbn [combine map fst snd]. rewrite H1, H2. split; reflexivity.
Qed.

(** X14: [FILTER] followed by [PINHEADS] adds to the tree exactly one
    head per head position, in order: the head is placed at the position,
    points along the corrected normal of the same row, a unit vector whose
    [z] is at most [cos(3*PI/4)], and has the radii and the width of the
    configuration; pillars, junctions and bridges are not touched. *)
Theorem pinheads_after_filter (points : PointSet) (tree : Impl.t) :
  let d1 := filterfn cfg points mesh (data_init tree) in
  let d2 := pinheadfn cfg d1 in
  let fresh :=
    map (fun pn : Vec3d * Vec3d =>
           Head.make (head_back_radius_mm cfg) (head_front_radius_mm cfg)
                     (head_width_mm cfg) (snd pn) (fst pn) 45)
        (combine (head_positions d1) (filtered_normals d1)) in
  result d2
  = Impl.mk (Impl.m_heads tree ++ fresh) (Impl.m_pillars tree)
            (Impl.m_junctions tree) (Impl.m_bridges tree)
  /\ length fresh = length (head_positions d2)
  /\ map Head.tr fresh = head_positions d2
  /\ map Head.dir fresh = filtered_normals d2
  /\ Forall (fun h => vdot (Head.dir h) (Head.dir h) = 1
                      /\ vz (Head.dir h) <= cos (3 * PI / 4)) fresh.
Proof.
  intros d1 d2 fresh.
  destruct (filterfn_invariants_aux points (data_init tree))
    as (Hlen & _ & Hunit & _ & Hres).
  fold d1 in Hlen, Hunit, Hres.
  assert (Hfresh : fresh
                   = map (fun i =>
                            Head.make (head_back_radius_mm cfg)
                              (head_front_radius_mm cfg) (head_width_mm cfg)
                              (nth i (filtered_normals d1) unassigned_row)
                              (nth i (head_positions d1) unassigned_row) 45)
                         (seq 0 (length (head_positions d1)))).
  { unfold fresh.
    rewrite (map_nth_combine
               (fun p n => Head.make (head_back_radius_mm cfg)
                             (head_front_radius_mm cfg) (head_width_mm cfg)
                             n p 45)
               (head_positions d1) (filtered_normals d1)
               unassigned_row unassigned_row Hlen).
    reflexivity. }
  assert (Hd2 : head_positions d2 = head_positions d1
                /\ filtered_normals d2 = filtered_normals d1)
    by (split; reflexivity).
  destruct Hd2 as [-> ->].
  split.
  { unfold d2, pinheadfn, with_result. cbn [result].
    rewrite pinheadfn_fold, Hres, <- Hfresh. reflexivity. }
  destruct (map_combine_fst_snd (head_positions d1) (filtered_normals d1)
              Hlen) as [Hfst Hsnd].
  assert (Htr : map Head.tr fresh = head_positions d1).
  { unfold fresh. rewrite map_map. exact Hfst. }
  assert (Hdir : map Head.dir fresh = filtered_normals d1).
  { unfold fresh. rewrite map_map. exact Hsnd. }
  split; [ rewrite <- Htr; rewrite length_map; reflexivity | ].
  split; [ exact Htr | ]. split; [ exact Hdir | ].
  rewrite <- Hdir in Hunit. rewrite Forall_map in Hunit. exact Hunit.
Qed.
End StageInvariants.

Section ClassifyCounts.
Context `{Externals}.
Variables (cfg : SupportConfig) (mesh : EigenMesh3D).

Lemma classify_step_counts (gh : list Dist) (res : Impl.t) (idx : nat) :
  (idx < length (Impl.m_heads res))%nat ->
  (exists g, nth_error gh idx = Some (Hit g)) ->
  let res' := classify_step cfg gh res idx in
  length (Impl.m_heads res') = length (Impl.m_heads res)
  /\ length (Impl.m_pillars res') = S (length (Impl.m_pillars res))
  /\ Impl.m_junctions res' = Impl.m_junctions res
  /\ Impl.m_bridges res' = Impl.m_bridges res.
Proof.
  intros Hidx (g & Hg). unfold classify_step. rewrite Hg.
  destruct (nth_error (Impl.m_heads res) idx) as [h0|] eqn:Hh;
    [ | apply nth_error_None in Hh; lia ].
  destruct (classify_nonground cfg idx h0 g) as [hd cs].
  cbn. rewrite length_set_nth, length_app. cbn. repeat split; lia.
Qed.

Lemma classify_steps_counts (gh : list Dist) (l : list nat) :
  forall res : Impl.t,
    Forall (fun idx => (idx < length (Impl.m_heads res))%nat
                       /\ exists g, nth_error gh idx = Some (Hit g)) l ->
    let res' := fold_left (classify_step cfg gh) l res in
    length (Impl.m_heads res') = length (Impl.m_heads res)
    /\ length (Impl.m_pillars res')
       = (length (Impl.m_pillars res) + length l)%nat
    /\ Impl.m_junctions res' = Impl.m_junctions res
    /\ Impl.m_bridges res' = Impl.m_bridges res.
Proof.
  induction l as [|a l IH]; intros res Hall; cbn [fold_left length].
  - repeat split; lia.
  - apply Forall_cons_iff in Hall. destruct Hall as [[Ha Hg] Hl].
    destruct (classify_step_counts gh res a Ha Hg) as (H1 & H2 & H3 & H4).
    destruct (IH (classify_step cfg gh res a)) as (I1 & I2 & I3 & I4).
    { revert Hl. apply Forall_impl. intros idx [Hi Hgi].
      split; [ rewrite H1; exact Hi | exact Hgi ]. }
    repeat split; congruence || lia.
Qed.

(** X15: in its first run on the heads that [PINHEADS] stored,
    [CLASSIFY] casts one ray straight down from the junction point of every
    head and sorts the heads by it: a head is grounded exactly when its ray
    never hits the mesh, the two index lists are increasing, share no
    element and together hold every head once; every head that is not
    grounded gets exactly one pillar, and no head, junction or bridge is
    added or removed. *)
Theorem classifyfn_partition (d : Data) :
  head_heights d = [] -> ground_heads d = [] -> noground_heads d = [] ->
  (length (head_positions d) <= length (Impl.m_heads (result d)))%nat ->
  let d' := classifyfn cfg mesh d in
  let n := length (head_positions d) in
  let grounded i := isinf (nth i (head_heights d') NoHit) in
  head_heights d'
  = map (head_cast mesh) (firstn n (Impl.m_heads (result d)))
  /\ ground_heads d' = filter grounded (seq 0 n)
  /\ noground_heads d' = filter (fun i => negb (grounded i)) (seq 0 n)
  /\ (length (ground_heads d') + length (noground_heads d'))%nat = n
  /\ length (Impl.m_heads (result d')) = length (Impl.m_heads (result d))
  /\ length (Impl.m_pillars (result d'))
     = (length (Impl.m_pillars (result d)) + length (noground_heads d'))%nat
  /\ Impl.m_junctions (result d') = Impl.m_junctions (result d)
  /\ Impl.m_bridges (result d') = Impl.m_bridges (result d).
Proof.
  intros Hh Hg Hn Hlen d' n grounded.
  set (heads := Impl.m_heads (result d)) in *.
  set (gh := map (head_cast mesh) (firstn n heads)).
  assert (Hnth : forall j, (j < n)%nat ->
             exists h, nth_error heads j = Some h
                       /\ nth_error gh j = Some (head_cast mesh h)
                       /\ nth j gh NoHit = head_cast mesh h).
  { intros j Hj.
    destruct (nth_error heads j) as [h|] eqn:E;
      [ | apply nth_error_None in E; lia ].
    exists h. split; [ reflexivity | ].
    assert (Hgh : nth_error gh j = Some (head_cast mesh h)).
    { unfold gh. rewrite nth_error_map, nth_error_firstn.
      destruct (Nat.ltb_spec j n) as [_ | C]; [ | lia ].
      rewrite E. reflexivity. }
    split; [ exact Hgh | ]. apply nth_error_nth. exact Hgh. }
  assert (Hgr : filter (fun j => match nth_error heads j with
                                 | Some h => isinf (head_cast mesh h)
                                 | None => false
                                 end) (seq 0 n)
                = filter (fun i => isinf (nth i gh NoHit)) (seq 0 n)).
  { apply filter_ext_in. intros j Hj. apply in_seq in Hj.
    destruct (Hnth j ltac:(lia)) as (h & -> & _ & ->). reflexivity. }
  assert (Hng : filter (fun j => match nth_error heads j with
                                 | Some h => negb (isinf (head_cast mesh h))
                                 | None => false
                                 end) (seq 0 n)
                = filter (fun i => negb (isinf (nth i gh NoHit))) (seq 0 n)).
  { apply filter_ext_in. intros j Hj. apply in_seq in Hj.
    destruct (Hnth j ltac:(lia)) as (h & -> & _ & ->). reflexivity. }
  assert (Hd' : d' = mkData (filtered_points d) (filtered_normals d)
                       (head_positions d) (headless_positions d)
                       gh
                       (filter (fun i => isinf (nth i gh NoHit)) (seq 0 n))
                       (filter (fun i => negb (isinf (nth i gh NoHit)))
                               (seq 0 n))
                       (cluster
                          (map (fun i => nth i (head_positions d)
                                             unassigned_row)
                               (filter (fun i => isinf (nth i gh NoHit))
                                       (seq 0 n)))
                          (fun p s =>
                             Rltb (distance2 (to_vec2 (fst p))
                                             (to_vec2 (fst s)))
                                  (4 * base_radius_mm cfg)) 4)
                       (fold_left
                          (classify_step cfg gh)
                          (filter (fun i => negb (isinf (nth i gh NoHit)))
                                  (seq 0 n))
                          (result d))).
  { unfold d', classifyfn. rewrite Hh, Hg, Hn.
    fold heads. rewrite classify_cast_fold by exact Hlen.
    fold n gh. rewrite Hgr, Hng. reflexivity. }
  assert (Hghd : head_heights d' = gh) by (rewrite Hd'; reflexivity).
  unfold grounded. rewrite Hghd. rewrite Hd'.
  cbn [head_heights ground_heads noground_heads result].
  split; [ reflexivity | ]. split; [ reflexivity | ].
  split; [ reflexivity | ].
  split.
  { assert (Hsplit : forall l : list nat,
               (length (filter (fun i => isinf (nth i gh NoHit)) l)
                + length (filter (fun i => negb (isinf (nth i gh NoHit))) l))%nat
               = length l).
    { induction l as [|i l IH]; [ reflexivity | ].
      cbn [filter]. destruct (isinf (nth i gh NoHit)); cbn [negb length];
        lia. }
    rewrite Hsplit. apply length_seq. }
  apply classify_steps_counts.
  apply Forall_forall. intros i Hi. apply filter_In in Hi.
  destruct Hi as [Hi Hng']. apply in_seq in Hi.
  split; [ fold heads; unfold n in Hi; lia | ].
  destruct (Hnth i ltac:(lia)) as (h & _ & Hgh & Hv).
  rewrite Hv in Hng'. rewrite Hgh.
  destruct (head_cast mesh h) as [g|]; [ eauto | discriminate ].
Qed.
End ClassifyCounts.

Lemma classifyfn_partition_witness :
  noground_heads (classifyfn (H := shelf) standard_cfg (mkEigenMesh3D [] [])
                    (one_head_data (H := shelf)))
  = [0%nat].
Proof.
  destruct (classifyfn_partition (H := shelf) standard_cfg
              (mkEigenMesh3D [] []) (one_head_data (H := shelf)))
    as (_ & _ & Hng & _);
    [ reflexivity | reflexivity | reflexivity | cbn; lia | ].
  rewrite Hng. reflexivity.
Defined.

(** ** The loop that weaves bridges between two pillars *)

Section WeaveLoop.
Context `{Externals}.
Variables (cfg : SupportConfig) (emesh : EigenMesh3D).
Variables (pillar nextpillar : Pillar.t) (pillar_dist nstartz : R).

Lemma weave_loop_bounded (N : nat) :
  0 < pillar_dist * sin (tilt cfg) ->
  forall (fuel : nat) (sj ej : Vec3d) (chkd : Dist) (s : RState),
    vz ej - vz (Pillar.endpoint nextpillar)
    <= INR N * (pillar_dist * sin (tilt cfg)) ->
    (N < fuel)%nat ->
    snd (weave_loop cfg emesh fuel pillar nextpillar pillar_dist nstartz
                    sj ej chkd s)
    = Completed.
Proof.
  intros Hdrop.
  induction N as [|N IH]; intros fuel sj ej chkd s Hz Hf;
    (destruct fuel as [|fuel]; [ lia | ]); cbn [weave_loop].
  - cbn [INR] in Hz.
    rewrite (Rltb_false (vz (Pillar.endpoint nextpillar)) (vz ej)) by lra.
    reflexivity.
  - destruct (Rltb (vz (Pillar.endpoint nextpillar)) (vz ej)
              && Rltb (vz (Pillar.endpoint pillar)) (vz sj)) eqn:Econd;
      [ | reflexivity ].
    apply andb_prop in Econd. destruct Econd as [Ee _].
    apply Rltb_lt in Ee.
    apply IH; [ | lia ].
    rewrite S_INR in Hz. cbn [set_z vz]. rewrite sin_neg. lra.
Qed.

(** X16: when the drop per bridge, the distance of the two pillars in
    the plane times the sine of the tilt, is positive, the loop that weaves
    bridges between two pillars ends: each round lowers the far end by that
    drop, so given enough rounds it reaches the end point of the next
    pillar and the loop is left. *)
Theorem weave_loop_terminates (sj ej : Vec3d) (chkd : Dist) (s : RState) :
  0 < pillar_dist * sin (tilt cfg) ->
  exists fuel0,
    forall fuel,
      (fuel0 <= fuel)%nat ->
      snd (weave_loop cfg emesh fuel pillar nextpillar pillar_dist nstartz
                      sj ej chkd s)
      = Completed.
Proof.
  intros Hdrop.
  set (drop := pillar_dist * sin (tilt cfg)) in *.
  set (gap := vz ej - vz (Pillar.endpoint nextpillar)).
  destruct (INR_unbounded (gap / drop)) as [N HN].
  exists (S N). intros fuel Hf.
  apply (weave_loop_bounded N Hdrop); [ | lia ].
  fold gap drop.
  assert (Hg : gap = gap / drop * drop) by (field; lra).
  rewrite Hg. apply Rmult_le_compat_r; lra.
Qed.

(** X17: when the drop per bridge is zero or negative (no tilt, a tilt
    the wrong way, or two pillars at the same place in the plane) and both
    ends start above the end points of their pillars, the loop that weaves
    bridges between the two pillars never ends: no round brings an end any
    lower. *)
Theorem weave_loop_never_ends (fuel : nat) :
  pillar_dist * sin (tilt cfg) <= 0 ->
  forall (sj ej : Vec3d) (chkd : Dist) (s : RState),
    vz (Pillar.endpoint nextpillar) < vz ej ->
    vz (Pillar.endpoint pillar) < vz sj ->
    vz (Pillar.endpoint pillar) < vz ej ->
    snd (weave_loop cfg emesh fuel pillar nextpillar pillar_dist nstartz
                    sj ej chkd s)
    = OutOfFuel.
Proof.
  intros Hdrop.
  induction fuel as [|fuel IH]; intros sj ej chkd s He Hs Hse;
    cbn [weave_loop]; [ reflexivity | ].
  rewrite (Rltb_true _ _ He), (Rltb_true _ _ Hs). cbn [andb].
  apply IH; cbn [set_z vz]; rewrite ?sin_neg; lra.
Qed.
End WeaveLoop.

Lemma weave_loop_terminates_witness :
  exists fuel0,
    forall fuel,
      (fuel0 <= fuel)%nat ->
      snd (weave_loop (H := overhang) tilt30_cfg (mkEigenMesh3D [] []) fuel
             (row_pillar 0 0) (row_pillar 1 10) 10 8 (mkVec3d 0 0 8)
             (mkVec3d 10 0 3) NoHit (mkRState Impl.empty []))
      = Completed.
Proof.
  apply (weave_loop_terminates (H := overhang) tilt30_cfg).
  cbn [tilt tilt30_cfg]. rewrite sin_PI6. lra.
Defined.

Lemma weave_loop_never_ends_witness :
  snd (weave_loop (H := overhang)
         (mkSupportConfig (/ 4) (/ 2) 1 (3 / 10) 1 1 0 1)
         (mkEigenMesh3D [] []) 100
         (row_pillar 0 0) (row_pillar 1 10) 10 8 (mkVec3d 0 0 8)
         (mkVec3d 10 0 8) NoHit (mkRState Impl.empty []))
  = OutOfFuel.
Proof.
  apply (weave_loop_never_ends (H := overhang)).
  - cbn [tilt]. rewrite sin_0. lra.
  - rewrite (proj1 (row_pillar_frame 1 10)). cbn. lra.
  - rewrite (proj1 (row_pillar_frame 0 0)). cbn. lra.
  - rewrite (proj1 (row_pillar_frame 0 0)). cbn. lra.
Defined.

(** X18: the ring weaving adds a bridge only after the clearance test:
    for every bridge that the loop over the rings adds, from [a] to [b], the
    ray from [a] towards [b] either never meets the mesh or meets it no
    sooner than after the distance of [a] and [b] in the plane. *)
Theorem woven_bridges_cleared `{Externals} (cfg : SupportConfig)
    (head_pos : PointSet) (gndidx : list nat) (emesh : EigenMesh3D)
    (fuel fuel_rings : nat) (idx : SpatIndex.t) (rem : ClusterEl)
    (s : RState) :
  exists evs,
    rs_log (fst (weave_rings cfg head_pos gndidx emesh fuel fuel_rings idx
                             rem s))
    = rs_log s ++ evs
    /\ forall a b r,
         In (EvBridge a b r) evs ->
         match ray_mesh_intersect a (normalized (vsub b a)) emesh with
         | NoHit => True
         | Hit t => dist_xy a b <= t
         end.
Proof.
  destruct (weave_rings_log cfg head_pos gndidx emesh idx 0 fuel fuel_rings
              rem s) as (evs & Hlog & Hok); [ lia | ].
  exists evs. split; [ exact Hlog | ].
  intros a b r Hin. rewrite Forall_forall in Hok.
  specialize (Hok _ Hin). cbn [weave_event_ok] in Hok.
  destruct (ray_mesh_intersect a (normalized (vsub b a)) emesh) as [t|];
    [ | exact I ].
  cbn [dist_geb] in Hok. apply Rleb_le. exact Hok.
Qed.

(** ** The driving loop *)

Section Driving.
Context `{Externals}.
Variables (fuel : nat) (cfg : SupportConfig).

Lemma pinheadfn_twice (d : Data) :
  length (Impl.m_heads (result (pinheadfn cfg (pinheadfn cfg d))))
  = (length (Impl.m_heads (result d)) + 2 * length (head_positions d))%nat.
Proof.
  unfold pinheadfn, with_result.
  cbn [result head_positions filtered_normals].
  rewrite !pinheadfn_fold. cbn [Impl.m_heads].
  rewrite !length_app, !length_map, !length_seq. lia.
Qed.

(** X19: a [PAUSE] followed by [START_RESUME] while the planner is in a
    state below [DONE] reports [HALT] and then the state it paused in,
    returns to that state and runs the worker of that state a second time
    before the remaining commands are read; so a pause taken right after
    [PINHEADS] stores every head twice. *)
Theorem pause_resume_reruns_stage (points : PointSet) (mesh : EigenMesh3D)
    (rest : list Cmd) (c : Control) (d : Data) (sts : list Status)
    (log : list Event) :
  (step_index (pc c) < step_index DONE)%nat ->
  generate_loop fuel cfg points mesh (PAUSE :: START_RESUME :: rest) c d
                sts log
  = (let sts' := sts ++ [status_of HALT; status_of (pc c)] in
     match program fuel cfg points mesh (pc c) d with
     | (d', evs, Completed) =>
         generate_loop fuel cfg points mesh rest (mkControl (pc c) (pc c))
                       d' sts' (log ++ evs)
     | (d', evs, o) => Stuck o d' sts' (log ++ evs)
     end)
  /\ program fuel cfg points mesh PINHEADS (pinheadfn cfg d)
     = (pinheadfn cfg (pinheadfn cfg d), [], Completed)
  /\ length (Impl.m_heads (result (pinheadfn cfg (pinheadfn cfg d))))
     = (length (Impl.m_heads (result d)) + 2 * length (head_positions d))%nat.
Proof.
  intros Hpc. split; [ | split; [ reflexivity | apply pinheadfn_twice ] ].
  assert (Hcond : loop_cond (pc c) = true).
  { apply loop_cond_spec. left. exact Hpc. }
  destruct c as [s prev]. cbn [pc] in *.
  destruct fuel as [|f]; destruct s; cbn in Hpc; try lia;
    cbn [generate_loop loop_cond pc progress advance program pc_prev
         step_index Nat.ltb Nat.leb orb Steps_eqb Nat.eqb];
    rewrite ?app_nil_r, <- ?app_assoc; cbn [app];
    try reflexivity;
    destruct (routing_ground_fn _ _ _ _ _ _ _) as [s' o]; destruct o;
    reflexivity.
Qed.
End Driving.

Lemma pause_resume_reruns_stage_witness :
  length (Impl.m_heads
            (result (pinheadfn (H := overhang) standard_cfg
                       (pinheadfn (H := overhang) standard_cfg
                          (mkData [] [down] [mkVec3d 0 0 10] [] [] [] [] []
                                  Impl.empty)))))
  = 2%nat.
Proof.
  apply (pause_resume_reruns_stage (H := overhang) 0 standard_cfg [] 
           (mkEigenMesh3D [] []) [] control_init
           (mkData [] [down] [mkVec3d 0 0 10] [] [] [] [] [] Impl.empty)
           [] []).
  cbn. lia.
Defined.

(** X20: under seven [START_RESUME] commands [generate] runs [FILTER],
    [PINHEADS], [CLASSIFY] and [ROUTING_GROUND] once each, in this order and
    each on the data the one before left; when the routing ends it reports
    the seven states it enters, with the percentages 10, 30, 50, 60, 70, 80
    and 100, returns [false] and reads no further command; when the routing
    does not end, neither does [generate]. *)
Theorem generate_run_through `{Externals} (fuel : nat) (m_impl : Impl.t)
    (model : Model) (cfg : SupportConfig) (more : list Cmd) :
  let points := read_rows (support_points model) in
  let mesh := to_eigenmesh model in
  let d3 := classifyfn cfg mesh
              (pinheadfn cfg
                 (filterfn cfg points mesh (data_init m_impl))) in
  let routed := routing_ground_fn cfg (head_positions d3) (ground_heads d3)
                  mesh fuel (ground_connectors d3) (result d3) in
  let d4 := with_result d3 (rs_tree (fst routed)) in
  let sts4 := map status_of [FILTER; PINHEADS; CLASSIFY; ROUTING_GROUND] in
  let sts7 := sts4 ++ map status_of [ROUTING_NONGROUND; HEADLESS; DONE] in
  generate fuel m_impl model cfg (repeat START_RESUME 7 ++ more)
  = match snd routed with
    | Completed => Returned false d4 sts7 (rs_log (fst routed))
    | o => Stuck o d4 sts4 (rs_log (fst routed))
    end
  /\ map fst sts7 = [10; 30; 50; 60; 70; 80; 100]%nat.
Proof.
  intros points mesh d3 routed d4 sts4 sts7. split; [ | reflexivity ].
  unfold generate. fold points mesh.
  cbn [repeat app generate_loop loop_cond pc control_init progress advance
       program pc_prev step_index Nat.ltb Nat.leb orb Steps_eqb Nat.eqb].
  fold d3. fold routed.
  unfold d4, sts4, sts7.
  destruct routed as [s o]. cbn [fst snd].
  destruct o; rewrite ?app_nil_r; try reflexivity.
  destruct more; reflexivity.
Qed.

(** ** The pillars of a cluster *)

Lemma erase_sub (cl : list nat) (P : nat -> Prop) :
  forall cidx : nat,
    (cidx < length cl)%nat ->
    length (erase cidx cl) = (length cl - 1)%nat
    /\ (Forall P cl -> Forall P (erase cidx cl)).
Proof.
  induction cl as [|x cl IH]; intros cidx Hc; [ cbn in Hc; lia | ].
  destruct cidx as [|cidx]; cbn [erase length].
  - split; [ lia | ]. intros Hall. apply Forall_cons_iff in Hall. tauto.
  - cbn [length] in Hc. destruct (IH cidx ltac:(lia)) as [Hl HP].
    split; [ lia | ]. intros Hall. apply Forall_cons_iff in Hall.
    constructor; tauto.
Qed.

(** For a cluster that is not empty [cluster_centroid] returns the place
    of one of its members. *)
Lemma cluster_centroid_member (clust : ClusterEl) (pointfn : nat -> Vec3d) :
  clust <> [] ->
  exists k,
    cluster_centroid clust pointfn dist_xy = Some (Z.of_nat k)
    /\ (k < length clust)%nat.
Proof.
  intros Hne.
  destruct clust as [|a [|b [|c rest]]]; [ congruence | | | ].
  - exists 0%nat. split; [ reflexivity | cbn; lia ].
  - exists 0%nat. split; [ reflexivity | cbn; lia ].
  - set (cl := a :: b :: c :: rest) in *.
    assert (Hn : (3 <= length cl)%nat) by (cbn; lia).
    destruct (cluster_centroid_min cl pointfn dist_xy Hn) as [Hres Hlt].
    eexists. split; [ exact Hres | exact Hlt ].
Qed.

Section ClusterPillars.
Context `{Externals}.
Variables (cfg : SupportConfig) (head_pos : PointSet) (gndidx : list nat).

Lemma route_sidehead_counts (jh : Vec3d) (s : RState) (hidx : nat) :
  (hidx < length (Impl.m_heads (rs_tree s)))%nat ->
  exists s' k,
    route_sidehead cfg jh s hidx = (s', Completed)
    /\ (k <= 1)%nat
    /\ length (Impl.m_heads (rs_tree s')) = length (Impl.m_heads (rs_tree s))
    /\ length (Impl.m_pillars (rs_tree s'))
       = S (length (Impl.m_pillars (rs_tree s)))
    /\ length (Impl.m_junctions (rs_tree s'))
       = (length (Impl.m_junctions (rs_tree s)) + 2 * k)%nat
    /\ length (Impl.m_bridges (rs_tree s'))
       = (length (Impl.m_bridges (rs_tree s)) + k)%nat.
Proof.
  intros Hidx. unfold route_sidehead.
  destruct (nth_error (Impl.m_heads (rs_tree s)) hidx) as [h0|] eqn:Hh;
    [ | apply nth_error_None in Hh; lia ].
  destruct (Rltb 0 _).
  - eexists. exists 1%nat. split; [ reflexivity | ].
    cbn [rs_tree rs_add_bridge rs_add_junction rs_add_pillar rs_set_head
         Impl.m_heads Impl.m_pillars Impl.m_junctions Impl.m_bridges
         Impl.add_bridge Impl.add_junction Impl.add_pillar Impl.set_head].
    rewrite length_set_nth, !length_app. cbn [length].
    repeat split; lia.
  - eexists. exists 0%nat. split; [ reflexivity | ].
    cbn [rs_tree rs_add_pillar rs_set_head
         Impl.m_heads Impl.m_pillars Impl.m_junctions Impl.m_bridges
         Impl.add_pillar Impl.set_head].
    rewrite length_set_nth, !length_app. cbn [length].
    repeat split; lia.
Qed.

Lemma route_sideheads_counts (jh : Vec3d) (l : list nat) :
  forall s : RState,
    Forall (fun hidx => (hidx < length (Impl.m_heads (rs_tree s)))%nat) l ->
    exists s' k,
      for_each (route_sidehead cfg jh) l s = (s', Completed)
      /\ (k <= length l)%nat
      /\ length (Impl.m_heads (rs_tree s'))
         = length (Impl.m_heads (rs_tree s))
      /\ length (Impl.m_pillars (rs_tree s'))
         = (length (Impl.m_pillars (rs_tree s)) + length l)%nat
      /\ length (Impl.m_junctions (rs_tree s'))
         = (length (Impl.m_junctions (rs_tree s)) + 2 * k)%nat
      /\ length (Impl.m_bridges (rs_tree s'))
         = (length (Impl.m_bridges (rs_tree s)) + k)%nat.
Proof.
  induction l as [|hidx l IH]; intros s Hall.
  - exists s, 0%nat. cbn. repeat split; lia.
  - apply Forall_cons_iff in Hall. destruct Hall as [Hh Hl].
    destruct (route_sidehead_counts jh s hidx Hh)
      as (s1 & k1 & Hrun & Hk1 & H1 & H2 & H3 & H4).
    destruct (IH s1) as (s2 & k2 & Hrun2 & Hk2 & I1 & I2 & I3 & I4).
    { rewrite H1. exact Hl. }
    exists s2, (k1 + k2)%nat. cbn [for_each]. rewrite Hrun.
    split; [ exact Hrun2 | ]. cbn [length]. repeat split; lia.
Qed.

Lemma route_sidehead_keep (jh : Vec3d) (s : RState) (hidx : nat) :
  exists more,
    Impl.m_pillars (rs_tree (fst (route_sidehead cfg jh s hidx)))
    = Impl.m_pillars (rs_tree s) ++ more.
Proof.
  unfold route_sidehead.
  destruct (nth_error (Impl.m_heads (rs_tree s)) hidx) as [h0|];
    [ | exists []; rewrite app_nil_r; reflexivity ].
  destruct (Rltb 0 _); eexists; reflexivity.
Qed.

Lemma route_sideheads_keep (jh : Vec3d) (l : list nat) :
  forall s : RState,
    exists more,
      Impl.m_pillars (rs_tree (fst (for_each (route_sidehead cfg jh) l s)))
      = Impl.m_pillars (rs_tree s) ++ more.
Proof.
  induction l as [|hidx l IH]; intros s.
  - exists []. rewrite app_nil_r. reflexivity.
  - cbn [for_each].
    destruct (route_sidehead_keep jh s hidx) as (m1 & H1).
    destruct (route_sidehead cfg jh s hidx) as [s1 o] eqn:E.
    cbn [fst] in H1.
    destruct o; try (exists m1; exact H1).
    destruct (IH s1) as (m2 & H2). exists (m1 ++ m2).
    rewrite H2, H1, app_assoc. reflexivity.
Qed.

(** X21: routing a cluster that is not empty and whose members refer to
    heads of the tree ends normally and gives every head of the cluster
    exactly one pillar.  The first of them stands at height 0 under the
    junction point of the head that [cluster_centroid] chose, whose ground
    index is appended to the centroids; each other head adds either two
    junctions and one bridge or none of them; no head is added or
    removed. *)
Theorem route_cluster_pillars (s : RState) (cents cl : ClusterEl) :
  cl <> [] ->
  Forall (fun c => (nth c gndidx 0 < length (Impl.m_heads (rs_tree s)))%nat)
         cl ->
  exists s' cen head0 main k,
    route_cluster cfg head_pos gndidx (s, cents) cl
    = ((s', cents ++ [cen]), Completed)
    /\ In cen cl
    /\ nth_error (Impl.m_heads (rs_tree s)) (nth cen gndidx 0%nat)
       = Some head0
    /\ nth_error (Impl.m_pillars (rs_tree s'))
                 (length (Impl.m_pillars (rs_tree s))) = Some main
    /\ Pillar.endpoint main = set_z (Head.junction_point head0) 0
    /\ Pillar.headref main = nth cen gndidx 0%nat
    /\ length (Impl.m_heads (rs_tree s')) = length (Impl.m_heads (rs_tree s))
    /\ length (Impl.m_pillars (rs_tree s'))
       = (length (Impl.m_pillars (rs_tree s)) + length cl)%nat
    /\ (k <= length cl - 1)%nat
    /\ length (Impl.m_junctions (rs_tree s'))
       = (length (Impl.m_junctions (rs_tree s)) + 2 * k)%nat
    /\ length (Impl.m_bridges (rs_tree s'))
       = (length (Impl.m_bridges (rs_tree s)) + k)%nat.
Proof.
  intros Hne Hall.
  destruct (cluster_centroid_member cl (gnd_head_pt head_pos gndidx) Hne)
    as (cidx & Hc & Hlt).
  unfold route_cluster. rewrite Hc.
  destruct (Z.ltb_spec (Z.of_nat cidx) 0) as [C | _]; [ lia | ].
  rewrite Nat2Z.id.
  destruct (nth_error cl cidx) as [cen|] eqn:Hcen;
    [ | apply nth_error_None in Hcen; lia ].
  assert (Hin : In cen cl) by (eapply nth_error_In; exact Hcen).
  pose proof Hall as Hall'. rewrite Forall_forall in Hall'.
  pose proof (Hall' cen Hin) as Hhead.
  destruct (nth_error (Impl.m_heads (rs_tree s)) (nth cen gndidx 0%nat))
    as [head0|] eqn:Hh; [ | apply nth_error_None in Hh; lia ].
  set (head := Head.transform (Head.add_tail head0 (-1) (-1))).
  set (main := Pillar.add_base
                 (Pillar.make (nth cen gndidx 0%nat) head
                    (set_z (Head.junction_point head) 0)
                    (pillar_radius_mm cfg))
                 (base_height_mm cfg) (base_radius_mm cfg)).
  set (s1 := rs_add_pillar main
               (rs_set_head (nth cen gndidx 0%nat) head s)).
  destruct (erase_sub cl
              (fun c => (nth c gndidx 0 < length (Impl.m_heads (rs_tree s)))%nat)
              cidx Hlt) as (Hel & HeP).
  destruct (route_sideheads_counts (Head.junction_point head)
              (map (fun c => nth c gndidx 0%nat) (erase cidx cl)) s1)
    as (s2 & k & Hrun & Hk & H1 & H2 & H3 & H4).
  { apply Forall_map. unfold s1.
    cbn [rs_tree rs_add_pillar rs_set_head Impl.add_pillar Impl.set_head
         Impl.m_heads].
    rewrite length_set_nth. apply HeP. exact Hall. }
  rewrite Hrun.
  rewrite length_map, Hel in Hk, H2.
  unfold s1 in H1, H2, H3, H4.
  cbn [rs_tree rs_add_pillar rs_set_head Impl.add_pillar Impl.set_head
       Impl.m_heads Impl.m_pillars Impl.m_junctions Impl.m_bridges]
    in H1, H2, H3, H4.
  rewrite length_set_nth in H1. rewrite length_app in H2. cbn [length] in H2.
  exists s2, cen, head0, main, k.
  split; [ reflexivity | ]. split; [ exact Hin | ].
  split; [ exact Hh | ].
  split.
  { destruct (route_sideheads_keep (Head.junction_point head)
                (map (fun c => nth c gndidx 0%nat) (erase cidx cl)) s1)
      as (pre & Hpre).
    rewrite Hrun in Hpre. cbn [fst] in Hpre. rewrite Hpre.
    unfold s1. cbn [rs_tree rs_add_pillar Impl.add_pillar Impl.m_pillars
                    rs_set_head Impl.set_head].
    rewrite <- app_assoc. rewrite nth_error_app2 by lia.
    rewrite Nat.sub_diag. reflexivity. }
  split.
  { unfold main. rewrite (proj1 (pillar_add_base_frame _ _ _)).
    cbn [Pillar.make Pillar.endpoint]. unfold head.
    rewrite (proj2 (junction_point_prepared head0 (-1) (-1))).
    reflexivity. }
  split.
  { unfold main.
    rewrite (proj2 (proj2 (pillar_add_base_frame _ _ _))). reflexivity. }
  repeat split; lia.
Qed.
End ClusterPillars.

Lemma route_cluster_pillars_witness :
  exists s' cen,
    route_cluster (H := spike) tilt30_cfg
      [mkVec3d 0 0 10; mkVec3d 2 0 10] [0; 1]%nat
      (mkRState
         (Impl.mk [Head.make (H := spike) (/ 2) (/ 4) 1 down (mkVec3d 0 0 10) 45;
                   Head.make (H := spike) (/ 2) (/ 4) 1 down (mkVec3d 2 0 10) 45]
                  [] [] []) [], [])
      [0; 1]%nat
    = ((s', [cen]), Completed)
    /\ length (Impl.m_pillars (rs_tree s')) = 2%nat.
Proof.
  destruct (route_cluster_pillars (H := spike) tilt30_cfg
              [mkVec3d 0 0 10; mkVec3d 2 0 10] [0; 1]%nat
              (mkRState
                 (Impl.mk
                    [Head.make (H := spike) (/ 2) (/ 4) 1 down
                               (mkVec3d 0 0 10) 45;
                     Head.make (H := spike) (/ 2) (/ 4) 1 down
                               (mkVec3d 2 0 10) 45]
                    [] [] []) [])
              [] [0; 1]%nat)
    as (s' & cen & head0 & main & k & Hrun & _ & _ & _ & _ & _ & _ & Hp & _).
  - discriminate.
  - repeat constructor.
  - exists s', cen. split; [ exact Hrun | exact Hp ].
Defined.

(** ** The placement of a head *)

Section HeadPlacement.
Context `{Externals}.

(** Eigen's rotation from [(0, 0, -1)] onto a unit vector [b] that does
    not point straight up is a unit quaternion that sends [(0, 0, -t)] to
    [t * b]. *)
Lemma FromTwoVectors_down (b : Vec3d) :
  vdot b b = 1 ->
  vz b <= 1 - dummy_precision ->
  let q := FromTwoVectors down b in
  qw q * qw q + vdot (qvec q) (qvec q) = 1
  /\ forall t, qrot q (mkVec3d 0 0 (- t)) = vscale t b.
Proof.
  intros Hu Hz. unfold FromTwoVectors.
  rewrite (normalized_of_unit b Hu).
  rewrite (normalized_of_unit down) by (unfold vdot, down; cbn; lra).
  assert (Hc : vdot b down = - vz b) by (unfold vdot, down; cbn; lra).
  rewrite Hc.
  destruct (Rlt_dec (- vz b) (-1 + dummy_precision)) as [L | _]; [ lra | ].
  assert (Heps : 0 < dummy_precision)
    by (unfold dummy_precision; apply Rinv_0_lt_compat; lra).
  assert (Hpos : 0 < (1 + - vz b) * 2) by lra.
  pose proof (sqrt_lt_R0 _ Hpos) as Hs.
  pose proof (sqrt_sqrt ((1 + - vz b) * 2) (Rlt_le _ _ Hpos)) as Hss.
  set (s := sqrt ((1 + - vz b) * 2)) in *.
  assert (Hi : (1 / s) * s = 1) by (field; lra).
  set (i := 1 / s) in *.
  assert (Hh : / 2 * 2 = 1) by lra.
  set (half := / 2) in *.
  destruct b as [x y z]; unfold vdot, qrot, vcross, vadd, vscale, down in *;
    cbn in *.
  split; [ nsatz | ]. intros t. f_equal; nsatz.
Qed.

Lemma qrot_vsub (q : Quaternion) (a b : Vec3d) :
  qrot q (vsub a b) = vsub (qrot q a) (qrot q b).
Proof.
  destruct q as [w [ux uy uz]], a as [ax ay az], b as [bx by' bz].
  unfold qrot, vcross, vadd, vsub, vscale; cbn. f_equal; ring.
Qed.

(** X22: for a head whose direction is a unit vector that does not point
    straight up, [Head::transform] moves the mesh of the head by a rigid
    motion and changes nothing else of the mesh: the motion keeps every
    distance, takes the pin point, the origin of the mesh, to the position
    [tr] of the head and the axis [(0, 0, -1)] of the mesh onto the
    direction of the head, so that the point of the axis at the depth
    [2 * r_pin + width + r_back] becomes the junction point. *)
Theorem head_transform_rigid (h : Head.t) :
  vdot (Head.dir h) (Head.dir h) = 1 ->
  vz (Head.dir h) <= 1 - dummy_precision ->
  exists f : Vec3d -> Vec3d,
    points (Head.mesh (Head.transform h)) = map f (points (Head.mesh h))
    /\ indices (Head.mesh (Head.transform h)) = indices (Head.mesh h)
    /\ (forall p q, distance3 (f p) (f q) = distance3 p q)
    /\ f zero3 = Head.tr h
    /\ (forall t, f (mkVec3d 0 0 (- t))
                  = vadd (Head.tr h) (vscale t (Head.dir h)))
    /\ f (mkVec3d 0 0 (- (2 * Head.r_pin_mm h + Head.width_mm h
                          + Head.r_back_mm h)))
       = Head.junction_point h.
Proof.
  intros Hu Hz.
  destruct (FromTwoVectors_down (Head.dir h) Hu Hz) as (Hq & Hax).
  change (FromTwoVectors down (Head.dir h))
    with (FromTwoVectors (mkVec3d 0 0 (-1)) (Head.dir h)) in Hq, Hax.
  set (quatern := FromTwoVectors (mkVec3d 0 0 (-1)) (Head.dir h)) in *.
  exists (fun p => vadd (qrot quatern p) (Head.tr h)).
  assert (Hcomm : forall a b, vadd a b = vadd b a).
  { intros a b. unfold vadd. f_equal; ring. }
  split; [ reflexivity | ]. split; [ reflexivity | ].
  split.
  { intros p q. unfold distance3, norm3. f_equal.
    assert (Hd : vsub (vadd (qrot quatern q) (Head.tr h))
                      (vadd (qrot quatern p) (Head.tr h))
                 = qrot quatern (vsub q p)).
    { rewrite qrot_vsub. unfold vsub, vadd. cbn. f_equal; ring. }
    rewrite Hd. apply qrot_vdot. exact Hq. }
  split.
  { replace zero3 with (mkVec3d 0 0 (- 0)) by (unfold zero3; f_equal; ring).
    rewrite Hax. unfold vadd, vscale. destruct (Head.tr h). cbn.
    f_equal; ring. }
  split.
  { intros t. rewrite Hax. apply Hcomm. }
  rewrite Hax. unfold Head.junction_point. apply Hcomm.
Qed.
End HeadPlacement.

Lemma head_transform_rigid_witness :
  exists f : Vec3d -> Vec3d,
    points (Head.mesh (Head.transform (H := overhang) (row_head 0)))
    = map f (points (Head.mesh (row_head 0)))
    /\ f zero3 = mkVec3d 0 0 10.
Proof.
  destruct (head_transform_rigid (H := overhang) (row_head 0))
    as (f & Hp & _ & _ & Htr & _).
  - unfold vdot. cbn. ring.
  - cbn. unfold dummy_precision. lra.
  - exists f. split; [ exact Hp | exact Htr ].
Defined.

(** ** The junction index *)

Lemma fill_index_entries (junctions : list Junction.t) :
  fill_index junctions
  = map (fun ej : nat * Junction.t =>
           (mkVec3d (vx (Junction.pos (snd ej))) (vy (Junction.pos (snd ej))) 0,
            fst ej))
        (combine (seq 0 (length junctions)) junctions).
Proof.
  unfold fill_index, SpatIndex.insert, SpatIndex.empty.
  assert (Hgen : forall (l : list (nat * Junction.t)) (acc : SpatIndex.t),
             fold_left
               (fun idx (ej : nat * Junction.t) =>
                  idx ++ [(mkVec3d (vx (Junction.pos (snd ej)))
                                   (vy (Junction.pos (snd ej))) 0, fst ej)])
               l acc
             = acc
               ++ map (fun ej : nat * Junction.t =>
                         (mkVec3d (vx (Junction.pos (snd ej)))
                                  (vy (Junction.pos (snd ej))) 0, fst ej)) l).
  { induction l as [|x l IH]; intros acc; cbn [fold_left map].
    - rewrite app_nil_r. reflexivity.
    - rewrite IH, <- app_assoc. reflexivity. }
  apply Hgen.
Qed.

Lemma in_combine_seq {A} (l : list A) :
  forall (k i : nat) (x : A),
    In (i, x) (combine (seq k (length l)) l) ->
    (k <= i)%nat /\ nth_error l (i - k) = Some x.
Proof.
  induction l as [|y l IH]; intros k i x Hin; [ destruct Hin | ].
  cbn [length seq combine] in Hin. destruct Hin as [E | Hin].
  - injection E as <- <-. rewrite Nat.sub_diag. split; [ lia | reflexivity ].
  - apply IH in Hin. destruct Hin as [Hk Hn]. split; [ lia | ].
    replace (i - k)%nat with (S (i - S k)) by lia. exact Hn.
Qed.

Lemma max_element_from_first {A} (comp : A -> A -> bool) (largest : A)
    (l : list A) :
  Forall (fun x => comp largest x = false) l ->
  max_element_from comp largest l = largest.
Proof.
  induction 1 as [|x l Hx Hl IH]; [ reflexivity | ].
  cbn [max_element_from]. rewrite Hx. exact IH.
Qed.

(** X23: the junction index that the ring weaving queries holds one
    entry per junction of the tree, in order, under the position of the
    junction in the tree and with its [x] and [y] but at height 0.  So every
    id that a query returns is a junction of the tree above the entry; and
    since all heights in the index are equal, the search for the highest
    junction among the results of a query always picks the first
    result. *)
Theorem junction_index_entries (junctions : list Junction.t) :
  map snd (fill_index junctions) = seq 0 (length junctions)
  /\ (forall se,
         In se (fill_index junctions) ->
         exists j,
           nth_error junctions (snd se) = Some j
           /\ fst se = mkVec3d (vx (Junction.pos j)) (vy (Junction.pos j)) 0)
  /\ (forall se rest,
         Forall (fun x => In x (fill_index junctions)) (se :: rest) ->
         max_element_from
           (fun se1 se2 : SpatElement => Rltb (vz (fst se1)) (vz (fst se2)))
           se rest
         = se).
Proof.
  rewrite fill_index_entries.
  assert (Hent : forall se,
             In se (map (fun ej : nat * Junction.t =>
                           (mkVec3d (vx (Junction.pos (snd ej)))
                                    (vy (Junction.pos (snd ej))) 0, fst ej))
                        (combine (seq 0 (length junctions)) junctions)) ->
             exists j,
               nth_error junctions (snd se) = Some j
               /\ fst se
                  = mkVec3d (vx (Junction.pos j)) (vy (Junction.pos j)) 0).
  { intros se Hin. apply in_map_iff in Hin.
    destruct Hin as ([i j] & <- & Hij). cbn [fst snd].
    exists j. split; [ | reflexivity ].
    apply in_combine_seq in Hij. destruct Hij as [_ Hij].
    rewrite Nat.sub_0_r in Hij. exact Hij. }
  split; [ | split ].
  - rewrite map_map. cbn [snd].
    clear Hent. generalize 0%nat as k.
    induction junctions as [|j js IH]; intros k; [ reflexivity | ].
    cbn [length seq combine map fst]. f_equal. apply IH.
  - exact Hent.
  - intros se rest Hall. apply Forall_cons_iff in Hall.
    destruct Hall as [Hse Hrest].
    apply max_element_from_first.
    destruct (Hent se Hse) as (j & _ & Hz).
    revert Hrest. apply Forall_impl. intros x Hx.
    destruct (Hent x Hx) as (j' & _ & Hz').
    rewrite Hz, Hz'. cbn [vz]. apply Rltb_false. lra.
Qed.

(** ** The pillar under the centroid of a cluster *)

(** The points of the base that [Pillar::add_base] builds, for a positive
    height, on a pillar without a base. *)
Lemma add_base_points (p : Pillar.t) (height radius : R) :
  Pillar.base p = empty_contour -> 0 < height ->
  let e := Pillar.endpoint p in
  points (Pillar.base (Pillar.add_base p height radius))
  = ring_points (Pillar.steps p) (vx e) (vy e) (Pillar.r p) (vz e + height)
    ++ ring_points (Pillar.steps p) (vx e) (vy e)
         (if Rltb radius (Pillar.r p) then Pillar.r p else radius)
         (vz e + height - height)
    ++ [e; set_z e (vz e + height)].
Proof.
  intros Hfresh Hh e. unfold Pillar.add_base.
  rewrite (Rleb_false _ _ Hh), Hfresh. reflexivity.
Qed.

(** X24: the pillar that the routing puts under the head chosen as the
    centroid of a cluster, for a head with a positive back radius whose tail
    was still empty and a positive base height.  Its mesh is a vertical prism
    under the junction point of the head, from the lower end of the tail down
    to height 0, of radius [0.65 * r_back] whatever pillar radius is
    configured; its field [r] is the radius that [request_pillar_radius]
    grants for the configured one, and its base goes from a ring of that
    radius at the base height to a ring at height 0 of the configured base
    radius, or of [r] if that is larger. *)
Theorem ground_pillar_geometry `{Externals} (cfg : SupportConfig) (i : nat)
    (head0 : Head.t) :
  Tail.mesh (Head.tail head0) = empty_contour ->
  (1 <= Head.steps head0)%nat ->
  0 < Head.r_back_mm head0 ->
  0 < base_height_mm cfg ->
  let head := Head.transform (Head.add_tail head0 (-1) (-1)) in
  let main := Pillar.add_base
                (Pillar.make i head (set_z (Head.junction_point head) 0)
                             (pillar_radius_mm cfg))
                (base_height_mm cfg) (base_radius_mm cfg) in
  let jp := Head.junction_point head0 in
  let n := Head.steps head0 in
  let r := Head.request_pillar_radius head0 (pillar_radius_mm cfg) in
  Pillar.endpoint main = set_z jp 0
  /\ Pillar.r main = r
  /\ length (points (Pillar.mesh main)) = (2 * n)%nat
  /\ Forall (on_ring (vx jp) (vy jp) (Head.r_back_mm head0 * 0.65)
                     (vz jp - Tail.length (Head.tail head0)))
            (firstn n (points (Pillar.mesh main)))
  /\ Forall (on_ring (vx jp) (vy jp) (Head.r_back_mm head0 * 0.65) 0)
            (skipn n (points (Pillar.mesh main)))
  /\ Forall (on_ring (vx jp) (vy jp) r (base_height_mm cfg))
            (firstn n (points (Pillar.base main)))
  /\ Forall (on_ring (vx jp) (vy jp) (Rmax (base_radius_mm cfg) r) 0)
            (firstn n (skipn n (points (Pillar.base main)))).
Proof.
  intros Hfresh Hs Hb Hh head main jp n r.
  set (ha := Head.add_tail head0 (-1) (-1)).
  assert (Hjp : Head.junction_point head = jp)
    by (apply (proj2 (junction_point_prepared head0 (-1) (-1)))).
  set (stem := Pillar.make i head (set_z (Head.junction_point head) 0)
                 (pillar_radius_mm cfg)) in *.
  pose proof (add_tail_fresh head0 (-1) (-1) Hfresh) as Hm.
  cbv zeta in Hm. fold ha jp n in Hm.
  assert (Htl : Tail.length (Head.tail ha) = Tail.length (Head.tail head0)).
  { unfold ha, Head.add_tail. cbn [Head.tail Tail.length].
    rewrite Rltb_false by lra. reflexivity. }
  assert (Hrl : Head.request_pillar_radius head0 (-1)
                = Head.r_back_mm head0 * 0.65).
  { unfold Head.request_pillar_radius. rewrite (Rltb_false 0 (-1)) by lra.
    reflexivity. }
  rewrite Htl, Hrl in Hm.
  set (top := ring_points n (vx jp) (vy jp) (Head.r_back_mm head0 * 0.9)
                (vz jp)) in *.
  set (low := ring_points n (vx jp) (vy jp) (Head.r_back_mm head0 * 0.65)
                (vz jp - Tail.length (Head.tail head0))) in *.
  assert (Hlt : length top = n) by apply length_ring_points.
  assert (Hll : length low = n) by apply length_ring_points.
  assert (Hstem : points (Pillar.mesh stem)
                  = low ++ map (fun s => mkVec3d (vx s) (vy s) 0) low).
  { unfold stem, Pillar.make. cbn [Pillar.mesh points].
    change (Head.tail head) with (Head.tail ha).
    change (Head.steps head) with n.
    rewrite Hm. cbn [points set_z vz].
    rewrite skipn_app, Hlt, Nat.sub_diag.
    rewrite skipn_all2 by lia. reflexivity. }
  assert (Hmesh : Pillar.mesh main = Pillar.mesh stem).
  { unfold main, Pillar.add_base. destruct (Rleb _ 0); reflexivity. }
  assert (Hend : Pillar.endpoint stem = set_z jp 0)
    by (unfold stem; cbn [Pillar.make Pillar.endpoint]; rewrite Hjp;
        reflexivity).
  assert (Hr : Pillar.r stem = r) by reflexivity.
  assert (Hn : Pillar.steps stem = n) by reflexivity.
  split.
  { unfold main. rewrite (proj1 (pillar_add_base_frame _ _ _)). exact Hend. }
  split.
  { unfold main.
    rewrite (proj1 (proj2 (pillar_add_base_frame _ _ _))). exact Hr. }
  rewrite Hmesh, Hstem.
  split; [ rewrite length_app, length_map, Hll; lia | ].
  split.
  { rewrite firstn_app, Hll, Nat.sub_diag. cbn [firstn].
    rewrite app_nil_r, firstn_all2 by lia. apply ring_points_on_ring. }
  split.
  { rewrite skipn_app, Hll, Nat.sub_diag.
    rewrite skipn_all2 by lia. cbn [skipn app].
    apply Forall_map.
    eapply Forall_impl; [ | apply (ring_points_on_ring n (vx jp) (vy jp)) ].
    intros a [Ha _]. split; [ exact Ha | reflexivity ]. }
  unfold main. rewrite add_base_points by (reflexivity || exact Hh).
  rewrite Hend, Hr, Hn. cbn [set_z vx vy vz].
  set (rad := if Rltb (base_radius_mm cfg) r then r else base_radius_mm cfg).
  assert (Hrad : rad = Rmax (base_radius_mm cfg) r).
  { unfold rad, Rltb, Rmax.
    destruct (Rlt_dec (base_radius_mm cfg) r),
             (Rle_dec (base_radius_mm cfg) r); lra. }
  split.
  { rewrite firstn_app, length_ring_points, Nat.sub_diag. cbn [firstn].
    rewrite app_nil_r, firstn_all2 by (rewrite length_ring_points; lia).
    eapply Forall_impl; [ | apply ring_points_on_ring ].
    intros a [Ha Hz]. split; [ exact Ha | rewrite Hz; ring ]. }
  rewrite skipn_app, length_ring_points, Nat.sub_diag.
  rewrite skipn_all2 by (rewrite length_ring_points; lia). cbn [skipn app].
  rewrite firstn_app, length_ring_points, Nat.sub_diag. cbn [firstn].
  rewrite app_nil_r, firstn_all2 by (rewrite length_ring_points; lia).
  rewrite <- Hrad.
  eapply Forall_impl; [ | apply ring_points_on_ring ].
  intros a [Ha Hz]. split; [ exact Ha | rewrite Hz; ring ].
Qed.

Lemma ground_pillar_geometry_witness :
  length (points (Pillar.mesh (row_pillar 0 0))) = 90%nat.
Proof.
  destruct (ground_pillar_geometry (H := overhang) tilt30_cfg 0 (row_head 0))
    as (_ & _ & Hlen & _).
  - reflexivity.
  - cbn. lia.
  - cbn. lra.
  - cbn. lra.
  - exact Hlen.
Defined.

(** ** Spheres *)

Lemma flat_map_ext_in {A B} (f g : A -> list B) (l : list A) :
  (forall a, In a l -> f a = g a) -> flat_map f l = flat_map g l.
Proof.
  induction l as [|a l IH]; intros Hfg; [ reflexivity | ].
  cbn [flat_map]. rewrite Hfg by (left; reflexivity).
  rewrite IH; [ reflexivity | ]. intros b Hb. apply Hfg. right. exact Hb.
Qed.

Lemma ring_fold_closed (vertex : R -> Vec3d)
    (facets : Z -> nat -> list Vec3crd) (ring : list R) (acc : SphereAcc) :
  ring_fold vertex facets ring acc
  = mkSphereAcc
      (mkContour3D
         (points (sph_mesh acc) ++ map vertex ring)
         (indices (sph_mesh acc)
          ++ flat_map (fun i => facets (sph_id acc + Z.of_nat i)%Z i)
                      (seq 0 (length ring))))
      (sph_id acc + Z.of_nat (length ring))%Z.
Proof.
  unfold ring_fold.
  assert (Hgen : forall (l : list R) (k : nat) (a0 : SphereAcc),
             fold_left
               (fun acc (ia : nat * R) =>
                  let '(i, a) := ia in
                  mkSphereAcc
                    (mkContour3D (points (sph_mesh acc) ++ [vertex a])
                       (indices (sph_mesh acc) ++ facets (sph_id acc) i))
                    (sph_id acc + 1)%Z)
               (combine (seq k (length l)) l) a0
             = mkSphereAcc
                 (mkContour3D
                    (points (sph_mesh a0) ++ map vertex l)
                    (indices (sph_mesh a0)
                     ++ flat_map
                          (fun i => facets (sph_id a0 + Z.of_nat (i - k))%Z i)
                          (seq k (length l))))
                 (sph_id a0 + Z.of_nat (length l))%Z).
  { induction l as [|a l IH]; intros k a0.
    - cbn. rewrite !app_nil_r, Z.add_0_r. destruct a0 as [[p i] d].
      reflexivity.
    - cbn [length seq combine fold_left map flat_map].
      rewrite IH. cbn [sph_mesh sph_id points indices].
      rewrite <- !app_assoc. cbn [app]. rewrite Nat.sub_diag, Z.add_0_r.
      f_equal; [ | lia ]. f_equal. f_equal. f_equal.
      apply flat_map_ext_in. intros i Hi. apply in_seq in Hi.
      f_equal. lia. }
  rewrite Hgen. f_equal. f_equal. f_equal.
  apply flat_map_ext_in. intros i _. rewrite Nat.sub_0_r. reflexivity.
Qed.

Lemma sphere_vertex_on_sphere (rho z a : R) :
  z * z <= rho * rho ->
  let v := sphere_vertex (sqrt (Rabs (rho * rho - z * z))) z a in
  vdot v v = rho * rho.
Proof.
  intros Hz v. unfold v, sphere_vertex, rot2d_0r, vdot. cbn [ux uy vx vy vz].
  set (r := sqrt (Rabs (rho * rho - z * z))).
  assert (Hr : r * r = rho * rho - z * z).
  { unfold r. rewrite sqrt_sqrt by apply Rabs_pos.
    apply Rabs_right. lra. }
  pose proof (sin2_cos2 a) as Hsc. unfold Rsqr in Hsc. nsatz.
Qed.

(** The height of step [s] of [N] lies within the sphere. *)
Lemma sphere_step_height (rho : R) (N s : nat) :
  (1 <= N)%nat -> (s <= N)%nat ->
  let z := - rho + 1 / INR N * INR s * 2 * rho in
  z * z <= rho * rho.
Proof.
  intros HN Hs z.
  assert (HNr : 0 < INR N) by (apply lt_0_INR; lia).
  assert (Hsr : 0 <= INR s <= INR N)
    by (split; [ apply pos_INR | apply le_INR; exact Hs ]).
  set (t := 1 / INR N * INR s).
  assert (Ht : 0 <= t <= 1).
  { unfold t. split.
    - apply Rmult_le_pos; [ | lra ].
      unfold Rdiv. rewrite Rmult_1_l. left. apply Rinv_0_lt_compat. lra.
    - replace 1 with (1 / INR N * INR N) at 2 by (field; lra).
      apply Rmult_le_compat_l; [ | lra ].
      unfold Rdiv. rewrite Rmult_1_l. left. apply Rinv_0_lt_compat. lra. }
  assert (Hz : z = rho * (2 * t - 1)) by (unfold z, t; ring).
  rewrite Hz.
  assert (H1 : (2 * t - 1) * (2 * t - 1) <= 1) by nra.
  assert (H2 : 0 <= rho * rho) by nra.
  nra.
Qed.

Lemma ring_fold_wf (P : Vec3d -> Prop) (vertex : R -> Vec3d)
    (facets : Z -> nat -> list Vec3crd) (ring : list R) (acc : SphereAcc)
    (c : nat) :
  sph_id acc = Z.of_nat (length (points (sph_mesh acc))) ->
  indices_in_range (sph_mesh acc) ->
  Forall P (points (sph_mesh acc)) ->
  (forall a, P (vertex a)) ->
  (forall i, (i < length ring)%nat ->
             length (facets (sph_id acc + Z.of_nat i)%Z i) = c
             /\ Forall (facet_in_range
                          (length (points (sph_mesh acc)) + length ring))
                       (facets (sph_id acc + Z.of_nat i)%Z i)) ->
  let acc' := ring_fold vertex facets ring acc in
  sph_id acc' = Z.of_nat (length (points (sph_mesh acc')))
  /\ indices_in_range (sph_mesh acc')
  /\ Forall P (points (sph_mesh acc'))
  /\ length (points (sph_mesh acc'))
     = (length (points (sph_mesh acc)) + length ring)%nat
  /\ length (indices (sph_mesh acc'))
     = (length (indices (sph_mesh acc)) + c * length ring)%nat.
Proof.
  intros Hid Hwf HP Hv Hf acc'. unfold acc'. rewrite ring_fold_closed.
  unfold indices_in_range. cbn [sph_mesh sph_id points indices].
  rewrite !length_app, length_map.
  split; [ rewrite Hid; lia | ].
  split.
  { apply Forall_app. split.
    - revert Hwf. unfold indices_in_range. apply Forall_impl.
      intros f. apply facet_in_range_mono. lia.
    - apply Forall_flat_map, Forall_forall. intros i Hi.
      apply in_seq in Hi. apply Hf. lia. }
  split.
  { apply Forall_app. split; [ exact HP | ].
    apply Forall_map, Forall_forall. intros a _. apply Hv. }
  split; [ reflexivity | ].
  f_equal.
  assert (Hlen : forall l : list nat,
             Forall (fun i => (i < length ring)%nat) l ->
             length (flat_map (fun i => facets (sph_id acc + Z.of_nat i)%Z i) l)
             = (c * length l)%nat).
  { induction l as [|i l IH]; intros Hl; [ cbn; lia | ].
    apply Forall_cons_iff in Hl. destruct Hl as [Hi Hl].
    cbn [flat_map length]. rewrite length_app, IH by exact Hl.
    rewrite (proj1 (Hf i Hi)). lia. }
  rewrite Hlen, length_seq; [ reflexivity | ].
  apply Forall_forall. intros i Hi. apply in_seq in Hi. lia.
Qed.

Section SphereMesh.
Variables (rho : R) (N : nat) (ring : list R).
Hypothesis HN : (1 <= N)%nat.
Hypothesis Hring : length ring = N.

Local Abbreviation on_sphere := (fun v : Vec3d => vdot v v = rho * rho).
Local Abbreviation increment := (1 / INR N).

(** The rings of the general case. *)
Lemma sphere_rings_wf (l : list nat) :
  forall acc : SphereAcc,
    Forall (fun s => (s <= N)%nat) l ->
    sph_id acc = Z.of_nat (length (points (sph_mesh acc))) ->
    indices_in_range (sph_mesh acc) ->
    Forall on_sphere (points (sph_mesh acc)) ->
    (N <= length (points (sph_mesh acc)))%nat ->
    let acc' :=
      fold_left
        (fun acc s =>
           let z := - rho + increment * INR s * 2 * rho in
           let r := sqrt (Rabs (rho * rho - z * z)) in
           ring_fold (sphere_vertex r z)
             (fun id i =>
                let id_ringsize := (id - Z.of_nat N)%Z in
                if Nat.eqb i 0 then
                  [ (id - 1, id, id + (Z.of_nat N - 1));
                    (id - 1, id_ringsize, id) ]%Z
                else
                  [ (id_ringsize - 1, id_ringsize, id);
                    (id - 1, id_ringsize - 1, id) ]%Z)
             ring acc)
        l acc in
    sph_id acc' = Z.of_nat (length (points (sph_mesh acc')))
    /\ indices_in_range (sph_mesh acc')
    /\ Forall on_sphere (points (sph_mesh acc'))
    /\ length (points (sph_mesh acc'))
       = (length (points (sph_mesh acc)) + N * length l)%nat
    /\ length (indices (sph_mesh acc'))
       = (length (indices (sph_mesh acc)) + 2 * N * length l)%nat.
Proof.
  induction l as [|s l IH]; intros acc Hl Hid Hwf HP Hlen.
  - cbn [fold_left length]. repeat split; auto; lia.
  - apply Forall_cons_iff in Hl. destruct Hl as [Hs Hl].
    cbn [fold_left length].
    set (z := - rho + increment * INR s * 2 * rho).
    set (r := sqrt (Rabs (rho * rho - z * z))).
    destruct (ring_fold_wf on_sphere (sphere_vertex r z)
                (fun id i =>
                   let id_ringsize := (id - Z.of_nat N)%Z in
                   if Nat.eqb i 0 then
                     [ (id - 1, id, id + (Z.of_nat N - 1));
                       (id - 1, id_ringsize, id) ]%Z
                   else
                     [ (id_ringsize - 1, id_ringsize, id);
                       (id - 1, id_ringsize - 1, id) ]%Z)
                ring acc 2 Hid Hwf HP)
      as (Hid1 & Hwf1 & HP1 & Hp1 & Hi1).
    { intros a. apply sphere_vertex_on_sphere.
      apply sphere_step_height; assumption. }
    { intros i Hi. rewrite Hring in *. rewrite Hid. cbv zeta.
      destruct (Nat.eqb_spec i 0) as [-> | Hne];
        (split; [ reflexivity | ]); repeat constructor; try lia. }
    rewrite Hring in Hp1, Hi1.
    destruct (IH _ Hl Hid1 Hwf1 HP1 ltac:(lia)) as (I1 & I2 & I3 & I4 & I5).
    split; [ exact I1 | ]. split; [ exact I2 | ]. split; [ exact I3 | ].
    split; (etransitivity; [ eassumption | ]); [ rewrite Hp1 | rewrite Hi1 ];
      nia.
Qed.
End SphereMesh.

Section SphereTheorem.
Variables (rho : R) (portion : Portion) (fa : Double.t).

Local Abbreviation n := (sphere_steps fa).
Local Abbreviation sbegin := (sphere_sbegin portion fa).
Local Abbreviation send := (sphere_send portion fa).
Local Abbreviation top := (sphere_top fa).
Local Abbreviation on_sphere := (fun v : Vec3d => vdot v v = rho * rho).

Lemma sphere_small :
  Rabs rho <= / 1000000 -> Mesh.sphere rho portion fa = empty_contour.
Proof.
  intros Hr. unfold Mesh.sphere.
  assert (H1 : rho <= / 1000000 /\ - / 1000000 <= rho).
  { unfold Rabs in Hr. destruct (Rcase_abs rho); lra. }
  rewrite (Rleb_true _ _ (proj1 H1)), (Rleb_true _ _ (proj2 H1)).
  reflexivity.
Qed.

Lemma sphere_guard :
  / 1000000 < Rabs rho ->
  Rleb rho (/ 1000000) && Rleb (- / 1000000) rho = false.
Proof.
  intros Hr. unfold Rabs in Hr. destruct (Rcase_abs rho).
  - rewrite (Rleb_false (- / 1000000) rho) by lra. apply andb_false_r.
  - rewrite (Rleb_false rho (/ 1000000)) by lra. reflexivity.
Qed.

(** The mesh of a sphere by the step numbers that the doubles give: all
    vertices but the top pole lie on the sphere. *)
Lemma sphere_mesh_props :
  (sbegin < n)%nat -> (1 <= send <= n)%nat ->
  / 1000000 < Rabs rho ->
  let c := Mesh.sphere rho portion fa in
  let pole := mkVec3d 0 0 (- rho + 1 / INR n * INR send * 2 * rho) in
  exists body,
    points c = body ++ (if Nat.leb top send then [pole] else [])
    /\ Forall on_sphere body
    /\ indices_in_range c
    /\ length body
       = ((if Nat.eqb sbegin 0 then 1 else 0)
          + n * S (send - 1 - (sbegin + 2)))%nat
    /\ length (indices c)
       = ((if Nat.eqb sbegin 0 then n else 0)
          + 2 * n * (send - 1 - (sbegin + 2))
          + (if Nat.leb top send then n else 0))%nat.
Proof.
  intros Hsb Hse Hr c pole.
  assert (HN : (1 <= n)%nat) by lia.
  assert (HNr : 0 < INR n) by (apply lt_0_INR; lia).
  unfold c, Mesh.sphere. rewrite (sphere_guard Hr). cbv zeta.
  set (ring := map Double.to_R (Double.ring fa)).
  assert (Hring : length ring = n) by (unfold ring; apply length_map).
  rewrite Hring.
  change (Double.portion_step (fst portion) (Double.step_angle fa))
    with sbegin.
  change (Double.portion_step (snd portion) (Double.step_angle fa))
    with send.
  change (Double.portion_step Double.PI (Double.step_angle fa)) with top.
  replace (Nat.eqb send 0) with false
    by (symmetry; apply Nat.eqb_neq; lia).
  (* the first vertex *)
  set (c0 := if Nat.eqb sbegin 0
             then mkContour3D
                    [mkVec3d 0 0 (- rho + 1 / INR n * INR sbegin * 2 * rho)]
                    []
             else empty_contour).
  assert (H0 : indices_in_range c0
               /\ Forall on_sphere (points c0)
               /\ length (points c0) = (if Nat.eqb sbegin 0 then 1 else 0)%nat
               /\ length (indices c0) = 0%nat).
  { unfold c0. destruct (Nat.eqb_spec sbegin 0) as [E | _].
    - rewrite E. repeat split; try constructor; [ | constructor ].
      unfold vdot. cbn. ring.
    - repeat split; constructor. }
  destruct H0 as (Hwf0 & HP0 & Hlen0 & Hind0).
  (* the first ring *)
  set (z1 := - rho + 1 / INR n * rho * 2 * (INR sbegin + 1)).
  set (acc1 := ring_fold _ _ ring (mkSphereAcc c0 _)).
  destruct (ring_fold_wf on_sphere
              (sphere_vertex (sqrt (Rabs (rho * rho - z1 * z1))) z1)
              (fun id i =>
                 if Nat.eqb sbegin 0 then
                   [ if Nat.eqb i 0 then (Z.of_nat n, 0, 1)
                     else (id - 1, 0, id) ]%Z
                 else [])
              ring (mkSphereAcc c0 (Z.of_nat (length (points c0))))
              (if Nat.eqb sbegin 0 then 1 else 0)%nat
              eq_refl Hwf0 HP0)
    as (Hid1 & Hwf1 & HP1 & Hlen1 & Hind1).
  { intros a. apply sphere_vertex_on_sphere.
    replace z1 with (- rho + 1 / INR n * INR (S sbegin) * 2 * rho)
      by (unfold z1; rewrite S_INR; ring).
    apply sphere_step_height; lia. }
  { intros i Hi. rewrite Hring in Hi. cbn [sph_mesh sph_id].
    rewrite Hlen0, Hring.
    destruct (Nat.eqb_spec sbegin 0) as [_ | _];
      [ | split; [ reflexivity | constructor ] ].
    split; [ reflexivity | ].
    destruct (Nat.eqb_spec i 0) as [-> | Hne];
      repeat constructor; try lia. }
  fold acc1 in Hid1, Hwf1, HP1, Hlen1, Hind1.
  cbn [sph_mesh] in Hlen1, Hind1. rewrite Hring, Hlen0 in Hlen1.
  rewrite Hring, Hind0 in Hind1.
  (* the rings of the general case *)
  set (rings := seq (sbegin + 2) (send - 1 - (sbegin + 2))).
  destruct (sphere_rings_wf rho n ring HN Hring rings acc1)
    as (Hid2 & Hwf2 & HP2 & Hlen2 & Hind2);
    [ apply Forall_forall; intros s Hs; apply in_seq in Hs; lia
    | exact Hid1 | exact Hwf1 | exact HP1 | lia | ].
  cbv zeta in Hid2, Hwf2, HP2, Hlen2, Hind2.
  set (acc2 := fold_left _ rings acc1) in *.
  assert (Hrl : length rings = (send - 1 - (sbegin + 2))%nat)
    by apply length_seq.
  exists (points (sph_mesh acc2)).
  assert (Hbody : length (points (sph_mesh acc2))
                  = ((if Nat.eqb sbegin 0 then 1 else 0)
                     + n * S (send - 1 - (sbegin + 2)))%nat).
  { rewrite Hlen2, Hlen1, Hrl. nia. }
  (* the last vertex *)
  destruct (Nat.leb_spec top send) as [Hfull | Hpart].
  - unfold indices_in_range. cbn [points indices].
    rewrite !length_app, length_map, length_seq. cbn [length].
    split; [ reflexivity | ]. split; [ exact HP2 | ].
    split.
    { apply Forall_app. split.
      - revert Hwf2. unfold indices_in_range. apply Forall_impl.
        intros f. apply facet_in_range_mono. lia.
      - apply Forall_map, Forall_forall. intros i Hi. apply in_seq in Hi.
        rewrite Hid2.
        destruct (Nat.eqb_spec i 0) as [-> | Hne];
          cbv zeta; unfold facet_in_range; lia. }
    split; [ exact Hbody | ].
    rewrite Hind2, Hind1, Hrl. destruct (Nat.eqb sbegin 0); nia.
  - rewrite app_nil_r.
    split; [ reflexivity | ]. split; [ exact HP2 | ].
    split; [ exact Hwf2 | ]. split; [ exact Hbody | ].
    rewrite Hind2, Hind1, Hrl. destruct (Nat.eqb sbegin 0); nia.
Qed.

(** X25: [sphere(rho, portion, fa)], reading [abs] as the absolute value
    of a double, by the numbers that the code computes in binary64: the
    size [n] of the ring, the first and the last step [sbegin] and [send]
    of the portion and the step [top] from which on the top pole is added.
    For a step angle whose loop over the ring ends and a portion with
    [sbegin < n] and [1 <= send <= n]: for a radius of at most [1e-6] in
    absolute value the mesh is empty; otherwise every triangle refers to
    vertices of the mesh, the numbers of vertices and triangles are those
    of [send - sbegin - 2] rings of [n] vertices (at least one ring) with
    the two poles where they belong, and every vertex other than the top
    pole lies at distance [|rho|] from the origin.  The top pole stands at
    the height of the step [send] of [n]: on the sphere when [send = n],
    strictly inside it when [send < n], which is what a ring with one
    angle more than [2*PI / angle] leads to. *)
Theorem sphere_mesh :
  (n < Double.ring_fuel fa)%nat -> (sbegin < n)%nat ->
  (1 <= send <= n)%nat ->
  let c := Mesh.sphere rho portion fa in
  let pole := mkVec3d 0 0 (- rho + 1 / INR n * INR send * 2 * rho) in
  (Rabs rho <= / 1000000 -> c = empty_contour)
  /\ (/ 1000000 < Rabs rho ->
      indices_in_range c
      /\ length (points c)
         = ((if Nat.eqb sbegin 0 then 1 else 0)
            + n * S (send - 1 - (sbegin + 2))
            + (if Nat.leb top send then 1 else 0))%nat
      /\ length (indices c)
         = ((if Nat.eqb sbegin 0 then n else 0)
            + 2 * n * (send - 1 - (sbegin + 2))
            + (if Nat.leb top send then n else 0))%nat
      /\ (exists body,
             points c = body ++ (if Nat.leb top send then [pole] else [])
             /\ Forall (fun v => vdot v v = rho * rho) body)
      /\ (send = n -> Forall (fun v => vdot v v = rho * rho) (points c))
      /\ ((send < n)%nat -> vdot pole pole < rho * rho)).
Proof.
  intros Hend Hsb Hse c pole. split; [ apply sphere_small | ].
  intros Hr.
  destruct (sphere_mesh_props Hsb Hse Hr)
    as (body & Hpts & Hon & Hwf & Hlen & Hind).
  fold c pole in Hpts, Hwf, Hind.
  assert (HNr : 0 < INR n) by (apply lt_0_INR; lia).
  split; [ exact Hwf | ].
  split.
  { rewrite Hpts, length_app, Hlen.
    destruct (Nat.leb top send); cbn [length]; lia. }
  split; [ exact Hind | ].
  split; [ exists body; split; assumption | ].
  split.
  - intros E. rewrite Hpts. apply Forall_app. split; [ exact Hon | ].
    destruct (Nat.leb top send); constructor; [ | constructor ].
    unfold pole, vdot. cbn [vx vy vz]. rewrite E.
    replace (- rho + 1 / INR n * INR n * 2 * rho) with rho by (field; lra).
    ring.
  - intros Hlt. unfold pole, vdot. cbn [vx vy vz].
    assert (Hs : 1 <= INR send).
    { change 1 with (INR 1). apply le_INR. lia. }
    assert (Hs' : INR send + 1 <= INR n).
    { rewrite <- S_INR. apply le_INR. lia. }
    set (t := 1 / INR n * INR send).
    assert (Ht : 0 < t < 1).
    { unfold t. split.
      - apply Rmult_lt_0_compat; [ | lra ].
        unfold Rdiv. rewrite Rmult_1_l. apply Rinv_0_lt_compat. lra.
      - apply (Rmult_lt_reg_l (INR n)); [ lra | ].
        replace (INR n * (1 / INR n * INR send)) with (INR send)
          by (field; lra).
        lra. }
    replace (- rho + t * 2 * rho) with (rho * (2 * t - 1)) by ring.
    assert (Hrho : 0 < rho * rho).
    { unfold Rabs in Hr. destruct (Rcase_abs rho); nra. }
    assert (H1 : (2 * t - 1) * (2 * t - 1) < 1) by nra.
    nra.
Qed.
End SphereTheorem.

Lemma sphere_mesh_witness :
  let c := Mesh.sphere 3 (make_portion Double.zero Double.PI) Double.one in
  length (points c) = 30%nat /\ length (indices c) = 56%nat.
Proof.
  intros c.
  destruct (sphere_mesh 3 (make_portion Double.zero Double.PI) Double.one)
    as (_ & Hbig).
  - vm_compute. lia.
  - vm_compute. lia.
  - vm_compute. lia.
  - destruct Hbig as (_ & Hp & Hi & _).
    + rewrite Rabs_right by lra. lra.
    + fold c in Hp, Hi. rewrite Hp, Hi. vm_compute. split; reflexivity.
Defined.

(** ** Junctions *)

(** X26: when spheres are tessellated by [sphere], a junction of
    [stepnum >= 3] steps whose step numbers the doubles give as exact
    arithmetic would, which holds for the 45 steps that the planner uses
    and fails for 6 steps, is a full sphere around its position: for a
    radius above [1e-6] in absolute value every vertex of its mesh lies at
    that distance from the position, every triangle refers to vertices of
    the mesh, and the mesh has [stepnum^2 - 2 * stepnum + 2] vertices and
    [2 * stepnum * (stepnum - 2)] triangles, 1937 and 3870 for 45 steps;
    for a smaller radius the mesh is empty. *)
Theorem junction_mesh `{Externals} (tr : Vec3d) (r_mm : R) (stepnum : nat) :
  (forall rho p fa, sphere rho p fa = Mesh.sphere rho p fa) ->
  regular_steps stepnum = true ->
  (3 <= stepnum)%nat ->
  let j := Junction.make tr r_mm stepnum in
  (Junction.pos j = tr
   /\ (Rabs r_mm <= / 1000000 -> Junction.mesh j = empty_contour)
   /\ (/ 1000000 < Rabs r_mm ->
       Forall (fun v => distance3 tr v = Rabs r_mm) (points (Junction.mesh j))
       /\ indices_in_range (Junction.mesh j)
       /\ (length (points (Junction.mesh j)) + 2 * stepnum
           = stepnum * stepnum + 2)%nat
       /\ (length (indices (Junction.mesh j)) + 4 * stepnum
           = 2 * stepnum * stepnum)%nat))
  /\ regular_steps 45 = true /\ regular_steps 6 = false.
Proof.
  intros Hsph Hreg Hn j.
  split; [ | split; vm_compute; reflexivity ].
  unfold regular_steps in Hreg. cbv zeta in Hreg.
  apply andb_prop in Hreg. destruct Hreg as [Hreg Htop].
  apply andb_prop in Hreg. destruct Hreg as [Hreg Hsend].
  apply andb_prop in Hreg. destruct Hreg as [Hreg Hsbegin].
  apply andb_prop in Hreg. destruct Hreg as [Hsteps Hfuel].
  apply Nat.eqb_eq in Htop, Hsend, Hsbegin, Hsteps.
  apply Nat.ltb_lt in Hfuel.
  set (fa := Double.circle_over stepnum) in *.
  set (portion := make_portion Double.zero Double.PI) in *.
  unfold j, Junction.make. cbn [Junction.pos Junction.mesh].
  rewrite Hsph. fold fa portion.
  split; [ reflexivity | ]. split.
  - intros Hs. rewrite (sphere_small r_mm portion fa Hs). reflexivity.
  - intros Hb.
    destruct (sphere_mesh_props r_mm portion fa) as
      (body & Hpts & Hon & Hwf & Hlen & Hind); [ lia | lia | exact Hb | ].
    rewrite Hsteps, Hsend, Hsbegin, Htop in *.
    rewrite Nat.leb_refl in *. cbn [Nat.eqb] in *.
    unfold indices_in_range, map_points in *. cbn [points indices].
    rewrite length_map.
    assert (HNr : 0 < INR stepnum) by (apply lt_0_INR; lia).
    split; [ | split; [ exact Hwf | split ] ].
    + apply Forall_map. rewrite Hpts. apply Forall_app. split.
      * revert Hon. apply Forall_impl.
        intros v Hv. unfold distance3, norm3.
        rewrite vsub_vadd, Hv. apply sqrt_Rsqr_abs.
      * constructor; [ | constructor ].
        unfold distance3, norm3. rewrite vsub_vadd.
        replace (vdot _ _) with (r_mm * r_mm); [ apply sqrt_Rsqr_abs | ].
        unfold vdot. cbn [vx vy vz].
        replace (- r_mm + 1 / INR stepnum * INR stepnum * 2 * r_mm)
          with r_mm by (field; lra).
        ring.
    + rewrite Hpts, length_app, Hlen. cbn [length]. nia.
    + rewrite Hind. nia.
Qed.

Lemma junction_mesh_witness :
  length (points (Junction.mesh
                    (Junction.make (H := overhang_spheres) zero3 (/ 2) 45)))
  = 1937%nat.
Proof.
  destruct (junction_mesh (H := overhang_spheres) zero3 (/ 2) 45)
    as ((_ & _ & Hbig) & _).
  - reflexivity.
  - vm_compute. reflexivity.
  - lia.
  - destruct Hbig as (_ & _ & Hp & _).
    + rewrite Rabs_right by lra. lra.
    + lia.
Defined.

(** ** The corrected normal *)

(** [atan2] gives the angle of the point [(x, y)]: with the distance of
    the point from the origin it gives the point back. *)
Lemma atan2_polar (x y : R) :
  let rho := sqrt (x * x + y * y) in
  cos (atan2 y x) * rho = x /\ sin (atan2 y x) * rho = y.
Proof.
  intros rho. unfold atan2.
  assert (Hs : forall t, 0 < sqrt (1 + t²) /\ sqrt (1 + t²) * sqrt (1 + t²) = 1 + t²).
  { intros t. assert (0 < 1 + t²) by (unfold Rsqr; nra).
    split; [ apply sqrt_lt_R0; assumption | apply sqrt_sqrt; lra ]. }
  destruct (Rlt_dec 0 x) as [Hx | Hx].
  - destruct (Hs (y / x)) as [Hpos Hsq]. set (s := sqrt (1 + (y / x)²)) in *.
    assert (Hrho : rho = x * s).
    { unfold rho. apply sqrt_lem_1; [ nra | nra | ].
      replace (x * s * (x * s)) with (x * x * (s * s)) by ring.
      rewrite Hsq. unfold Rsqr. field. lra. }
    rewrite cos_atan, sin_atan, Hrho. fold s. split; field; lra.
  - destruct (Rlt_dec x 0) as [Hx' | Hx'].
    + destruct (Hs (y / x)) as [Hpos Hsq].
      set (s := sqrt (1 + (y / x)²)) in *.
      assert (Hrho : rho = - x * s).
      { unfold rho. apply sqrt_lem_1; [ nra | nra | ].
        replace (- x * s * (- x * s)) with (x * x * (s * s)) by ring.
        rewrite Hsq. unfold Rsqr. field. lra. }
      destruct (Rle_dec 0 y) as [Hy | Hy].
      * rewrite cos_plus, sin_plus, cos_PI, sin_PI, cos_atan, sin_atan, Hrho.
        fold s. split; field; lra.
      * rewrite cos_minus, sin_minus, cos_PI, sin_PI, cos_atan, sin_atan,
          Hrho.
        fold s. split; field; lra.
    + assert (E : x = 0) by lra. subst x.
      assert (Hrho : rho = Rabs y).
      { unfold rho. rewrite Rmult_0_l, Rplus_0_l.
        fold (Rsqr y). apply sqrt_Rsqr_abs. }
      destruct (Rlt_dec 0 y) as [Hy | Hy].
      * rewrite cos_PI2, sin_PI2, Hrho, Rabs_right by lra. split; ring.
      * destruct (Rlt_dec y 0) as [Hy' | Hy'].
        -- rewrite cos_neg, sin_neg, cos_PI2, sin_PI2, Hrho, Rabs_left by lra.
           split; ring.
        -- assert (E : y = 0) by lra. subst y.
           rewrite cos_0, sin_0, Hrho, Rabs_R0. split; ring.
Qed.

(** X27: a unit normal that already leans at most 45 degrees away from
    straight down, one whose [z] is at most [cos(3*PI/4)], comes back
    unchanged from the conversion to spherical coordinates, the saturation of
    the polar angle and the conversion back; hence correcting a normal twice
    gives the same as correcting it once. *)
Theorem corrected_normal_fixpoint (n : Vec3d) :
  (vdot n n = 1 -> vz n <= cos (3 * PI / 4) -> corrected_normal n = n)
  /\ corrected_normal (corrected_normal n) = corrected_normal n.
Proof.
  assert (Hfix : forall m, vdot m m = 1 -> vz m <= cos (3 * PI / 4) ->
                           corrected_normal m = m).
  { intros [x y z] Hu Hz. unfold vdot in Hu. cbn [vx vy vz] in *.
    pose proof PI_RGT_0 as Hpi.
    assert (Hzb : -1 <= z <= 1) by (split; nra).
    unfold corrected_normal. cbn [vx vy vz].
    replace (z / 1) with z by field.
    assert (Hpol : Rmax (acos z) (3 * PI / 4) = acos z).
    { apply Rmax_left.
      pose proof (acos_bound z) as Hab.
      apply cos_decr_0; try lra.
      rewrite cos_acos by exact Hzb. exact Hz. }
    rewrite Hpol, cos_acos, sin_acos by exact Hzb.
    replace (1 - z²) with (x * x + y * y) by (unfold Rsqr; lra).
    destruct (atan2_polar x y) as [Hc Hsn].
    rewrite Hc, Hsn. reflexivity. }
  split; [ apply Hfix | ].
  destruct (corrected_normal_unit_down n) as [Hu Hz].
  apply Hfix; assumption.
Qed.

Lemma corrected_normal_fixpoint_witness :
  corrected_normal down = down.
Proof.
  apply (corrected_normal_fixpoint down).
  - unfold vdot, down. cbn. ring.
  - unfold down. cbn [vz]. pose proof (COS_bound (3 * PI / 4)). lra.
Defined.

(** ** The slope of the bridge of a side head *)

(** X28: the bridge that the routing gives a side head whose landing
    point lies above the ground runs from the anchor under the side head to
    the axis of the main pillar and descends by the distance of the two in
    the plane times the sine of the configured tilt; so its length is that
    distance times [sqrt(1 + sin(tilt)^2)], and the tangent of its angle to
    the horizontal is the sine of the tilt, not its tangent. *)
Theorem side_bridge_slope `{Externals} (cfg : SupportConfig) (jh : Vec3d)
    (s : RState) (hidx : nat) (h0 : Head.t) :
  nth_error (Impl.m_heads (rs_tree s)) hidx = Some h0 ->
  let jp := side_anchor h0 in
  let jn := side_landing cfg h0 jh in
  let d := dist_xy jp jh in
  0 < vz jn ->
  exists s',
    route_sidehead cfg jh s hidx = (s', Completed)
    /\ In (EvBridge jp jn
             (Head.request_pillar_radius h0 (pillar_radius_mm cfg)))
          (rs_log s')
    /\ (vx jn, vy jn) = (vx jh, vy jh)
    /\ dist_xy jp jn = d
    /\ vz jp - vz jn = d * sin (tilt cfg)
    /\ distance3 jp jn = d * sqrt (1 + sin (tilt cfg) * sin (tilt cfg)).
Proof.
  intros Hh jp jn d Hz.
  destruct (route_sidehead_bridge cfg jh s hidx h0 Hh Hz)
    as (s' & Hrun & Hlog & _).
  exists s'. split; [ exact Hrun | ].
  split.
  { rewrite Hlog. apply in_or_app. right. cbn. auto. }
  split; [ reflexivity | ].
  assert (Hd : dist_xy jp jn = d) by reflexivity.
  split; [ exact Hd | ].
  assert (Hdrop : vz jp - vz jn = d * sin (tilt cfg)).
  { unfold jn, side_landing. cbn [vz]. fold jp d. rewrite sin_neg. ring. }
  split; [ exact Hdrop | ].
  assert (Hd0 : 0 <= d) by (unfold d, dist_xy, distance2, norm2; apply sqrt_pos).
  assert (Hdd : d * d
                = (vx jh - vx jp) * (vx jh - vx jp)
                  + (vy jh - vy jp) * (vy jh - vy jp)).
  { unfold d, dist_xy, distance2, norm2. cbn [ux uy].
    apply sqrt_sqrt. apply Rplus_le_le_0_compat; apply Rle_0_sqr. }
  unfold distance3, norm3.
  set (k := sqrt (1 + sin (tilt cfg) * sin (tilt cfg))).
  assert (Hk : 0 <= k /\ k * k = 1 + sin (tilt cfg) * sin (tilt cfg)).
  { unfold k. split; [ apply sqrt_pos | apply sqrt_sqrt ].
    apply Rplus_le_le_0_compat; [ lra | apply Rle_0_sqr ]. }
  apply sqrt_lem_1.
  - apply vdot_self_nonneg.
  - apply Rmult_le_pos; tauto.
  - unfold vdot, vsub. cbn [vx vy vz].
    change (vx jn) with (vx jh). change (vy jn) with (vy jh).
    replace (vz jn - vz jp) with (- (d * sin (tilt cfg))) by lra.
    destruct Hk as [_ Hk]. nra.
Qed.

Lemma side_bridge_slope_witness :
  let h1 := Head.make (H := spike) (/ 2) (/ 4) 1 down (mkVec3d 2 0 10) 45 in
  let jp := side_anchor h1 in
  let jn := side_landing tilt30_cfg h1 (mkVec3d 0 0 8) in
  vz jp - vz jn = dist_xy jp (mkVec3d 0 0 8) * sin (PI / 6).
Proof.
  intros h1 jp jn.
  destruct (side_bridge_slope (H := spike) tilt30_cfg (mkVec3d 0 0 8)
              (mkRState (Impl.mk [h1; h1] [] [] []) []) 0 h1 eq_refl)
    as (s' & _ & _ & _ & _ & Hdrop & _).
  - unfold side_landing. cbn [vz tilt tilt30_cfg].
    rewrite sin_minus_PI6.
    rewrite (dist_xy_value (side_anchor h1) (mkVec3d 0 0 8) 2).
    + unfold side_anchor, h1, Head.junction_point, Head.fullwidth, Head.make,
        set_z, vadd, vscale, down. cbn. lra.
    + lra.
    + unfold side_anchor, h1, Head.junction_point, Head.fullwidth, Head.make,
        set_z, vadd, vscale, down. cbn. ring.
  - exact Hdrop.
Defined.
